(** * A UDP presence beacon: resolver, receiver and sender

    Shallow embedding of [testdistributed_app_simple/main.py] and the
    properties of its three functions [get_peer_ips], [receiver] and
    [sender].

    The file is organised as follows.
    - [Text]: Python [str] and [bytes] values, number formatting, the
      timestamp of [log], the strict UTF-8 codec.
    - [Exn]: the exceptions that reach an [except Exception] clause and the
      text [str(e)] gives for them.
    - [Sys]: the outside world (clock, resolver, sockets, standard output)
      as oracles, [time.sleep], and the monad the program runs in.
    - [Node]: the program itself, on a standard output that takes every
      text.
    - [Output]: the program on a standard output with an error handler,
      which may refuse a line.
    - The theorems: first those about [Node], then those about [Output],
      of which [Node] is the case where no line is refused. *)

From Stdlib Require Import ZArith NArith QArith String Ascii Strings.Byte List Lia.
From Stdlib Require DecimalString.
From stdpp Require Import base option list gmap.

Local Open Scope list_scope.

(** ** Text *)

Module Text.

(** A Python [str] is a sequence of code points; [bytes] is a sequence of
    octets. *)
Definition str := list N.
Definition bytes := list byte.

(** A string literal of the source (all of them are ASCII). *)
Definition lit (s : string) : str := map N_of_ascii (list_ascii_of_string s).

(** Decimal text of an [int], as [str(n)] and [f"{n}"] give it. *)
Definition str_of_Z (z : Z) : str :=
  lit (DecimalString.NilZero.string_of_int (Z.to_int z)).

Definition str_of_nat (n : nat) : str := str_of_Z (Z.of_nat n).

(** The [k]-th decimal digit of [n], counted from the right. *)
Definition digit (n : N) (k : nat) : N := ((n / 10 ^ N.of_nat k) mod 10)%N.

Definition digit_char (d : N) : N := (48 + d)%N.

(** A zero-padded decimal field of [width] characters, the way [strftime]
    prints [%H], [%M], [%S] (width 2) and [%f] (width 6).  The fields of a
    [datetime] always fit their width. *)
Definition zero_padded (width : nat) (n : N) : str :=
  map (fun k => digit_char (digit n k)) (rev (seq 0 width)).

(** The time-of-day part of [datetime.now()]. *)
Record datetime := {
  hour : N;
  minute : N;
  second : N;
  microsecond : N
}.

(** The ranges [datetime] guarantees. *)
Definition datetime_ok (t : datetime) : Prop :=
  (hour t < 24 /\ minute t < 60 /\ second t < 60 /\ microsecond t < 1000000)%N.

(** [t.strftime("%H:%M:%S.%f")] *)
Definition strftime_HMSf (t : datetime) : str :=
  zero_padded 2 (hour t) ++ lit ":" ++ zero_padded 2 (minute t) ++ lit ":"
  ++ zero_padded 2 (second t) ++ lit "." ++ zero_padded 6 (microsecond t).

(** The slice [s[:-n]]. *)
Definition slice_to_minus (n : nat) (s : str) : str := take (length s - n) s.

(** [datetime.now().strftime("%H:%M:%S.%f")[:-3]], given the reading [t] of
    the clock (lines 9 and 85). *)
Definition timestamp (t : datetime) : str := slice_to_minus 3 (strftime_HMSf t).

(** The same time of day written [HH:MM:SS.mmm] with the microseconds
    truncated to whole milliseconds: the format the specification names. *)
Definition hms_millis (t : datetime) : str :=
  zero_padded 2 (hour t) ++ lit ":" ++ zero_padded 2 (minute t) ++ lit ":"
  ++ zero_padded 2 (second t) ++ lit "." ++ zero_padded 3 (microsecond t / 1000)%N.

(** Lower-case hexadecimal field of [width] digits ([%02x], [%04x]). *)
Definition hex_char (d : N) : N := (if d <? 10 then 48 + d else 87 + d)%N.

Definition hex_padded (width : nat) (n : N) : str :=
  map (fun k => hex_char ((n / 16 ^ N.of_nat k) mod 16)%N) (rev (seq 0 width)).

Definition byte_of_N (n : N) : byte := default x00 (Byte.of_N (n mod 256)%N).

End Text.

Export Text.

(** ** Exceptions *)

Module Exn.

(** The exceptions the program can meet.  All of them derive from
    [Exception], so an [except Exception] clause catches each one.
    [KeyboardInterrupt] and [SystemExit], which come from outside the
    program, are not modelled.  [PyError cls msg] stands for any other
    subclass of [Exception], with its class name and its text. *)
Inductive exn :=
| OSError (errno : Z) (strerror : str)
| gaierror (errno : Z) (strerror : str)
| herror (errno : Z) (strerror : str)
| TimeoutError (msg : str)
| ValueError (msg : str)
| UnicodeError (msg : str)
| UnicodeDecodeError (encoding : str) (object : bytes) (start stop : nat) (reason : str)
| UnicodeEncodeError (encoding : str) (object : str) (start stop : nat) (reason : str)
| PyError (cls : string) (msg : str).

Definition errno_text (errno : Z) (strerror : str) : str :=
  lit "[Errno " ++ str_of_Z errno ++ lit "] " ++ strerror.

(** How [UnicodeEncodeError.__str__] escapes the offending character. *)
Definition escaped_char (c : N) : str :=
  (if c <=? 255 then lit "\x" ++ hex_padded 2 c
   else if c <=? 65535 then lit "\u" ++ hex_padded 4 c
   else lit "\U" ++ hex_padded 8 c)%N.

(** [str(e)], which [f"{e}"] puts into the log lines. *)
Definition exn_str (e : exn) : str :=
  match e with
  | OSError n m | gaierror n m | herror n m => errno_text n m
  | TimeoutError m | ValueError m | UnicodeError m | PyError _ m => m
  | UnicodeDecodeError enc obj start stop reason =>
      match obj !! start with
      | Some b =>
          if decide (stop = S start) then
            lit "'" ++ enc ++ lit "' codec can't decode byte 0x"
            ++ hex_padded 2 (Byte.to_N b) ++ lit " in position "
            ++ str_of_nat start ++ lit ": " ++ reason
          else
            lit "'" ++ enc ++ lit "' codec can't decode bytes in position "
            ++ str_of_nat start ++ lit "-" ++ str_of_nat (stop - 1)
            ++ lit ": " ++ reason
      | None =>
          lit "'" ++ enc ++ lit "' codec can't decode bytes in position "
          ++ str_of_nat start ++ lit "-" ++ str_of_nat (stop - 1)
          ++ lit ": " ++ reason
      end
  | UnicodeEncodeError enc obj start stop reason =>
      match obj !! start with
      | Some c =>
          if decide (stop = S start) then
            lit "'" ++ enc ++ lit "' codec can't encode character '"
            ++ escaped_char c ++ lit "' in position "
            ++ str_of_nat start ++ lit ": " ++ reason
          else
            lit "'" ++ enc ++ lit "' codec can't encode characters in position "
            ++ str_of_nat start ++ lit "-" ++ str_of_nat (stop - 1)
            ++ lit ": " ++ reason
      | None =>
          lit "'" ++ enc ++ lit "' codec can't encode characters in position "
          ++ str_of_nat start ++ lit "-" ++ str_of_nat (stop - 1)
          ++ lit ": " ++ reason
      end
  end.

End Exn.

Export Exn.

(** ** The strict UTF-8 codec *)

Module Utf8.

Local Open Scope N_scope.

Definition is_surrogate (c : N) : bool := (0xD800 <=? c) && (c <=? 0xDFFF).

(** A code point [str.encode('utf-8')] accepts. *)
Definition is_scalar (c : N) : bool := (c <=? 0x10FFFF) && negb (is_surrogate c).

(** Text without lone surrogates: every code point is a Unicode scalar value. *)
Definition valid_text (s : str) : bool := forallb is_scalar s.

(** The bytes of one code point.  A [str] holds no code point above
    [0x10FFFF]; the last branch is written with a [mod] so that the function
    is total. *)
Definition encode_char (c : N) : bytes :=
  if c <? 0x80 then [byte_of_N c]
  else if c <? 0x800 then
    [byte_of_N (0xC0 + c / 64); byte_of_N (0x80 + c mod 64)]
  else if c <? 0x10000 then
    [byte_of_N (0xE0 + c / 4096); byte_of_N (0x80 + (c / 64) mod 64);
     byte_of_N (0x80 + c mod 64)]
  else
    [byte_of_N (0xF0 + (c / 262144) mod 8); byte_of_N (0x80 + (c / 4096) mod 64);
     byte_of_N (0x80 + (c / 64) mod 64); byte_of_N (0x80 + c mod 64)].

(** The length of the run of surrogates at the head of [s]. *)
Fixpoint surrogate_run (s : str) : nat :=
  match s with
  | c :: s' => if is_surrogate c then S (surrogate_run s') else 0%nat
  | [] => 0%nat
  end.

(** [obj.encode('utf-8')] from position [pos] on, [s] being what is left of
    [obj].  A surrogate raises [UnicodeEncodeError] for the whole run of
    surrogates that starts there. *)
Fixpoint encode_from (obj : str) (pos : nat) (s : str) : exn + bytes :=
  match s with
  | [] => inr []
  | c :: s' =>
      if is_surrogate c then
        inl (UnicodeEncodeError (lit "utf-8") obj pos (pos + surrogate_run s)
               (lit "surrogates not allowed"))
      else
        match encode_from obj (S pos) s' with
        | inl e => inl e
        | inr bs => inr (encode_char c ++ bs)
        end
  end.

Definition encode_utf8 (s : str) : exn + bytes := encode_from s 0 s.

Definition is_continuation (b : N) : bool := (0x80 <=? b) && (b <? 0xC0).

Definition decode_error (obj : bytes) (start stop : nat) (reason : string)
  : exn + str :=
  inl (UnicodeDecodeError (lit "utf-8") obj start stop (lit reason)).

Definition unexpected_end (obj : bytes) (pos : nat) : exn + str :=
  decode_error obj pos (length obj) "unexpected end of data".

Definition invalid_start (obj : bytes) (pos : nat) : exn + str :=
  decode_error obj pos (pos + 1) "invalid start byte".

Definition invalid_continuation (obj : bytes) (pos k : nat) : exn + str :=
  decode_error obj pos (pos + k) "invalid continuation byte".

Definition decoded (c : N) (rest : exn + str) : exn + str :=
  match rest with
  | inl e => inl e
  | inr s => inr (c :: s)
  end.

(** [obj.decode('utf-8')] from position [pos] on, [bs] being what is left of
    [obj]: the strict decoder, which refuses overlong forms, surrogates and
    code points above [0x10FFFF], and reports where and why it stopped. *)
Fixpoint decode_from (obj : bytes) (pos : nat) (bs : bytes) {struct bs}
  : exn + str :=
  match bs with
  | [] => inr []
  | b0 :: r0 =>
    let ch := Byte.to_N b0 in
    if ch <? 0x80 then decoded ch (decode_from obj (pos + 1) r0)
    else if ch <? 0xC2 then invalid_start obj pos
    else if ch <? 0xE0 then
      match r0 with
      | [] => unexpected_end obj pos
      | b1 :: r1 =>
        let ch2 := Byte.to_N b1 in
        if negb (is_continuation ch2) then invalid_continuation obj pos 1
        else decoded (ch * 64 + ch2 - 0x3080) (decode_from obj (pos + 2) r1)
      end
    else if ch <? 0xF0 then
      match r0 with
      | [] => unexpected_end obj pos
      | b1 :: r1 =>
        let ch2 := Byte.to_N b1 in
        if negb (is_continuation ch2)
           || (if ch2 <? 0xA0 then ch =? 0xE0 else ch =? 0xED)
        then invalid_continuation obj pos 1
        else
          match r1 with
          | [] => unexpected_end obj pos
          | b2 :: r2 =>
            let ch3 := Byte.to_N b2 in
            if negb (is_continuation ch3) then invalid_continuation obj pos 2
            else decoded (ch * 4096 + ch2 * 64 + ch3 - 0xE2080)
                         (decode_from obj (pos + 3) r2)
          end
      end
    else if ch <? 0xF5 then
      match r0 with
      | [] => unexpected_end obj pos
      | b1 :: r1 =>
        let ch2 := Byte.to_N b1 in
        if negb (is_continuation ch2)
           || (if ch2 <? 0x90 then ch =? 0xF0 else ch =? 0xF4)
        then invalid_continuation obj pos 1
        else
          match r1 with
          | [] => unexpected_end obj pos
          | b2 :: r2 =>
            let ch3 := Byte.to_N b2 in
            if negb (is_continuation ch3) then invalid_continuation obj pos 2
            else
              match r2 with
              | [] => unexpected_end obj pos
              | b3 :: r3 =>
                let ch4 := Byte.to_N b3 in
                if negb (is_continuation ch4) then invalid_continuation obj pos 3
                else decoded (ch * 262144 + ch2 * 4096 + ch3 * 64 + ch4 - 0x3C82080)
                             (decode_from obj (pos + 4) r3)
              end
          end
      end
    else invalid_start obj pos
  end.

Definition decode_utf8 (data : bytes) : exn + str := decode_from data 0 data.

End Utf8.

Export Utf8.

(** ** The outside world and the monad of the program *)

Module Sys.

(** An address as the [socket] module takes and gives it: [(host, port)]. *)
Definition endpoint : Type := str * Z.

(** One entry of the list [socket.getaddrinfo] returns:
    [(family, type, proto, canonname, sockaddr)]. *)
Record addrinfo := {
  ai_family : Z;
  ai_type : Z;
  ai_proto : Z;
  ai_canonname : str;
  ai_sockaddr : endpoint
}.

Inductive sockopt := SO_REUSEADDR | SO_BROADCAST.

(** A socket object, named by the call that created it. *)
Definition sock := nat.

(** What the program does to the outside world, one event per call. *)
Inductive event :=
| Stdout (line : str)
| Gethostname
| Gethostbyname (host : str)
| Getaddrinfo (host : str)
| Socket
| Setsockopt (s : sock) (opt : sockopt) (value : Z)
| Bind (s : sock) (addr : endpoint)
| Sendto (s : sock) (data : bytes) (addr : endpoint)
| Recvfrom (s : sock) (bufsize : nat)
| Sleep (secs : Q).

(** What the outside world answers.  [clock w n] is the [n]-th reading of
    [datetime.now()]; every other oracle gives the outcome of a call into the
    [socket] module made when [n] such calls came before it. *)
Record world := {
  clock : nat -> datetime;
  gethostname_result : nat -> exn + str;
  gethostbyname_result : nat -> str -> exn + str;
  getaddrinfo_result : nat -> str -> exn + list addrinfo;
  socket_result : nat -> option exn;
  setsockopt_result : nat -> sock -> sockopt -> option exn;
  bind_result : nat -> sock -> endpoint -> option exn;
  sendto_result : nat -> sock -> bytes -> endpoint -> option exn;
  recvfrom_result : nat -> sock -> exn + (bytes * endpoint)
}.

(** How far the program has come: the clock readings and socket calls it has
    used up, and everything it has done so far, oldest first. *)
Record state := {
  clock_reads : nat;
  net_calls : nat;
  trace : list event
}.

Definition initial : state := {| clock_reads := 0; net_calls := 0; trace := [] |}.

(** How a piece of code ends: it returns, it raises, or (a [while True]
    loop cut after finitely many rounds) it is still running. *)
Inductive outcome (A : Type) :=
| Returned (a : A)
| Raised (e : exn)
| Running.
Arguments Returned {A} a.
Arguments Raised {A} e.
Arguments Running {A}.

Definition M (A : Type) : Type := state -> outcome A * state.

Definition ret {A} (a : A) : M A := fun st => (Returned a, st).

Definition raise {A} (e : exn) : M A := fun st => (Raised e, st).

Definition bind {A B} (m : M A) (k : A -> M B) : M B :=
  fun st =>
    match m st with
    | (Returned a, st') => k a st'
    | (Raised e, st') => (Raised e, st')
    | (Running, st') => (Running, st')
    end.

(** [try: body / except Exception as e: handler e] *)
Definition try_except {A} (body : M A) (handler : exn -> M A) : M A :=
  fun st =>
    match body st with
    | (Raised e, st') => handler e st'
    | r => r
    end.

(** A pure library call that may raise. *)
Definition lift {A} (r : exn + A) : M A :=
  match r with
  | inl e => raise e
  | inr a => ret a
  end.

Declare Scope prog_scope.
Delimit Scope prog_scope with prog.
Notation "x <- m ;; k" := (bind m (fun x => k))
  (at level 100, m at next level, right associativity) : prog_scope.
Notation "m ;; k" := (bind m (fun _ => k))
  (at level 100, right associativity) : prog_scope.
Local Open Scope prog_scope.

(** [for x in l: body x] *)
Fixpoint for_each {A} (l : list A) (body : A -> M unit) : M unit :=
  match l with
  | [] => ret tt
  | x :: l' => body x;; for_each l' body
  end.

(** The first [rounds] rounds of [while True: body]. *)
Fixpoint while_true (rounds : nat) (body : M unit) : M unit :=
  match rounds with
  | O => fun st => (Running, st)
  | S n => body;; while_true n body
  end.

(** The three ways the state moves on: something is written or slept
    ([emit]), the clock is read ([tick]), the [socket] module is called
    ([call]). *)
Definition emit (ev : event) (st : state) : state :=
  {| clock_reads := clock_reads st; net_calls := net_calls st;
     trace := trace st ++ [ev] |}.

Definition tick (st : state) : state :=
  {| clock_reads := S (clock_reads st); net_calls := net_calls st;
     trace := trace st |}.

Definition call (ev : event) (st : state) : state :=
  {| clock_reads := clock_reads st; net_calls := S (net_calls st);
     trace := trace st ++ [ev] |}.

(** [print(line, flush=True)] on a standard output that takes every text, as
    it does with the error handlers that replace what they cannot encode.
    [Output.print] below is [print] for any error handler, the strict one
    included. *)
Definition print (line : str) : M unit := fun st => (Returned tt, emit (Stdout line) st).

(** [time.sleep(secs)] works on a signed 64-bit count of nanoseconds.  The
    length of a sleep is a finite [float], a rational; CPython multiplies it
    by [1e9] and rounds the product to the nearest [float] before anything
    else, which is why the bounds below are not [2^63] itself: next to
    [2^63] the floats are 1024 apart below it and 2048 apart above it. *)
Definition nanoseconds (secs : Q) : Q := secs * inject_Z 1000000000.

(** The products that round to a [float] from [-2^63] to [2^63]: the others
    are refused with an [OverflowError]. *)
Definition in_time_range (ns : Q) : bool :=
  Qle_bool (inject_Z (- (2 ^ 63 + 1024))) ns && Qle_bool ns (inject_Z (2 ^ 63 + 1024)).

(** The products that round to [2^63] itself.  They pass the range check of
    CPython 3.11, and the conversion to a 64-bit count then yields the most
    negative count (on x86-64), so that the length is refused as a negative
    one is. *)
Definition wraps_around (ns : Q) : bool := Qle_bool (inject_Z (2 ^ 63 - 512)) ns.

(** How [time.sleep(secs)] ends: the range check comes first, the sign check
    second.  What is left out: a signal that interrupts the sleep, and the
    deadline [now + secs] on the monotonic clock, which the system refuses
    ([OSError], errno 22) when it passes [2^63] nanoseconds in its turn. *)
Definition sleep_outcome (secs : Q) : outcome unit :=
  if negb (in_time_range (nanoseconds secs)) then
    Raised (PyError "OverflowError" (lit "timestamp too large to convert to C _PyTime_t"))
  else if Qle_bool 0 secs && negb (wraps_around (nanoseconds secs)) then Returned tt
  else Raised (ValueError (lit "sleep length must be non-negative")).

(** [time.sleep(secs)] *)
Definition sleep (secs : Q) : M unit :=
  fun st => (sleep_outcome secs, emit (Sleep secs) st).

(** Lengths that [time.sleep] takes on any machine: from zero to [2^62]
    nanoseconds (146 years), which leaves the deadline as much room on the
    monotonic clock. *)
Definition sleepable (secs : Q) : bool :=
  Qle_bool 0 secs && Qle_bool (nanoseconds secs) (inject_Z (2 ^ 62)).

Section Calls.

Variable w : world.

(** [datetime.now()] *)
Definition now : M datetime :=
  fun st =>
    (Returned (clock w (clock_reads st)), tick st).

(** A call into the [socket] module: it is recorded, and the world says how
    it ends. *)
Definition net_call {A} (ev : event) (answer : nat -> exn + A) : M A :=
  fun st =>
    (match answer (net_calls st) with
     | inl e => Raised e
     | inr a => Returned a
     end,
     call ev st).

Definition or_raise (r : option exn) : exn + unit :=
  match r with
  | Some e => inl e
  | None => inr tt
  end.

Definition gethostname : M str := net_call Gethostname (gethostname_result w).

Definition gethostbyname (host : str) : M str :=
  net_call (Gethostbyname host) (fun n => gethostbyname_result w n host).

(** [socket.getaddrinfo(host, None, socket.AF_INET)] *)
Definition getaddrinfo (host : str) : M (list addrinfo) :=
  net_call (Getaddrinfo host) (fun n => getaddrinfo_result w n host).

(** [socket.socket(socket.AF_INET, socket.SOCK_DGRAM, socket.IPPROTO_UDP)] *)
Definition socket : M sock :=
  net_call Socket
    (fun n => match socket_result w n with Some e => inl e | None => inr n end).

Definition setsockopt (s : sock) (opt : sockopt) (value : Z) : M unit :=
  net_call (Setsockopt s opt value) (fun n => or_raise (setsockopt_result w n s opt)).

Definition bind_socket (s : sock) (addr : endpoint) : M unit :=
  net_call (Bind s addr) (fun n => or_raise (bind_result w n s addr)).

Definition sendto (s : sock) (data : bytes) (addr : endpoint) : M unit :=
  net_call (Sendto s data addr) (fun n => or_raise (sendto_result w n s data addr)).

(** [s.recvfrom(bufsize)]: what exceeds [bufsize] bytes of the datagram is
    discarded. *)
Definition recvfrom (s : sock) (bufsize : nat) : M (bytes * endpoint) :=
  net_call (Recvfrom s bufsize)
    (fun n => match recvfrom_result w n s with
              | inl e => inl e
              | inr (data, addr) => inr (take bufsize data, addr)
              end).

End Calls.

End Sys.

Export Sys.
Local Open Scope prog_scope.

(** ** The program *)

Module Node.

(** The configuration, read from the environment when the module is loaded
    (lines 14-17). *)
Record config := {
  MESSAGE_ID : str;
  PERIOD : Q;
  PORT : Z;
  PEER_SERVICE_DNS : str
}.

Section Program.

Variable cfg : config.
Variable w : world.

(** The text [f"{x}"] gives for a [float]; it is only used in the first log
    line of [sender] and is left open. *)
Variable float_str : Q -> str.

(** [log], lines 8-10. *)
Definition log (msg : str) : M unit :=
  t <- now w;;
  print (lit "[" ++ timestamp t ++ lit "] " ++ msg).

(** Lines 32-35: one round of the loop over the results. *)
Definition add_peer (my_ip : str) (ips : gset str) (result : addrinfo) : gset str :=
  let ip := fst (ai_sockaddr result) in
  if decide (ip ≠ my_ip) then ips ∪ {[ ip ]} else ips.

(** Lines 26-41: the body of the [try].  [list(ips)] lists the set in an
    order of its own; [elements] stands for it, and nothing below depends on
    the order. *)
Definition resolve_peers : M (list str) :=
  host <- gethostname w;;
  my_ip <- gethostbyname w host;;
  results <- getaddrinfo w (PEER_SERVICE_DNS cfg);;
  let ips := foldl (add_peer my_ip) ∅ results in
  ret (elements ips).

(** [get_peer_ips], lines 19-44. *)
Definition get_peer_ips : M (list str) :=
  match PEER_SERVICE_DNS cfg with
  | [] => ret [lit "<broadcast>"]
  | _ =>
      try_except resolve_peers
        (fun e =>
           log (lit "Error resolving peers from " ++ PEER_SERVICE_DNS cfg
                ++ lit ": " ++ exn_str e);;
           ret [])
  end.

(** Lines 63-69: one round of the receive loop. *)
Definition receiver_step (s : sock) : M unit :=
  try_except
    (p <- recvfrom w s 1024;;
     let '(data, addr) := p in
     msg <- lift (decode_utf8 data);;
     log (lit "Received from " ++ fst addr ++ lit ":" ++ str_of_Z (snd addr)
          ++ lit " -> " ++ msg))
    (fun e =>
       log (lit "Error receiving: " ++ exn_str e);;
       sleep 1).

(** [receiver], lines 46-69, with the first [rounds] rounds of its loop. *)
Definition receiver (rounds : nat) : M unit :=
  s <- socket w;;
  setsockopt w s SO_REUSEADDR 1;;
  setsockopt w s SO_BROADCAST 1;;
  bound <- try_except
             (bind_socket w s (lit "0.0.0.0", PORT cfg);; ret true)
             (fun e => log (lit "Error binding receiver: " ++ exn_str e);; ret false);;
  if bound : bool then
    log (lit "Listening for UDP messages on port " ++ str_of_Z (PORT cfg) ++ lit "...");;
    while_true rounds (receiver_step s)
  else ret tt.

(** Line 86: the text of the presence message. *)
Definition message (current_time : str) : str :=
  lit "hola desde " ++ MESSAGE_ID cfg ++ lit " sent at " ++ current_time.

(** Lines 89-93: the body of the loop over the peers. *)
Definition send_to (s : sock) (msg_content : str) (ip : str) : M unit :=
  try_except
    (data <- lift (encode_utf8 msg_content);;
     sendto w s data (ip, PORT cfg))
    (fun e => log (lit "Error sending to " ++ ip ++ lit ": " ++ exn_str e)).

(** Lines 79-95: one round of the send loop. *)
Definition sender_cycle (s : sock) : M unit :=
  peers <- get_peer_ips;;
  match peers with
  | [] => log (lit "No peers found.")
  | _ => ret tt
  end;;
  t <- now w;;
  let current_time := timestamp t in
  let msg_content := message current_time in
  for_each peers (send_to s msg_content);;
  sleep (PERIOD cfg).

(** [sender], lines 71-95, with the first [rounds] rounds of its loop. *)
Definition sender (rounds : nat) : M unit :=
  s <- socket w;;
  setsockopt w s SO_BROADCAST 1;;
  log (lit "Starting sender: '" ++ MESSAGE_ID cfg ++ lit "' to port "
       ++ str_of_Z (PORT cfg) ++ lit " every " ++ float_str (PERIOD cfg) ++ lit "s");;
  while_true rounds (sender_cycle s).

(** [threading.Thread(target=f, daemon=True).start()]: however [f] ends, by
    returning or by raising, it ends the thread only and the caller goes on. *)
Definition start_thread (target : M unit) : M unit :=
  fun st => (Returned tt, snd (target st)).

(** Lines 97-103.  The two threads share nothing but the clock and the
    standard output; this is the run in which the first [receiver_rounds]
    rounds of the receiver thread come before the sender. *)
Definition main (receiver_rounds sender_rounds : nat) : M unit :=
  start_thread (receiver receiver_rounds);;
  sender sender_rounds.

End Program.

End Node.

Export Node.

(** ** The program on a standard output that may refuse text *)

Module Output.

(** [sys.stdout] encodes what is printed, in UTF-8 here, and hands what it
    cannot encode, the lone surrogates, to its error handler:
    [sys.stdout.errors].  It is [strict] by default and [surrogateescape] in
    the C and POSIX locales; [PYTHONIOENCODING] sets any of them. *)
Inductive error_handler :=
| Strict
| Ignore
| Replace
| Xmlcharrefreplace
| Backslashreplace
| Namereplace
| Surrogateescape
| Surrogatepass.

(** The surrogates a handler writes in some form.  [strict] writes none,
    [surrogateescape] writes back the bytes that were read as [U+DC80] to
    [U+DCFF], the others write or drop every one. *)
Definition handles (errors : error_handler) (c : N) : bool :=
  match errors with
  | Strict => false
  | Surrogateescape => ((0xDC80 <=? c) && (c <=? 0xDCFF))%N
  | _ => true
  end.

(** Where the encoding of [s] stops, [s] being what is left of the text from
    position [pos] on: at the first surrogate the handler does not write,
    and the error spans the surrogates that follow it without a gap. *)
Fixpoint refused_from (errors : error_handler) (pos : nat) (s : str)
  : option (nat * nat) :=
  match s with
  | [] => None
  | c :: s' =>
      if is_surrogate c && negb (handles errors c)
      then Some (pos, pos + surrogate_run s)
      else refused_from errors (S pos) s'
  end.

Definition refused (errors : error_handler) (line : str) : option (nat * nat) :=
  refused_from errors 0 line.

(** Text that the handler lets through. *)
Definition writable (errors : error_handler) (s : str) : bool :=
  forallb (fun c => negb (is_surrogate c) || handles errors c) s.

(** [print(line, flush=True)]: the line is encoded as a whole before any of
    it is written, so a line that is refused leaves no output.  A stream
    that fails as such, a closed pipe for one, is not modelled. *)
Definition print (errors : error_handler) (line : str) : M unit :=
  fun st =>
    match refused errors line with
    | Some (start, stop) =>
        (Raised (UnicodeEncodeError (lit "utf-8") line start stop
                   (lit "surrogates not allowed")), st)
    | None => (Returned tt, emit (Stdout line) st)
    end.

Section Program.

Variable errors : error_handler.
Variable cfg : config.
Variable w : world.
Variable float_str : Q -> str.

(** [log], lines 8-10. *)
Definition log (msg : str) : M unit :=
  t <- now w;;
  print errors (lit "[" ++ timestamp t ++ lit "] " ++ msg).

(** [get_peer_ips], lines 19-44.  The [try] is [resolve_peers], which prints
    nothing; the handler prints. *)
Definition get_peer_ips : M (list str) :=
  match PEER_SERVICE_DNS cfg with
  | [] => ret [lit "<broadcast>"]
  | _ =>
      try_except (resolve_peers cfg w)
        (fun e =>
           log (lit "Error resolving peers from " ++ PEER_SERVICE_DNS cfg
                ++ lit ": " ++ exn_str e);;
           ret [])
  end.

(** Lines 63-69: one round of the receive loop. *)
Definition receiver_step (s : sock) : M unit :=
  try_except
    (p <- recvfrom w s 1024;;
     let '(data, addr) := p in
     msg <- lift (decode_utf8 data);;
     log (lit "Received from " ++ fst addr ++ lit ":" ++ str_of_Z (snd addr)
          ++ lit " -> " ++ msg))
    (fun e =>
       log (lit "Error receiving: " ++ exn_str e);;
       sleep 1).

(** [receiver], lines 46-69, with the first [rounds] rounds of its loop. *)
Definition receiver (rounds : nat) : M unit :=
  s <- socket w;;
  setsockopt w s SO_REUSEADDR 1;;
  setsockopt w s SO_BROADCAST 1;;
  bound <- try_except
             (bind_socket w s (lit "0.0.0.0", PORT cfg);; ret true)
             (fun e => log (lit "Error binding receiver: " ++ exn_str e);; ret false);;
  if bound : bool then
    log (lit "Listening for UDP messages on port " ++ str_of_Z (PORT cfg) ++ lit "...");;
    while_true rounds (receiver_step s)
  else ret tt.

(** Lines 89-93: the body of the loop over the peers. *)
Definition send_to (s : sock) (msg_content : str) (ip : str) : M unit :=
  try_except
    (data <- lift (encode_utf8 msg_content);;
     sendto w s data (ip, PORT cfg))
    (fun e => log (lit "Error sending to " ++ ip ++ lit ": " ++ exn_str e)).

(** Lines 79-95: one round of the send loop. *)
Definition sender_cycle (s : sock) : M unit :=
  peers <- get_peer_ips;;
  match peers with
  | [] => log (lit "No peers found.")
  | _ => ret tt
  end;;
  t <- now w;;
  let current_time := timestamp t in
  let msg_content := message cfg current_time in
  for_each peers (send_to s msg_content);;
  sleep (PERIOD cfg).

(** [sender], lines 71-95, with the first [rounds] rounds of its loop. *)
Definition sender (rounds : nat) : M unit :=
  s <- socket w;;
  setsockopt w s SO_BROADCAST 1;;
  log (lit "Starting sender: '" ++ MESSAGE_ID cfg ++ lit "' to port "
       ++ str_of_Z (PORT cfg) ++ lit " every " ++ float_str (PERIOD cfg) ++ lit "s");;
  while_true rounds (sender_cycle s).

(** Lines 97-103, the run in which the rounds of the receiver thread come
    first.  An exception that ends the receiver thread ends that thread
    only. *)
Definition main (receiver_rounds sender_rounds : nat) : M unit :=
  start_thread (receiver receiver_rounds);;
  sender sender_rounds.

End Program.

End Output.


(** ** Properties of the text functions *)

Section TextFacts.

Lemma digit_shift n k : digit (n / 1000) k = digit n (k + 3).
Proof.
  unfold digit. f_equal.
  rewrite N.Div0.div_div. f_equal.
  rewrite Nat2N.inj_add, N.pow_add_r. change (10 ^ N.of_nat 3)%N with 1000%N. lia.
Qed.

Lemma take3_zero_padded6 n : take 3 (zero_padded 6 n) = zero_padded 3 (n / 1000).
Proof.
  unfold zero_padded. cbn [seq rev app map take].
  rewrite !digit_shift. reflexivity.
Qed.

Lemma length_zero_padded width n : length (zero_padded width n) = width.
Proof. unfold zero_padded. by rewrite length_map, length_rev, length_seq. Qed.

(** The slice keeps hours, minutes, seconds and the first three of the six
    microsecond digits: the time truncated to milliseconds. *)
Lemma timestamp_hms_millis t : timestamp t = hms_millis t.
Proof.
  unfold timestamp, hms_millis, slice_to_minus, strftime_HMSf.
  rewrite !app_assoc.
  set (prefix := ((((zero_padded 2 (hour t) ++ lit ":") ++ zero_padded 2 (minute t))
                     ++ lit ":") ++ zero_padded 2 (second t)) ++ lit ".").
  assert (Hp : length prefix = 9%nat).
  { unfold prefix. rewrite !length_app, !length_zero_padded. reflexivity. }
  rewrite length_app, length_zero_padded, Hp.
  change (9 + 6 - 3)%nat with (9 + 3)%nat. rewrite <- Hp.
  rewrite take_app_add. by rewrite take3_zero_padded6.
Qed.

Lemma length_timestamp t : length (timestamp t) = 12%nat.
Proof.
  rewrite timestamp_hms_millis. unfold hms_millis.
  rewrite !length_app, !length_zero_padded. reflexivity.
Qed.

End TextFacts.

(** ** Properties of [time.sleep] *)

Section SleepFacts.

Lemma nanoseconds_nonneg secs : Qle_bool 0 secs = true -> (0 <= nanoseconds secs)%Q.
Proof.
  intros H. apply Qle_bool_iff in H. unfold nanoseconds.
  by apply Qmult_le_0_compat.
Qed.

Lemma Qle_bool_false x y : Qle_bool x y = false ↔ (y < x)%Q.
Proof.
  split.
  - intros H. apply Qnot_le_lt. intros Hle. apply Qle_bool_iff in Hle. congruence.
  - intros H. destruct (Qle_bool x y) eqn:E; [|done].
    apply Qle_bool_iff in E. by apply Qlt_not_le in H.
Qed.

(** A length from zero to [2^62] nanoseconds is slept. *)
Lemma sleepable_returns secs : sleepable secs = true -> sleep_outcome secs = Returned tt.
Proof.
  unfold sleepable, sleep_outcome, in_time_range, wraps_around.
  intros H. apply andb_prop in H as [H0 H1].
  pose proof (nanoseconds_nonneg secs H0) as Hns. apply Qle_bool_iff in H1.
  assert (Hlow : Qle_bool (inject_Z (- (2 ^ 63 + 1024))) (nanoseconds secs) = true).
  { apply Qle_bool_iff. by apply Qle_trans with 0%Q. }
  assert (Hhigh : Qle_bool (nanoseconds secs) (inject_Z (2 ^ 63 + 1024)) = true).
  { apply Qle_bool_iff. by apply Qle_trans with (inject_Z (2 ^ 62)). }
  assert (Hwrap : Qle_bool (inject_Z (2 ^ 63 - 512)) (nanoseconds secs) = false).
  { apply Qle_bool_false. by apply Qle_lt_trans with (inject_Z (2 ^ 62)). }
  by rewrite Hlow, Hhigh, H0, Hwrap.
Qed.

(** A negative length is refused: with a [ValueError] when it is within the
    64-bit range of nanoseconds, with an [OverflowError] when it is not. *)
Lemma sleep_outcome_negative secs :
  Qle_bool 0 secs = false ->
  sleep_outcome secs
  = if in_time_range (nanoseconds secs)
    then Raised (ValueError (lit "sleep length must be non-negative"))
    else Raised (PyError "OverflowError" (lit "timestamp too large to convert to C _PyTime_t")).
Proof.
  intros H. unfold sleep_outcome. rewrite H.
  by destruct (in_time_range (nanoseconds secs)).
Qed.

(** A length beyond the 64-bit range of nanoseconds is refused with an
    [OverflowError], whatever its sign. *)
Lemma sleep_outcome_out_of_range secs :
  in_time_range (nanoseconds secs) = false ->
  sleep_outcome secs
  = Raised (PyError "OverflowError" (lit "timestamp too large to convert to C _PyTime_t")).
Proof. intros H. unfold sleep_outcome. by rewrite H. Qed.

(** [time.sleep] never leaves a loop running: it returns or it raises. *)
Lemma sleep_outcome_ends secs : sleep_outcome secs ≠ Running.
Proof.
  unfold sleep_outcome.
  by destruct (in_time_range _), (Qle_bool 0 secs), (wraps_around _).
Qed.

Example sleep_two_seconds : sleep_outcome 2 = Returned tt.
Proof. reflexivity. Qed.

Example sleep_minus_one :
  sleep_outcome (-1) = Raised (ValueError (lit "sleep length must be non-negative")).
Proof. reflexivity. Qed.

Example sleep_ten_thousand_million :
  sleep_outcome 10000000000
  = Raised (PyError "OverflowError" (lit "timestamp too large to convert to C _PyTime_t")).
Proof. reflexivity. Qed.

Example sleep_minus_ten_thousand_million :
  sleep_outcome (-10000000000)
  = Raised (PyError "OverflowError" (lit "timestamp too large to convert to C _PyTime_t")).
Proof. reflexivity. Qed.

(** The floats next to [2^63] nanoseconds, as the rationals they are.  The
    one printed [9223372036.854776] is 574 nanoseconds over [2^63] and rounds
    to it; the next one is 2482 over. *)
Example sleep_rounding_to_the_range :
  sleep_outcome (4835703278458517 # 524288)
  = Raised (ValueError (lit "sleep length must be non-negative")).
Proof. reflexivity. Qed.

Example sleep_just_above_the_range :
  sleep_outcome (2417851639229259 # 262144)
  = Raised (PyError "OverflowError" (lit "timestamp too large to convert to C _PyTime_t")).
Proof. reflexivity. Qed.

Example sleep_negative_rounding_to_the_range :
  sleep_outcome (-4835703278458517 # 524288)
  = Raised (ValueError (lit "sleep length must be non-negative")).
Proof. reflexivity. Qed.

Example sleep_negative_below_the_range :
  sleep_outcome (-2417851639229259 # 262144)
  = Raised (PyError "OverflowError" (lit "timestamp too large to convert to C _PyTime_t")).
Proof. reflexivity. Qed.

End SleepFacts.

(** ** Properties of the resolver *)

(** The addresses a lookup result names. *)
Definition resolved_ips (results : list addrinfo) : gset str :=
  list_to_set (map (fun r => fst (ai_sockaddr r)) results).

(** The state after the three lookups of [resolve_peers]. *)
Definition after_lookups (cfg : config) (host : str) (st : state) : state :=
  call (Getaddrinfo (PEER_SERVICE_DNS cfg))
    (call (Gethostbyname host) (call Gethostname st)).

(** A line of [log]: the message behind the time of day in brackets. *)
Definition log_line (t : datetime) (msg : str) : str :=
  lit "[" ++ timestamp t ++ lit "] " ++ msg.

(** The state after [log msg]: one reading of the clock, one line. *)
Definition after_log (w : world) (msg : str) (st : state) : state :=
  emit (Stdout (log_line (clock w (clock_reads st)) msg)) (tick st).

Lemma foldl_add_peer (my_ip : str) (results : list addrinfo) (acc : gset str) :
  foldl (add_peer my_ip) acc results = acc ∪ (resolved_ips results ∖ {[ my_ip ]}).
Proof.
  unfold resolved_ips. revert acc.
  induction results as [|r results IH]; intros acc; simpl.
  - set_solver.
  - rewrite IH. unfold add_peer. case_decide; set_solver.
Qed.

Section ResolverFacts.

Variable cfg : config.
Variable w : world.

Lemma log_run msg st : log w msg st = (Returned tt, after_log w msg st).
Proof. reflexivity. Qed.

Lemma resolve_peers_run st (host my_ip : str) (results : list addrinfo) :
  gethostname_result w (net_calls st) = inr host ->
  gethostbyname_result w (S (net_calls st)) host = inr my_ip ->
  getaddrinfo_result w (S (S (net_calls st))) (PEER_SERVICE_DNS cfg) = inr results ->
  resolve_peers cfg w st
  = (Returned (elements (resolved_ips results ∖ {[ my_ip ]})), after_lookups cfg host st).
Proof.
  intros H1 H2 H3.
  unfold resolve_peers, bind, gethostname, gethostbyname, getaddrinfo, net_call, ret.
  cbn [net_calls clock_reads trace call]. rewrite H1, H2, H3.
  rewrite foldl_add_peer. unfold after_lookups.
  do 3 f_equal. set_solver.
Qed.

(** [resolve_peers] never ends as [Running], and when it raises, one of its
    three lookups did. *)
Lemma resolve_peers_not_running st st' : resolve_peers cfg w st ≠ (Running, st').
Proof.
  unfold resolve_peers, bind, gethostname, gethostbyname, getaddrinfo, net_call, ret.
  cbn [net_calls clock_reads trace call].
  repeat (match goal with |- context [match ?x with inl _ => _ | inr _ => _ end] =>
            destruct x end; try discriminate).
Qed.

Lemma get_peer_ips_returns st :
  ∃ peers st', get_peer_ips cfg w st = (Returned peers, st').
Proof.
  unfold get_peer_ips. destruct (PEER_SERVICE_DNS cfg) as [|c dns] eqn:Hdns.
  - eauto.
  - rewrite <- Hdns. unfold try_except.
    destruct (resolve_peers cfg w st) as [[peers|e|] st1] eqn:Hr.
    + eauto.
    + unfold bind. rewrite log_run. eauto.
    + by apply resolve_peers_not_running in Hr.
Qed.

End ResolverFacts.

(** ** The resolver: claims C1 and C3 *)

(** C1.  When a peer-group identifier is configured and the three lookups
    succeed, [get_peer_ips] returns the distinct resolved addresses without
    the node's own address, each once: as many as were resolved when the own
    address is not among them, one fewer when it is.  The own address is never
    in the result.  When every resolved address is the own address the result
    is empty, and still the function returns normally and prints nothing: the
    three lookups are all it does. *)
Theorem get_peer_ips_excludes_local
    (cfg : config) (w : world) (st : state)
    (host my_ip : str) (results : list addrinfo) :
  PEER_SERVICE_DNS cfg ≠ [] ->
  gethostname_result w (net_calls st) = inr host ->
  gethostbyname_result w (S (net_calls st)) host = inr my_ip ->
  getaddrinfo_result w (S (S (net_calls st))) (PEER_SERVICE_DNS cfg) = inr results ->
  ∃ peers : list str,
    get_peer_ips cfg w st = (Returned peers, after_lookups cfg host st)
    ∧ NoDup peers
    ∧ (∀ ip, ip ∈ peers ↔ ip ∈ resolved_ips results ∧ ip ≠ my_ip)
    ∧ length peers
      = (if decide (my_ip ∈ resolved_ips results)
         then size (resolved_ips results) - 1
         else size (resolved_ips results))
    ∧ (my_ip ∉ peers)
    ∧ ((∀ ip, ip ∈ resolved_ips results -> ip = my_ip) -> peers = []).
Proof.
  intros Hdns H1 H2 H3.
  exists (elements (resolved_ips results ∖ {[ my_ip ]})).
  split; [|split; [|split; [|split; [|split]]]].
  - unfold get_peer_ips. destruct (PEER_SERVICE_DNS cfg) as [|c dns] eqn:E; [done|].
    rewrite <- E in *. unfold try_except.
    by rewrite (resolve_peers_run cfg w st host my_ip results).
  - apply NoDup_elements.
  - intros ip. rewrite elem_of_elements, elem_of_difference, elem_of_singleton. tauto.
  - change (size (resolved_ips results ∖ {[ my_ip ]})
            = if decide (my_ip ∈ resolved_ips results)
              then size (resolved_ips results) - 1
              else size (resolved_ips results)).
    case_decide as Hin.
    + rewrite size_difference, size_singleton; [done|].
      by apply singleton_subseteq_l.
    + f_equal. apply set_eq. intros ip.
      rewrite elem_of_difference, elem_of_singleton.
      split; [tauto|]. intros Hip. split; [done|]. by intros ->.
  - rewrite elem_of_elements, elem_of_difference, elem_of_singleton. tauto.
  - intros Hall. apply elements_empty_iff. apply set_equiv. intros ip.
    rewrite elem_of_difference, elem_of_singleton, elem_of_empty.
    split; [|done]. intros [Hin Hne]. by apply Hne, Hall.
Qed.

(** C3.  With no peer-group identifier, [get_peer_ips] returns the list with
    the broadcast destination alone, in every world and without touching it:
    the state is unchanged, so no lookup was made and no answer of the
    network was read. *)
Theorem get_peer_ips_broadcast (cfg : config) :
  PEER_SERVICE_DNS cfg = [] ->
  ∀ (w : world) (st : state),
    get_peer_ips cfg w st = (Returned [lit "<broadcast>"], st).
Proof. intros Hdns w st. unfold get_peer_ips. by rewrite Hdns. Qed.

(** ** Properties of the sender *)

(** The UTF-8 bytes of a text. *)
Definition utf8 (s : str) : bytes := flat_map encode_char s.

Lemma is_scalar_below c : (c < 0xD800)%N -> is_scalar c = true.
Proof.
  intros H. unfold is_scalar, is_surrogate.
  apply andb_true_intro. split.
  - apply N.leb_le. lia.
  - apply negb_true_iff, andb_false_intro1, N.leb_gt. lia.
Qed.

Lemma valid_text_app s1 s2 : valid_text (s1 ++ s2) = valid_text s1 && valid_text s2.
Proof. apply forallb_app. Qed.

Lemma valid_text_zero_padded width n : valid_text (zero_padded width n) = true.
Proof.
  unfold valid_text, zero_padded. apply forallb_forall. intros c Hc.
  apply in_map_iff in Hc as (k & <- & _).
  apply is_scalar_below. unfold digit_char, digit.
  pose proof (N.mod_upper_bound (n / 10 ^ N.of_nat k) 10). lia.
Qed.

Lemma valid_text_timestamp t : valid_text (timestamp t) = true.
Proof.
  rewrite timestamp_hms_millis. unfold hms_millis.
  rewrite !valid_text_app, !valid_text_zero_padded. reflexivity.
Qed.

Lemma valid_text_message cfg t :
  valid_text (MESSAGE_ID cfg) = true ->
  valid_text (message cfg (timestamp t)) = true.
Proof.
  intros H. unfold message.
  rewrite !valid_text_app, H, valid_text_timestamp. reflexivity.
Qed.

Lemma encode_from_valid obj pos s :
  valid_text s = true -> encode_from obj pos s = inr (utf8 s).
Proof.
  revert pos. induction s as [|c s IH]; intros pos H; simpl in *; [done|].
  apply andb_prop in H as [Hc Hs].
  unfold is_scalar in Hc. apply andb_prop in Hc as [_ Hc].
  apply negb_true_iff in Hc. rewrite Hc, IH by done. reflexivity.
Qed.

(** Text without lone surrogates always encodes. *)
Lemma encode_utf8_valid s : valid_text s = true -> encode_utf8 s = inr (utf8 s).
Proof. apply encode_from_valid. Qed.

Section SenderFacts.

Variable cfg : config.
Variable w : world.

(** What the send loop may do for the peers [peers]: send [data] to one of
    them on the configured port, or print a line. *)
Definition delivers (s : sock) (data : bytes) (peers : list str) (ev : event) : Prop :=
  match ev with
  | Sendto s' d addr => s' = s ∧ d = data ∧ ∃ ip, ip ∈ peers ∧ addr = (ip, PORT cfg)
  | Stdout _ => True
  | _ => False
  end.

Definition error_sending (ip : str) (e : exn) : str :=
  lit "Error sending to " ++ ip ++ lit ": " ++ exn_str e.

Lemma send_to_run s msg data ip st :
  encode_utf8 msg = inr data ->
  send_to cfg w s msg ip st
  = (Returned tt,
     match sendto_result w (net_calls st) s data (ip, PORT cfg) with
     | None => call (Sendto s data (ip, PORT cfg)) st
     | Some e => after_log w (error_sending ip e) (call (Sendto s data (ip, PORT cfg)) st)
     end).
Proof.
  intros H. unfold send_to, try_except, bind, lift, sendto, net_call. rewrite H.
  cbn [ret]. destruct (sendto_result w (net_calls st) s data (ip, PORT cfg)); reflexivity.
Qed.

Lemma send_to_unencodable s msg e ip st :
  encode_utf8 msg = inl e ->
  send_to cfg w s msg ip st = (Returned tt, after_log w (error_sending ip e) st).
Proof.
  intros H. unfold send_to, try_except, bind, lift. rewrite H. reflexivity.
Qed.

Lemma delivers_mono s data peers ip ev :
  delivers s data peers ev -> delivers s data (ip :: peers) ev.
Proof.
  destruct ev; simpl; try done.
  intros (-> & -> & ip' & Hin & ->). repeat split. exists ip'. split; [by right|done].
Qed.

Lemma send_all_run s msg data (peers : list str) :
  encode_utf8 msg = inr data ->
  ∀ st, ∃ st' evs,
    for_each peers (send_to cfg w s msg) st = (Returned tt, st')
    ∧ net_calls st' = net_calls st + length peers
    ∧ clock_reads st ≤ clock_reads st'
    ∧ trace st' = trace st ++ evs
    ∧ Forall (delivers s data peers) evs
    ∧ ∀ ip, ip ∈ peers -> Sendto s data (ip, PORT cfg) ∈ evs.
Proof.
  intros Henc. induction peers as [|ip peers IH]; intros st.
  - exists st, []. simpl. rewrite app_nil_r.
    repeat split; try done; try lia. intros ip Hip. by apply elem_of_nil in Hip.
  - cbn [for_each]. unfold bind at 1. rewrite (send_to_run _ _ data) by done.
    set (st1 := match sendto_result w (net_calls st) s data (ip, PORT cfg) with
                | None => _ | Some e => _ end).
    destruct (IH st1) as (st' & evs & Hrun & Hnet & Hclk & Htr & Hall & Hin).
    assert (H1 : net_calls st1 = S (net_calls st)
                 ∧ clock_reads st ≤ clock_reads st1
                 ∧ ∃ errs, trace st1 = trace st ++ Sendto s data (ip, PORT cfg) :: errs
                           ∧ Forall (delivers s data (ip :: peers)) errs).
    { unfold st1. destruct (sendto_result w (net_calls st) s data (ip, PORT cfg)).
      - cbn. repeat split; [lia|]. eexists [_]. rewrite <- app_assoc. split; [done|].
        by repeat constructor.
      - cbn. repeat split; [lia|]. exists []. by split. }
    destruct H1 as (Hn1 & Hc1 & errs & Ht1 & He1).
    exists st', (Sendto s data (ip, PORT cfg) :: errs ++ evs).
    split; [done|]. split; [simpl; lia|]. split; [lia|].
    split; [rewrite Htr, Ht1, <- app_assoc; done|]. split.
    + constructor.
      * simpl. repeat split. exists ip. split; [by left|done].
      * apply Forall_app. split; [done|].
        eapply Forall_impl; [exact Hall|]. intros ev. apply delivers_mono.
    + intros ip' Hip'. apply elem_of_cons in Hip' as [->|Hip'].
      * by left.
      * right. apply elem_of_app. right. by apply Hin.
Qed.

Definition is_stdout (ev : event) : Prop :=
  match ev with
  | Stdout _ => True
  | _ => False
  end.

Lemma send_all_unencodable s msg e (peers : list str) :
  encode_utf8 msg = inl e ->
  ∀ st, ∃ st' evs,
    for_each peers (send_to cfg w s msg) st = (Returned tt, st')
    ∧ net_calls st' = net_calls st
    ∧ clock_reads st ≤ clock_reads st'
    ∧ trace st' = trace st ++ evs
    ∧ Forall is_stdout evs.
Proof.
  intros Henc. induction peers as [|ip peers IH]; intros st.
  - exists st, []. simpl. rewrite app_nil_r. repeat split; try done; lia.
  - cbn [for_each]. unfold bind at 1. rewrite (send_to_unencodable _ _ e) by done.
    destruct (IH (after_log w (error_sending ip e) st))
      as (st' & evs & Hrun & Hnet & Hclk & Htr & Hall).
    exists st', (Stdout (log_line (clock w (clock_reads st)) (error_sending ip e)) :: evs).
    split; [done|]. split; [done|].
    split; [cbn in Hclk; lia|]. split.
    + rewrite Htr. cbn. rewrite <- app_assoc. reflexivity.
    + by constructor.
Qed.

End SenderFacts.

Section CycleFacts.

Variable cfg : config.
Variable w : world.

(** What the resolver may do: look names up and print. *)
Definition lookup_or_print (ev : event) : Prop :=
  match ev with
  | Gethostname | Gethostbyname _ | Getaddrinfo _ | Stdout _ => True
  | _ => False
  end.

Lemma get_peer_ips_trace st :
  ∃ peers st' evs,
    get_peer_ips cfg w st = (Returned peers, st')
    ∧ clock_reads st ≤ clock_reads st'
    ∧ trace st' = trace st ++ evs
    ∧ Forall lookup_or_print evs.
Proof.
  unfold get_peer_ips. destruct (PEER_SERVICE_DNS cfg) as [|c dns] eqn:Hdns.
  - exists [lit "<broadcast>"], st, []. rewrite app_nil_r. by repeat split.
  - rewrite <- Hdns.
    unfold try_except, resolve_peers, bind, gethostname, gethostbyname,
      getaddrinfo, net_call, ret, log, now, print.
    cbn [net_calls clock_reads trace call tick emit].
    repeat (match goal with
            | |- context [match ?x with inl _ => _ | inr _ => _ end] => destruct x
            end);
      do 2 eexists; eexists ?[evs];
      (split; [reflexivity|]); cbn [net_calls clock_reads trace call tick emit];
      (split; [lia|]); rewrite <- ?app_assoc; cbn [app];
      (split; [reflexivity|]); by repeat constructor.
Qed.

(** Lines 85-95: the part of a round that follows the resolution. *)
Definition send_phase (s : sock) (peers : list str) : M unit :=
  t <- now w;;
  for_each peers (send_to cfg w s (message cfg (timestamp t)));;
  sleep (PERIOD cfg).

Lemma sender_cycle_split s st peers st1 :
  get_peer_ips cfg w st = (Returned peers, st1) ->
  sender_cycle cfg w s st
  = send_phase s peers
      (match peers with
       | [] => after_log w (lit "No peers found.") st1
       | _ => st1
       end).
Proof.
  intros H. unfold sender_cycle. unfold bind at 1. rewrite H.
  destruct peers; reflexivity.
Qed.

Lemma send_phase_run s peers st data :
  encode_utf8 (message cfg (timestamp (clock w (clock_reads st)))) = inr data ->
  ∃ st' evs,
    send_phase s peers st = (sleep_outcome (PERIOD cfg), emit (Sleep (PERIOD cfg)) st')
    ∧ for_each peers
        (send_to cfg w s (message cfg (timestamp (clock w (clock_reads st))))) (tick st)
      = (Returned tt, st')
    ∧ net_calls st' = net_calls st + length peers
    ∧ clock_reads st < clock_reads st'
    ∧ trace st' = trace st ++ evs
    ∧ Forall (delivers cfg s data peers) evs
    ∧ ∀ ip, ip ∈ peers -> Sendto s data (ip, PORT cfg) ∈ evs.
Proof.
  intros Henc.
  destruct (send_all_run cfg w s _ data peers Henc (tick st))
    as (st' & evs & Hrun & Hnet & Hclk & Htr & Hall & Hin).
  exists st', evs. split.
  - unfold send_phase, bind, now. rewrite Hrun. reflexivity.
  - cbn in Hclk, Hnet. split; [done|]. split; [done|]. split; [lia|]. done.
Qed.

Lemma send_phase_unencodable s peers st e :
  encode_utf8 (message cfg (timestamp (clock w (clock_reads st)))) = inl e ->
  ∃ st' evs,
    send_phase s peers st = (sleep_outcome (PERIOD cfg), emit (Sleep (PERIOD cfg)) st')
    ∧ net_calls st' = net_calls st
    ∧ clock_reads st < clock_reads st'
    ∧ trace st' = trace st ++ evs
    ∧ Forall is_stdout evs.
Proof.
  intros Henc.
  destruct (send_all_unencodable cfg w s _ e peers Henc (tick st))
    as (st' & evs & Hrun & Hnet & Hclk & Htr & Hall).
  exists st', evs. split.
  - unfold send_phase, bind, now. rewrite Hrun. reflexivity.
  - cbn in Hclk, Hnet. split; [done|]. split; [lia|]. done.
Qed.

End CycleFacts.

(** ** The sender: claims C5 and C9 *)

(** The presence message for the clock reading [t], as the wire format words
    it: [hola desde <identity> sent at <HH:MM:SS.mmm>]. *)
Definition presence_text (cfg : config) (t : datetime) : str :=
  lit "hola desde " ++ MESSAGE_ID cfg ++ lit " sent at " ++ hms_millis t.

Lemma message_presence_text cfg t : message cfg (timestamp t) = presence_text cfg t.
Proof. unfold message, presence_text. by rewrite timestamp_hms_millis. Qed.

Section DatagramFacts.

Variable cfg : config.
Variable w : world.

(** One round reads the clock once for the message, and whatever it sends is
    the encoding of the message for that reading. *)
Lemma sender_cycle_trace s st :
  ∃ r st' k new,
    sender_cycle cfg w s st = (r, st')
    ∧ clock_reads st ≤ k < clock_reads st'
    ∧ trace st' = trace st ++ new
    ∧ ∀ s' data addr, Sendto s' data addr ∈ new ->
        encode_utf8 (presence_text cfg (clock w k)) = inr data.
Proof.
  destruct (get_peer_ips_trace cfg w st) as (peers & st1 & evs1 & Hget & Hclk1 & Htr1 & Hall1).
  rewrite (sender_cycle_split cfg w s st peers st1 Hget).
  set (st2 := match peers with [] => after_log w (lit "No peers found.") st1 | _ => st1 end).
  assert (H2 : clock_reads st1 ≤ clock_reads st2
               ∧ ∃ evs2, trace st2 = trace st1 ++ evs2 ∧ Forall lookup_or_print evs2).
  { unfold st2. destruct peers.
    - cbn. split; [lia|]. eexists [_]. split; [reflexivity|]. by repeat constructor.
    - split; [lia|]. exists []. by rewrite app_nil_r. }
  destruct H2 as (Hclk2 & evs2 & Htr2 & Hall2).
  assert (Hpre : ∀ s' data addr, Sendto s' data addr ∈ evs1 ++ evs2 -> False).
  { intros s' data addr Hin. apply elem_of_app in Hin as [Hin|Hin].
    - rewrite Forall_forall in Hall1. by apply Hall1 in Hin.
    - rewrite Forall_forall in Hall2. by apply Hall2 in Hin. }
  exists (sleep_outcome (PERIOD cfg)).
  destruct (encode_utf8 (message cfg (timestamp (clock w (clock_reads st2)))))
    as [e|data] eqn:Henc.
  - destruct (send_phase_unencodable cfg w s peers st2 e Henc)
      as (st3 & evs3 & Hrun & _ & Hclk3 & Htr3 & Hall3).
    exists (emit (Sleep (PERIOD cfg)) st3), (clock_reads st2), ((evs1 ++ evs2) ++ evs3 ++ [Sleep (PERIOD cfg)]).
    split; [done|]. split; [cbn; lia|]. split.
    { cbn. rewrite Htr3, Htr2, Htr1, <- !app_assoc. reflexivity. }
    intros s' data addr Hin. apply elem_of_app in Hin as [Hin|Hin].
    { by apply Hpre in Hin. }
    apply elem_of_app in Hin as [Hin|Hin].
    + rewrite Forall_forall in Hall3. by apply Hall3 in Hin.
    + apply list_elem_of_singleton in Hin. discriminate.
  - destruct (send_phase_run cfg w s peers st2 data Henc)
      as (st3 & evs3 & Hrun & _ & _ & Hclk3 & Htr3 & Hall3 & _).
    exists (emit (Sleep (PERIOD cfg)) st3), (clock_reads st2), ((evs1 ++ evs2) ++ evs3 ++ [Sleep (PERIOD cfg)]).
    split; [done|]. split; [cbn; lia|]. split.
    { cbn. rewrite Htr3, Htr2, Htr1, <- !app_assoc. reflexivity. }
    intros s' data' addr Hin. apply elem_of_app in Hin as [Hin|Hin].
    { by apply Hpre in Hin. }
    apply elem_of_app in Hin as [Hin|Hin].
    + rewrite Forall_forall in Hall3. apply Hall3 in Hin. cbn in Hin.
      destruct Hin as (_ & -> & _). by rewrite <- message_presence_text.
    + apply list_elem_of_singleton in Hin. discriminate.
Qed.


End DatagramFacts.

Lemma for_each_app {A} (l1 l2 : list A) (body : A -> M unit) st :
  for_each (l1 ++ l2) body st = (for_each l1 body;; for_each l2 body) st.
Proof.
  revert st. induction l1 as [|x l1 IH]; intros st; [reflexivity|].
  cbn [app for_each]. unfold bind in *.
  destruct (body x st) as [[[]|e|] st1]; [|reflexivity..].
  apply IH.
Qed.

(** C5.  Take a round whose peers are [pre ++ a :: post], with an identity
    that is text (no lone surrogate), and let the transmission to [a] fail
    with [e].  The round then goes on as if nothing had happened: the failed
    call is followed by one line that names [a] and [str(e)], after it the
    same datagram is sent to every peer of [post], as it was before to every
    peer of [pre], and the round ends with its sleep. *)
Theorem send_failure_is_isolated
    (cfg : config) (w : world) (s : sock) (st st1 : state)
    (pre post : list str) (a : str) (e : exn) :
  valid_text (MESSAGE_ID cfg) = true ->
  get_peer_ips cfg w st = (Returned (pre ++ a :: post), st1) ->
  sendto_result w (net_calls st1 + length pre) s
    (utf8 (presence_text cfg (clock w (clock_reads st1)))) (a, PORT cfg) = Some e ->
  ∃ st' before after t,
    sender_cycle cfg w s st = (sleep_outcome (PERIOD cfg), st')
    ∧ trace st'
      = trace st1 ++ before
        ++ [Sendto s (utf8 (presence_text cfg (clock w (clock_reads st1)))) (a, PORT cfg);
            Stdout (log_line t (lit "Error sending to " ++ a ++ lit ": " ++ exn_str e))]
        ++ after ++ [Sleep (PERIOD cfg)]
    ∧ (∀ b, b ∈ pre ->
         Sendto s (utf8 (presence_text cfg (clock w (clock_reads st1)))) (b, PORT cfg) ∈ before)
    ∧ (∀ b, b ∈ post ->
         Sendto s (utf8 (presence_text cfg (clock w (clock_reads st1)))) (b, PORT cfg) ∈ after).
Proof.
  intros Hvalid Hget Hfail.
  set (data := utf8 (presence_text cfg (clock w (clock_reads st1)))) in *.
  assert (Henc : encode_utf8 (message cfg (timestamp (clock w (clock_reads st1)))) = inr data).
  { rewrite encode_utf8_valid by by apply valid_text_message.
    unfold data. by rewrite message_presence_text. }
  rewrite (sender_cycle_split cfg w s st _ st1 Hget).
  replace (match pre ++ a :: post with
           | [] => after_log w (lit "No peers found.") st1
           | _ => st1
           end) with st1 by by destruct pre.
  unfold send_phase. unfold bind at 1. unfold now at 1.
  unfold bind at 1. rewrite for_each_app. unfold bind at 1.
  destruct (send_all_run cfg w s _ data pre Henc (tick st1))
    as (st2 & before & Hrun2 & Hnet2 & _ & Htr2 & _ & Hin2).
  rewrite Hrun2. cbn [for_each]. unfold bind at 1.
  rewrite (send_to_run cfg w s _ data a st2 Henc).
  cbn in Hnet2. rewrite Hnet2, Hfail.
  set (st3 := after_log w (error_sending a e) (call (Sendto s data (a, PORT cfg)) st2)).
  destruct (send_all_run cfg w s _ data post Henc st3)
    as (st4 & after & Hrun4 & _ & _ & Htr4 & _ & Hin4).
  rewrite Hrun4.
  exists (emit (Sleep (PERIOD cfg)) st4), before, after, (clock w (clock_reads st2)).
  split; [reflexivity|]. split; [|by split].
  cbn. rewrite Htr4. unfold st3. cbn. rewrite Htr2. cbn.
  rewrite <- !app_assoc. reflexivity.
Qed.

(** The calls of [sendto] among some events: socket, datagram, destination. *)
Definition transmissions (evs : list event) : list (sock * bytes * endpoint) :=
  omap (fun ev => match ev with
                  | Sendto s data addr => Some (s, data, addr)
                  | _ => None
                  end) evs.

Lemma transmissions_app evs1 evs2 :
  transmissions (evs1 ++ evs2) = transmissions evs1 ++ transmissions evs2.
Proof. apply omap_app. Qed.

Lemma transmissions_lookup_or_print evs :
  Forall lookup_or_print evs -> transmissions evs = [].
Proof.
  induction 1 as [|ev evs Hev _ IH]; [done|].
  unfold transmissions in *. cbn. rewrite IH. by destruct ev.
Qed.

Lemma Stdout_inj line1 line2 : Stdout line1 = Stdout line2 -> line1 = line2.
Proof. by intros [=]. Qed.

Lemma log_line_inj t1 t2 msg1 msg2 : log_line t1 msg1 = log_line t2 msg2 -> msg1 = msg2.
Proof.
  unfold log_line. rewrite !app_assoc. intros H.
  apply app_inj_1 in H as [_ H]; [done|].
  rewrite !length_app, !length_timestamp. reflexivity.
Qed.

(** C9.  With no peer-group identifier the resolver returns the list with the
    broadcast destination alone, which is not empty, and the round is one
    run of the loop body for that destination between the reading of the
    clock and the sleep.  The round never prints [No peers found.], and with
    an identity that is text (no lone surrogate) it calls [sendto] exactly
    once, for the broadcast destination on the configured port. *)
Theorem broadcast_cycle_sends_once (cfg : config) :
  PEER_SERVICE_DNS cfg = [] ->
  ∀ (w : world) (s : sock) (st : state),
    get_peer_ips cfg w st = (Returned [lit "<broadcast>"], st)
    ∧ [lit "<broadcast>"] ≠ ([] : list str)
    ∧ sender_cycle cfg w s st
      = (t <- now w;;
         send_to cfg w s (message cfg (timestamp t)) (lit "<broadcast>");;
         sleep (PERIOD cfg)) st
    ∧ ∃ st' new,
        sender_cycle cfg w s st = (sleep_outcome (PERIOD cfg), st')
        ∧ trace st' = trace st ++ new
        ∧ (∀ t, Stdout (log_line t (lit "No peers found.")) ∉ new)
        ∧ (valid_text (MESSAGE_ID cfg) = true ->
           transmissions new
           = [(s, utf8 (presence_text cfg (clock w (clock_reads st))),
               (lit "<broadcast>", PORT cfg))]).
Proof.
  intros Hdns w s st.
  assert (Hget : get_peer_ips cfg w st = (Returned [lit "<broadcast>"], st)).
  { unfold get_peer_ips. by rewrite Hdns. }
  split; [done|]. split; [done|].
  rewrite (sender_cycle_split cfg w s st _ st Hget).
  split.
  { unfold send_phase, bind, now. cbn [for_each]. unfold bind, ret.
    by destruct (send_to cfg w s _ (lit "<broadcast>") (tick st)) as [[[]|e|] st1]. }
  unfold send_phase, bind, now. cbn [for_each]. unfold bind, ret.
  set (bcast := lit "<broadcast>").
  destruct (encode_utf8 (message cfg (timestamp (clock w (clock_reads st)))))
    as [e|data] eqn:Henc.
  - rewrite (send_to_unencodable cfg w s _ e) by done.
    exists (emit (Sleep (PERIOD cfg)) (after_log w (error_sending bcast e) (tick st))),
      [Stdout (log_line (clock w (clock_reads (tick st))) (error_sending bcast e));
       Sleep (PERIOD cfg)].
    split; [reflexivity|]. split.
    { unfold after_log, emit, tick. cbn [trace clock_reads net_calls].
      rewrite <- app_assoc. reflexivity. }
    split.
    + intros t Hin. apply elem_of_cons in Hin as [Hin|Hin].
      * apply Stdout_inj, log_line_inj in Hin. discriminate.
      * apply list_elem_of_singleton in Hin. discriminate.
    + intros Hvalid. rewrite encode_utf8_valid in Henc by by apply valid_text_message.
      discriminate.
  - rewrite (send_to_run cfg w s _ data) by done.
    assert (Hdata : valid_text (MESSAGE_ID cfg) = true ->
                    data = utf8 (presence_text cfg (clock w (clock_reads st)))).
    { intros Hvalid.
      pose proof (encode_utf8_valid _ (valid_text_message cfg (clock w (clock_reads st)) Hvalid)) as Hv.
      rewrite Henc, message_presence_text in Hv. congruence. }
    set (sent := call (Sendto s data (bcast, PORT cfg)) (tick st)).
    destruct (sendto_result w (net_calls (tick st)) s data (bcast, PORT cfg)) as [e|].
    + exists (emit (Sleep (PERIOD cfg)) (after_log w (error_sending bcast e) sent)),
        [Sendto s data (bcast, PORT cfg);
         Stdout (log_line (clock w (clock_reads sent)) (error_sending bcast e));
         Sleep (PERIOD cfg)].
      split; [reflexivity|]. split.
      { unfold sent, after_log, emit, tick, call. cbn [trace clock_reads net_calls].
        rewrite <- !app_assoc. reflexivity. }
      split.
      * intros t Hin. apply elem_of_cons in Hin as [Hin|Hin]; [discriminate|].
        apply elem_of_cons in Hin as [Hin|Hin].
        -- apply Stdout_inj, log_line_inj in Hin. discriminate.
        -- apply list_elem_of_singleton in Hin. discriminate.
      * intros Hvalid. rewrite <- Hdata by done. reflexivity.
    + exists (emit (Sleep (PERIOD cfg)) sent),
        [Sendto s data (bcast, PORT cfg); Sleep (PERIOD cfg)].
      split; [reflexivity|]. split.
      { unfold sent, emit, tick, call. cbn [trace clock_reads net_calls].
        rewrite <- !app_assoc. reflexivity. }
      split.
      * intros t Hin. apply elem_of_cons in Hin as [Hin|Hin]; [discriminate|].
        apply list_elem_of_singleton in Hin. discriminate.
      * intros Hvalid. rewrite <- Hdata by done. reflexivity.
Qed.

(** ** The receiver: claims C8 and C10 *)

Section ReceiverFacts.

Variable w : world.

Definition error_receiving (e : exn) : str := lit "Error receiving: " ++ exn_str e.

Definition received_from (addr : endpoint) (msg : str) : str :=
  lit "Received from " ++ fst addr ++ lit ":" ++ str_of_Z (snd addr) ++ lit " -> " ++ msg.

(** The state after the [except] branch of the receive loop, entered in
    [st]. *)
Definition after_receive_error (e : exn) (st : state) : state :=
  emit (Sleep 1) (after_log w (error_receiving e) st).

Lemma receive_handler_run e st :
  (log w (lit "Error receiving: " ++ exn_str e);; sleep 1) st
  = (Returned tt, after_receive_error e st).
Proof. reflexivity. Qed.

Lemma receiver_step_transport_error s st e :
  recvfrom_result w (net_calls st) s = inl e ->
  receiver_step w s st = (Returned tt, after_receive_error e (call (Recvfrom s 1024) st)).
Proof.
  intros H. unfold receiver_step, try_except. unfold bind at 1.
  unfold recvfrom, net_call. rewrite H. apply receive_handler_run.
Qed.

Lemma receiver_step_decode_error s st data addr e :
  recvfrom_result w (net_calls st) s = inr (data, addr) ->
  decode_utf8 (take 1024 data) = inl e ->
  receiver_step w s st = (Returned tt, after_receive_error e (call (Recvfrom s 1024) st)).
Proof.
  intros H Hd. unfold receiver_step, try_except. unfold bind at 1.
  unfold recvfrom, net_call. rewrite H. unfold bind at 1. rewrite Hd.
  apply receive_handler_run.
Qed.

Lemma receiver_step_message s st data addr msg :
  recvfrom_result w (net_calls st) s = inr (data, addr) ->
  decode_utf8 (take 1024 data) = inr msg ->
  receiver_step w s st
  = (Returned tt, after_log w (received_from addr msg) (call (Recvfrom s 1024) st)).
Proof.
  intros H Hd. unfold receiver_step, try_except. unfold bind at 1.
  unfold recvfrom, net_call. rewrite H. unfold bind at 1. rewrite Hd.
  reflexivity.
Qed.

(** A round of the receive loop always returns. *)
Lemma receiver_step_returns s st : ∃ st', receiver_step w s st = (Returned tt, st').
Proof.
  destruct (recvfrom_result w (net_calls st) s) as [e|[data addr]] eqn:H.
  - rewrite (receiver_step_transport_error s st e H). eauto.
  - destruct (decode_utf8 (take 1024 data)) as [e|msg] eqn:Hd.
    + rewrite (receiver_step_decode_error s st data addr e H Hd). eauto.
    + rewrite (receiver_step_message s st data addr msg H Hd). eauto.
Qed.

(** So the receive loop never ends by itself. *)
Lemma receiver_loop_runs s rounds :
  ∀ st, ∃ st', while_true rounds (receiver_step w s) st = (Running, st').
Proof.
  induction rounds as [|rounds IH]; intros st; [by eexists|].
  destruct (receiver_step_returns s st) as (st1 & H1).
  cbn [while_true]. unfold bind. rewrite H1. apply IH.
Qed.

End ReceiverFacts.

(** C8.  When the datagram received is not valid UTF-8, the round of the
    receive loop prints one line with the decoder's error, prints no
    [Received from] line for it, and returns without raising.  The loop goes
    on: when the next datagram decodes, the next round prints its source and
    its text, and the rounds after that follow as usual.  No round ever ends
    the loop. *)
Theorem malformed_datagram_is_dropped
    (cfg : config) (w : world) (s : sock) (st : state)
    (data : bytes) (addr : endpoint) (e : exn) :
  recvfrom_result w (net_calls st) s = inr (data, addr) ->
  decode_utf8 (take 1024 data) = inl e ->
  ∃ st1,
    receiver_step w s st = (Returned tt, st1)
    ∧ trace st1
      = trace st
        ++ [Recvfrom s 1024;
            Stdout (log_line (clock w (clock_reads st)) (lit "Error receiving: " ++ exn_str e));
            Sleep 1]
    ∧ (∀ data2 addr2 msg2,
         recvfrom_result w (net_calls st1) s = inr (data2, addr2) ->
         decode_utf8 (take 1024 data2) = inr msg2 ->
         ∃ st2,
           receiver_step w s st1 = (Returned tt, st2)
           ∧ trace st2
             = trace st1
               ++ [Recvfrom s 1024;
                   Stdout (log_line (clock w (clock_reads st1))
                             (lit "Received from " ++ fst addr2 ++ lit ":"
                              ++ str_of_Z (snd addr2) ++ lit " -> " ++ msg2))]
           ∧ ∀ rounds,
               while_true (S (S rounds)) (receiver_step w s) st
               = while_true rounds (receiver_step w s) st2)
    ∧ ∀ rounds, ∃ st', while_true rounds (receiver_step w s) st = (Running, st').
Proof.
  intros Hrecv Hdec.
  pose proof (receiver_step_decode_error w s st data addr e Hrecv Hdec) as Hrun.
  eexists. split; [exact Hrun|]. split.
  { unfold after_receive_error, after_log, emit, tick, call.
    cbn [trace clock_reads net_calls]. rewrite <- !app_assoc. reflexivity. }
  split.
  - intros data2 addr2 msg2 Hrecv2 Hdec2.
    pose proof (receiver_step_message w s _ data2 addr2 msg2 Hrecv2 Hdec2) as Hrun2.
    eexists. split; [exact Hrun2|]. split.
    { unfold after_receive_error, after_log, emit, tick, call.
      cbn [trace clock_reads net_calls]. rewrite <- !app_assoc. reflexivity. }
    intros rounds. cbn [while_true]. unfold bind at 1. rewrite Hrun.
    unfold bind at 1. rewrite Hrun2. reflexivity.
  - intros rounds. apply receiver_loop_runs.
Qed.

(** C10.  In the receive loop a datagram that does not decode ends the round
    exactly as a failed [recvfrom] does: in both cases the round is the call
    of [recvfrom] followed by the one [except] branch, which prints
    [Error receiving: ] with [str(e)] and then sleeps one second. *)
Theorem decode_failure_is_receive_failure
    (cfg : config) (w : world) (s : sock) (st : state) (e : exn) :
  (recvfrom_result w (net_calls st) s = inl e
   ∨ ∃ data addr, recvfrom_result w (net_calls st) s = inr (data, addr)
                  ∧ decode_utf8 (take 1024 data) = inl e) ->
  receiver_step w s st
  = (log w (lit "Error receiving: " ++ exn_str e);; sleep 1) (call (Recvfrom s 1024) st)
  ∧ ∃ st',
      receiver_step w s st = (Returned tt, st')
      ∧ trace st'
        = trace st
          ++ [Recvfrom s 1024;
              Stdout (log_line (clock w (clock_reads st)) (lit "Error receiving: " ++ exn_str e));
              Sleep 1].
Proof.
  intros H.
  assert (Hrun : receiver_step w s st
                 = (Returned tt, after_receive_error w e (call (Recvfrom s 1024) st))).
  { destruct H as [H|(data & addr & H & Hd)].
    - by apply receiver_step_transport_error.
    - by apply (receiver_step_decode_error w s st data addr). }
  split; [by rewrite Hrun|].
  eexists. split; [exact Hrun|].
  unfold after_receive_error, after_log, emit, tick, call.
  cbn [trace clock_reads net_calls]. rewrite <- !app_assoc. reflexivity.
Qed.

(** ** Concrete runs *)

Module Scenario.

Definition node_a : str := lit "10.0.0.1".
Definition node_b : str := lit "10.0.0.2".
Definition node_c : str := lit "10.0.0.3".

(** An entry of a lookup result for [ip]: [AF_INET], [SOCK_DGRAM], UDP. *)
Definition entry (ip : str) : addrinfo :=
  {| ai_family := 2; ai_type := 2; ai_proto := 17; ai_canonname := [];
     ai_sockaddr := (ip, 0%Z) |}.

Definition nine_o_five : datetime :=
  {| hour := 9; minute := 5; second := 59; microsecond := 123456 |}.

(** A node [node-a] at 10.0.0.1 whose peer group resolves to itself and two
    others, with repetitions.  Its port is taken, so [bind] fails; the fourth
    call into the [socket] module fails when it is a [sendto]; the first
    datagram that arrives is not UTF-8, the later ones are. *)
Definition cluster : world := {|
  clock := fun n =>
    {| hour := 9; minute := 5; second := 59;
       microsecond := 123456 + 1000 * N.of_nat n |};
  gethostname_result := fun _ => inr (lit "node-a");
  gethostbyname_result := fun _ _ => inr node_a;
  getaddrinfo_result := fun _ _ =>
    inr [entry node_a; entry node_b; entry node_a; entry node_c; entry node_b];
  socket_result := fun _ => None;
  setsockopt_result := fun _ _ _ => None;
  bind_result := fun _ _ _ => Some (OSError 98 (lit "Address already in use"));
  sendto_result := fun n _ _ _ =>
    if decide (n = 3) then Some (OSError 101 (lit "Network is unreachable")) else None;
  recvfrom_result := fun n _ =>
    if decide (n = 0) then inr ([xff], (node_b, 37020%Z))
    else inr (["h"; "i"]%byte, (node_c, 37020%Z))
|}.

(** The same node when the resolver is down. *)
Definition resolver_down : world := {|
  clock := clock cluster;
  gethostname_result := gethostname_result cluster;
  gethostbyname_result := gethostbyname_result cluster;
  getaddrinfo_result := fun _ _ => inl (gaierror (-2) (lit "Name or service not known"));
  socket_result := socket_result cluster;
  setsockopt_result := setsockopt_result cluster;
  bind_result := bind_result cluster;
  sendto_result := sendto_result cluster;
  recvfrom_result := recvfrom_result cluster
|}.

(** The same node when it is the only member of its peer group. *)
Definition alone : world := {|
  clock := clock cluster;
  gethostname_result := gethostname_result cluster;
  gethostbyname_result := gethostbyname_result cluster;
  getaddrinfo_result := fun _ _ => inr [entry node_a; entry node_a];
  socket_result := socket_result cluster;
  setsockopt_result := setsockopt_result cluster;
  bind_result := bind_result cluster;
  sendto_result := sendto_result cluster;
  recvfrom_result := recvfrom_result cluster
|}.

Definition with_peers : config :=
  {| MESSAGE_ID := lit "python-node"; PERIOD := 2; PORT := 37020;
     PEER_SERVICE_DNS := lit "peers.svc" |}.

(** The defaults of lines 14-17. *)
Definition defaults : config :=
  {| MESSAGE_ID := lit "python-node"; PERIOD := 2; PORT := 37020;
     PEER_SERVICE_DNS := [] |}.

Example timestamp_nine_o_five : timestamp nine_o_five = lit "09:05:59.123".
Proof. reflexivity. Qed.

Example log_line_nine_o_five :
  log_line nine_o_five (lit "No peers found.") = lit "[09:05:59.123] No peers found.".
Proof. reflexivity. Qed.

Example presence_text_nine_o_five :
  presence_text defaults nine_o_five = lit "hola desde python-node sent at 09:05:59.123".
Proof. reflexivity. Qed.

Example decode_error_text :
  (match decode_utf8 [xff] with inl e => exn_str e | inr _ => [] end)
  = lit "'utf-8' codec can't decode byte 0xff in position 0: invalid start byte".
Proof. reflexivity. Qed.

Example encode_error_text :
  (match encode_utf8 (lit "id-" ++ [0xDCFF%N]) with inl e => exn_str e | inr _ => [] end)
  = lit "'utf-8' codec can't encode character '\udcff' in position 3: surrogates not allowed".
Proof. reflexivity. Qed.

Example decode_encode_text :
  (match encode_utf8 [0x68; 0xF1; 0x20AC; 0x1F600]%N with
   | inr data => decode_utf8 data
   | inl e => inl e
   end) = inr [0x68; 0xF1; 0x20AC; 0x1F600]%N.
Proof. reflexivity. Qed.

Example cluster_peers :
  get_peer_ips with_peers cluster initial
  = (Returned [node_c; node_b], after_lookups with_peers (lit "node-a") initial).
Proof. vm_compute. reflexivity. Qed.

End Scenario.

Import Scenario.

Lemma get_peer_ips_excludes_local_witness :
  ∃ peers : list str,
    get_peer_ips with_peers cluster initial
    = (Returned peers, after_lookups with_peers (lit "node-a") initial)
    ∧ length peers = 2 ∧ (node_a ∉ peers).
Proof.
  destruct (get_peer_ips_excludes_local with_peers cluster initial
              (lit "node-a") node_a
              [entry node_a; entry node_b; entry node_a; entry node_c; entry node_b])
    as (peers & Hrun & _ & _ & Hlen & Hnot & _).
  - discriminate.
  - reflexivity.
  - reflexivity.
  - reflexivity.
  - exists peers. split; [exact Hrun|]. split; [|exact Hnot].
    rewrite Hlen. vm_compute. reflexivity.
Defined.

Lemma get_peer_ips_broadcast_witness :
  PEER_SERVICE_DNS defaults = []
  ∧ get_peer_ips defaults resolver_down initial = (Returned [lit "<broadcast>"], initial).
Proof.
  split; [reflexivity|].
  apply (get_peer_ips_broadcast defaults). reflexivity.
Defined.

Lemma send_failure_is_isolated_witness :
  ∃ st' before after t,
    sender_cycle with_peers cluster 0 initial = (Returned tt, st')
    ∧ trace st'
      = [Gethostname; Gethostbyname (lit "node-a"); Getaddrinfo (lit "peers.svc")]
        ++ before
        ++ [Sendto 0 (utf8 (lit "hola desde python-node sent at 09:05:59.123")) (node_c, 37020%Z);
            Stdout (log_line t (lit "Error sending to 10.0.0.3: [Errno 101] Network is unreachable"))]
        ++ after ++ [Sleep 2]
    ∧ (∀ b, b ∈ ([] : list str) ->
         Sendto 0 (utf8 (lit "hola desde python-node sent at 09:05:59.123")) (b, 37020%Z) ∈ before)
    ∧ (∀ b, b ∈ [node_b] ->
         Sendto 0 (utf8 (lit "hola desde python-node sent at 09:05:59.123")) (b, 37020%Z) ∈ after).
Proof.
  apply (send_failure_is_isolated with_peers cluster 0 initial
           (after_lookups with_peers (lit "node-a") initial)
           [] [node_b] node_c (OSError 101 (lit "Network is unreachable"))).
  - reflexivity.
  - exact cluster_peers.
  - reflexivity.
Defined.

Lemma malformed_datagram_is_dropped_witness :
  ∃ st1 st2,
    receiver_step cluster 0 initial = (Returned tt, st1)
    ∧ receiver_step cluster 0 st1 = (Returned tt, st2)
    ∧ trace st2
      = [Recvfrom 0 1024;
         Stdout (lit "[09:05:59.123] Error receiving: 'utf-8' codec can't decode byte 0xff in position 0: invalid start byte");
         Sleep 1;
         Recvfrom 0 1024;
         Stdout (lit "[09:05:59.124] Received from 10.0.0.3:37020 -> hi")].
Proof.
  destruct (malformed_datagram_is_dropped with_peers cluster 0 initial
              [xff] (node_b, 37020%Z)
              (UnicodeDecodeError (lit "utf-8") [xff] 0 1 (lit "invalid start byte")))
    as (st1 & Hrun1 & Htrace1 & Hnext & _).
  - reflexivity.
  - reflexivity.
  - assert (Hst1 : net_calls st1 = 1 ∧ clock_reads st1 = 1).
    { pose proof Hrun1 as H. vm_compute in H. injection H as <-. by split. }
    destruct Hst1 as [Hnet Hclk].
    destruct (Hnext ["h"; "i"]%byte (node_c, 37020%Z) (lit "hi"))
      as (st2 & Hrun2 & Htrace2 & _).
    + rewrite Hnet. reflexivity.
    + reflexivity.
    + exists st1, st2. split; [exact Hrun1|]. split; [exact Hrun2|].
      rewrite Htrace2, Htrace1, Hclk. reflexivity.
Defined.

Lemma broadcast_cycle_sends_once_witness :
  ∃ st' new,
    sender_cycle defaults cluster 0 initial = (Returned tt, st')
    ∧ trace st' = [] ++ new
    ∧ (∀ t, Stdout (log_line t (lit "No peers found.")) ∉ new)
    ∧ (valid_text (lit "python-node") = true ->
       transmissions new
       = [(0, utf8 (lit "hola desde python-node sent at 09:05:59.123"),
           (lit "<broadcast>", 37020%Z))]).
Proof.
  apply (broadcast_cycle_sends_once defaults eq_refl cluster 0 initial).
Defined.

Lemma decode_failure_is_receive_failure_witness :
  ∃ st',
    receiver_step cluster 0 initial = (Returned tt, st')
    ∧ trace st'
      = [Recvfrom 0 1024;
         Stdout (lit "[09:05:59.123] Error receiving: 'utf-8' codec can't decode byte 0xff in position 0: invalid start byte");
         Sleep 1].
Proof.
  apply (decode_failure_is_receive_failure with_peers cluster 0 initial
           (UnicodeDecodeError (lit "utf-8") [xff] 0 1 (lit "invalid start byte"))).
  right. exists [xff], (node_b, 37020%Z). split; reflexivity.
Defined.

(** * Further properties of the program *)

(** ** What a piece of code may do *)

(** [emits P m]: whatever the state [m] starts in and however it ends, all it
    adds to the trace are events that satisfy [P]. *)
Definition emits {A} (P : event -> Prop) (m : M A) : Prop :=
  ∀ st, ∃ evs, trace (snd (m st)) = trace st ++ evs ∧ Forall P evs.

Section Emits.

Context {A B : Type} (P : event -> Prop).

Lemma emits_ret (a : A) : emits P (ret a).
Proof. intros st. exists []. by rewrite app_nil_r. Qed.

Lemma emits_lift (r : exn + A) : emits P (lift r).
Proof. intros st. exists []. rewrite app_nil_r. by destruct r. Qed.

Lemma emits_bind (m : M A) (k : A -> M B) :
  emits P m -> (∀ a, emits P (k a)) -> emits P (bind m k).
Proof.
  intros Hm Hk st. unfold bind.
  destruct (Hm st) as (evs1 & Ht1 & Hall1).
  destruct (m st) as [[a|e|] st1]; cbn [snd] in *; [|by exists evs1..].
  destruct (Hk a st1) as (evs2 & Ht2 & Hall2).
  exists (evs1 ++ evs2). split.
  - by rewrite Ht2, Ht1, app_assoc.
  - by apply Forall_app.
Qed.

Lemma emits_try_except (body : M A) (handler : exn -> M A) :
  emits P body -> (∀ e, emits P (handler e)) -> emits P (try_except body handler).
Proof.
  intros Hm Hk st. unfold try_except.
  destruct (Hm st) as (evs1 & Ht1 & Hall1).
  destruct (body st) as [[a|e|] st1]; cbn [snd] in *; [by exists evs1| |by exists evs1].
  destruct (Hk e st1) as (evs2 & Ht2 & Hall2).
  exists (evs1 ++ evs2). split.
  - by rewrite Ht2, Ht1, app_assoc.
  - by apply Forall_app.
Qed.

Lemma emits_print line : P (Stdout line) -> emits P (print line).
Proof. intros H st. exists [Stdout line]. split; [done|]. by constructor. Qed.

Lemma emits_sleep secs : P (Sleep secs) -> emits P (sleep secs).
Proof. intros H st. exists [Sleep secs]. split; [done|]. by constructor. Qed.

Lemma emits_now w : emits P (now w).
Proof. intros st. exists []. by rewrite app_nil_r. Qed.

Lemma emits_net_call ev (answer : nat -> exn + A) :
  P ev -> emits P (net_call ev answer).
Proof. intros H st. exists [ev]. split; [done|]. by constructor. Qed.

End Emits.

Lemma emits_for_each {A} (P : event -> Prop) (l : list A) (body : A -> M unit) :
  (∀ x, emits P (body x)) -> emits P (for_each l body).
Proof.
  intros H. induction l as [|x l IH]; cbn [for_each].
  - apply emits_ret.
  - apply emits_bind; [apply H|]. intros _. apply IH.
Qed.

Lemma emits_while_true (P : event -> Prop) (rounds : nat) (body : M unit) :
  emits P body -> emits P (while_true rounds body).
Proof.
  intros H. induction rounds as [|rounds IH]; cbn [while_true].
  - intros st. exists []. by rewrite app_nil_r.
  - apply emits_bind; [apply H|]. intros _. apply IH.
Qed.

Lemma emits_log (P : event -> Prop) w msg :
  (∀ k, P (Stdout (log_line (clock w k) msg))) -> emits P (log w msg).
Proof.
  intros H st. exists [Stdout (log_line (clock w (clock_reads st)) msg)].
  split; [done|]. by constructor.
Qed.

Lemma emits_start_thread (P : event -> Prop) (target : M unit) :
  emits P target -> emits P (start_thread target).
Proof. intros H st. apply H. Qed.

Lemma emits_impl {A} (P Q : event -> Prop) (m : M A) :
  (∀ ev, P ev -> Q ev) -> emits P m -> emits Q m.
Proof.
  intros HPQ H st. destruct (H st) as (evs & Ht & Hall).
  exists evs. split; [done|]. by eapply Forall_impl.
Qed.

(** ** What each function may do *)

Section Profiles.

Variable cfg : config.
Variable w : world.
Variable P : event -> Prop.

(** Every line of [log] is allowed. *)
Hypothesis P_log : ∀ k msg, P (Stdout (log_line (clock w k) msg)).

Lemma emits_get_peer_ips :
  P Gethostname ->
  (∀ host, P (Gethostbyname host)) ->
  P (Getaddrinfo (PEER_SERVICE_DNS cfg)) ->
  emits P (get_peer_ips cfg w).
Proof.
  intros H1 H2 H3. unfold get_peer_ips.
  destruct (PEER_SERVICE_DNS cfg) as [|c dns] eqn:E; [apply emits_ret|].
  rewrite <- E in *. apply emits_try_except.
  - unfold resolve_peers.
    apply emits_bind; [by apply emits_net_call|]. intros host.
    apply emits_bind; [by apply emits_net_call|]. intros my_ip.
    apply emits_bind; [by apply emits_net_call|]. intros results.
    apply emits_ret.
  - intros e. apply emits_bind; [by apply emits_log|]. intros _. apply emits_ret.
Qed.

Lemma emits_send_to s msg ip :
  (∀ data, P (Sendto s data (ip, PORT cfg))) ->
  emits P (send_to cfg w s msg ip).
Proof.
  intros H. unfold send_to. apply emits_try_except.
  - apply emits_bind; [apply emits_lift|]. intros data. by apply emits_net_call.
  - intros e. by apply emits_log.
Qed.

Lemma emits_sender_cycle s :
  P Gethostname ->
  (∀ host, P (Gethostbyname host)) ->
  P (Getaddrinfo (PEER_SERVICE_DNS cfg)) ->
  (∀ data ip, P (Sendto s data (ip, PORT cfg))) ->
  P (Sleep (PERIOD cfg)) ->
  emits P (sender_cycle cfg w s).
Proof.
  intros H1 H2 H3 H4 H5. unfold sender_cycle.
  apply emits_bind; [by apply emits_get_peer_ips|]. intros peers.
  apply emits_bind.
  { destruct peers; [by apply emits_log|apply emits_ret]. }
  intros _. apply emits_bind; [apply emits_now|]. intros t.
  apply emits_bind; [|intros _; by apply emits_sleep].
  apply emits_for_each. intros ip. by apply emits_send_to.
Qed.

Lemma emits_receiver_step s :
  P (Recvfrom s 1024) -> P (Sleep 1) -> emits P (receiver_step w s).
Proof.
  intros H1 H2. unfold receiver_step. apply emits_try_except.
  - apply emits_bind; [by apply emits_net_call|]. intros [data addr].
    apply emits_bind; [apply emits_lift|]. intros msg. by apply emits_log.
  - intros e. apply emits_bind; [by apply emits_log|]. intros _. by apply emits_sleep.
Qed.

Lemma emits_sender float_str rounds :
  P Socket ->
  (∀ s, P (Setsockopt s SO_BROADCAST 1)) ->
  P Gethostname ->
  (∀ host, P (Gethostbyname host)) ->
  P (Getaddrinfo (PEER_SERVICE_DNS cfg)) ->
  (∀ s data ip, P (Sendto s data (ip, PORT cfg))) ->
  P (Sleep (PERIOD cfg)) ->
  emits P (sender cfg w float_str rounds).
Proof.
  intros H0 H0' H1 H2 H3 H4 H5. unfold sender.
  apply emits_bind; [by apply emits_net_call|]. intros s.
  apply emits_bind; [by apply emits_net_call|]. intros _.
  apply emits_bind; [by apply emits_log|]. intros _.
  apply emits_while_true. by apply emits_sender_cycle.
Qed.

Lemma emits_receiver rounds :
  P Socket ->
  (∀ s opt, P (Setsockopt s opt 1)) ->
  (∀ s, P (Bind s (lit "0.0.0.0", PORT cfg))) ->
  (∀ s, P (Recvfrom s 1024)) ->
  P (Sleep 1) ->
  emits P (receiver cfg w rounds).
Proof.
  intros H1 H2 H3 H4 H5. unfold receiver.
  apply emits_bind; [by apply emits_net_call|]. intros s.
  apply emits_bind; [by apply emits_net_call|]. intros _.
  apply emits_bind; [by apply emits_net_call|]. intros _.
  apply emits_bind.
  { apply emits_try_except.
    - apply emits_bind; [by apply emits_net_call|]. intros _. apply emits_ret.
    - intros e. apply emits_bind; [by apply emits_log|]. intros _. apply emits_ret. }
  intros [|]; [|apply emits_ret].
  apply emits_bind; [by apply emits_log|]. intros _.
  apply emits_while_true. by apply emits_receiver_step.
Qed.

End Profiles.

(** ** What the functions do and never do *)

(** A line printed by [log] for a reading of the clock of [w]. *)
Definition is_log_line (w : world) (line : str) : Prop :=
  ∃ k msg, line = log_line (clock w k) msg.

(** All [get_peer_ips] may do. *)
Definition resolver_event (cfg : config) (w : world) (ev : event) : Prop :=
  match ev with
  | Gethostname | Gethostbyname _ => True
  | Getaddrinfo host => host = PEER_SERVICE_DNS cfg
  | Stdout line => is_log_line w line
  | _ => False
  end.

(** All [sender] may do with its socket [s]. *)
Definition sender_event (cfg : config) (w : world) (s : sock) (ev : event) : Prop :=
  match ev with
  | Socket => True
  | Setsockopt s' opt value => s' = s ∧ opt = SO_BROADCAST ∧ value = 1%Z
  | Sendto s' _ addr => s' = s ∧ snd addr = PORT cfg
  | Sleep secs => secs = PERIOD cfg
  | Bind _ _ | Recvfrom _ _ => False
  | _ => resolver_event cfg w ev
  end.

(** All [receiver] may do with its socket [s]. *)
Definition receiver_event (cfg : config) (w : world) (s : sock) (ev : event) : Prop :=
  match ev with
  | Socket => True
  | Setsockopt s' _ value => s' = s ∧ value = 1%Z
  | Bind s' addr => s' = s ∧ addr = (lit "0.0.0.0", PORT cfg)
  | Recvfrom s' bufsize => s' = s ∧ bufsize = 1024
  | Stdout line => is_log_line w line
  | Sleep secs => secs = 1%Q
  | _ => False
  end.

(** After [socket()], what follows works on the socket just made. *)
Lemma socket_then {B} (P : sock -> event -> Prop) (w : world) (k : sock -> M B) :
  (∀ s, P s Socket) ->
  (∀ s, emits (P s) (k s)) ->
  ∀ st, ∃ evs,
    trace (snd ((s <- socket w;; k s) st)) = trace st ++ evs
    ∧ Forall (P (net_calls st)) evs.
Proof.
  intros H0 Hk st. unfold bind, socket, net_call.
  destruct (socket_result w (net_calls st)) as [e|].
  - exists [Socket]. split; [done|]. by constructor.
  - destruct (Hk (net_calls st) (call Socket st)) as (evs & Ht & Hall).
    exists (Socket :: evs). split.
    + rewrite Ht. cbn. by rewrite <- app_assoc.
    + by constructor.
Qed.

(** The events of a run of [sender] from [st], and of a run of [receiver]. *)
Lemma sender_events cfg w float_str rounds st :
  ∃ evs,
    trace (snd (sender cfg w float_str rounds st)) = trace st ++ evs
    ∧ Forall (sender_event cfg w (net_calls st)) evs.
Proof.
  unfold sender. apply (socket_then (sender_event cfg w)); [done|].
  intros s.
  assert (Hlog : ∀ k msg, sender_event cfg w s (Stdout (log_line (clock w k) msg))).
  { intros k msg. by exists k, msg. }
  apply emits_bind; [by apply emits_net_call|]. intros _.
  apply emits_bind; [by apply emits_log|]. intros _.
  apply emits_while_true. by apply emits_sender_cycle.
Qed.

Lemma receiver_events cfg w rounds st :
  ∃ evs,
    trace (snd (receiver cfg w rounds st)) = trace st ++ evs
    ∧ Forall (receiver_event cfg w (net_calls st)) evs.
Proof.
  unfold receiver. apply (socket_then (receiver_event cfg w)); [done|].
  intros s.
  assert (Hlog : ∀ k msg, receiver_event cfg w s (Stdout (log_line (clock w k) msg))).
  { intros k msg. by exists k, msg. }
  apply emits_bind; [by apply emits_net_call|]. intros _.
  apply emits_bind; [by apply emits_net_call|]. intros _.
  apply emits_bind.
  { apply emits_try_except.
    - apply emits_bind; [by apply emits_net_call|]. intros _. apply emits_ret.
    - intros e. apply emits_bind; [by apply emits_log|]. intros _. apply emits_ret. }
  intros [|]; [|apply emits_ret].
  apply emits_bind; [by apply emits_log|]. intros _.
  apply emits_while_true. by apply emits_receiver_step.
Qed.

(** X2.  Whatever the network answers, [get_peer_ips] only calls
    [gethostname], [gethostbyname] and [getaddrinfo], the last one for the
    configured identifier alone, and prints only lines of [log]: it never
    creates or uses a socket and never sleeps. *)
Theorem get_peer_ips_only_looks_up (cfg : config) (w : world) (st : state) :
  ∃ evs,
    trace (snd (get_peer_ips cfg w st)) = trace st ++ evs
    ∧ Forall (resolver_event cfg w) evs.
Proof.
  apply (emits_get_peer_ips cfg w (resolver_event cfg w)); try done.
  intros k msg. by exists k, msg.
Qed.

(** X3.  Whatever the network answers and however many rounds it runs,
    [sender] uses no socket but the one it creates, sets no option on it but
    [SO_BROADCAST], sends every datagram to the configured port, sleeps for
    the configured period only, looks up the configured identifier only, and
    prints only lines of [log].  It never binds and never receives. *)
Theorem sender_only_sends
    (cfg : config) (w : world) (float_str : Q -> str) (rounds : nat) (st : state) :
  ∃ evs,
    trace (snd (sender cfg w float_str rounds st)) = trace st ++ evs
    ∧ Forall (sender_event cfg w (net_calls st)) evs.
Proof. apply sender_events. Qed.

(** X4.  Whatever the network answers and however many rounds it runs,
    [receiver] uses no socket but the one it creates, binds it to the
    wildcard address on the configured port only, receives at most 1024
    bytes at a time, sleeps for one second only, and prints only lines of
    [log].  It never sends and never looks a name up. *)
Theorem receiver_only_receives
    (cfg : config) (w : world) (rounds : nat) (st : state) :
  ∃ evs,
    trace (snd (receiver cfg w rounds st)) = trace st ++ evs
    ∧ Forall (receiver_event cfg w (net_calls st)) evs.
Proof. apply receiver_events. Qed.

(** X5.  Every text the program hands to [print], in the receiver thread or
    in the sender, is one that [log] built: [[HH:MM:SS.mmm] ] for a reading
    of the clock, then the message.  This is said of the calls of [print],
    not of the lines of the output: the message is put in as it is, and a
    received payload that holds a line break goes on in a line of its own,
    without the time. *)
Theorem main_prints_timestamped_lines
    (cfg : config) (w : world) (float_str : Q -> str)
    (receiver_rounds sender_rounds : nat) (st : state) :
  ∃ evs,
    trace (snd (main cfg w float_str receiver_rounds sender_rounds st)) = trace st ++ evs
    ∧ ∀ line, Stdout line ∈ evs ->
        ∃ k msg, line = lit "[" ++ hms_millis (clock w k) ++ lit "] " ++ msg.
Proof.
  set (P := fun ev => match ev with Stdout line => is_log_line w line | _ => True end).
  assert (Hlog : ∀ k msg, P (Stdout (log_line (clock w k) msg))).
  { intros k msg. by exists k, msg. }
  assert (H : emits P (main cfg w float_str receiver_rounds sender_rounds)).
  { unfold main. apply emits_bind.
    - apply emits_start_thread. by apply emits_receiver.
    - intros _. by apply emits_sender. }
  destruct (H st) as (evs & Ht & Hall). exists evs. split; [done|].
  intros line Hin. rewrite Forall_forall in Hall. apply Hall in Hin.
  destruct Hin as (k & msg & ->). exists k, msg.
  unfold log_line. by rewrite timestamp_hms_millis.
Qed.

(** ** The loops in the long run *)

(** The lengths of the sleeps among some events. *)
Definition sleeps (evs : list event) : list Q :=
  omap (fun ev => match ev with Sleep secs => Some secs | _ => None end) evs.

(** The calls of [recvfrom] among some events: socket and buffer size. *)
Definition receptions (evs : list event) : list (sock * nat) :=
  omap (fun ev => match ev with Recvfrom s n => Some (s, n) | _ => None end) evs.

Lemma sleeps_app evs1 evs2 : sleeps (evs1 ++ evs2) = sleeps evs1 ++ sleeps evs2.
Proof. apply omap_app. Qed.

Lemma receptions_app evs1 evs2 :
  receptions (evs1 ++ evs2) = receptions evs1 ++ receptions evs2.
Proof. apply omap_app. Qed.

Lemma sleeps_none (P : event -> Prop) evs :
  (∀ secs, ¬ P (Sleep secs)) -> Forall P evs -> sleeps evs = [].
Proof.
  intros HP. induction 1 as [|ev evs Hev _ IH]; [done|].
  unfold sleeps in *. cbn. rewrite IH. destruct ev; try done. by apply HP in Hev.
Qed.

Section LongRun.

Variable cfg : config.
Variable w : world.

(** A round of the send loop sleeps once, at its very end, and ends as that
    sleep ends. *)
Lemma sender_cycle_ends_with_sleep s st :
  ∃ st' evs,
    sender_cycle cfg w s st = (sleep_outcome (PERIOD cfg), st')
    ∧ trace st' = trace st ++ evs ++ [Sleep (PERIOD cfg)]
    ∧ sleeps evs = [].
Proof.
  destruct (get_peer_ips_trace cfg w st) as (peers & st1 & evs1 & Hget & _ & Htr1 & Hall1).
  rewrite (sender_cycle_split cfg w s st peers st1 Hget).
  set (st2 := match peers with [] => after_log w (lit "No peers found.") st1 | _ => st1 end).
  assert (H2 : ∃ evs2, trace st2 = trace st1 ++ evs2 ∧ Forall lookup_or_print evs2).
  { unfold st2. destruct peers.
    - eexists [_]. split; [reflexivity|]. by repeat constructor.
    - exists []. by rewrite app_nil_r. }
  destruct H2 as (evs2 & Htr2 & Hall2).
  assert (H3 : ∃ st3 evs3,
             send_phase cfg w s peers st2
             = (sleep_outcome (PERIOD cfg), emit (Sleep (PERIOD cfg)) st3)
             ∧ trace st3 = trace st2 ++ evs3 ∧ sleeps evs3 = []).
  { destruct (encode_utf8 (message cfg (timestamp (clock w (clock_reads st2)))))
      as [e|data] eqn:Henc.
    - destruct (send_phase_unencodable cfg w s peers st2 e Henc)
        as (st3 & evs3 & Hrun & _ & _ & Htr3 & Hall3).
      exists st3, evs3. split; [done|]. split; [done|].
      by apply (sleeps_none is_stdout); [intros ? []|].
    - destruct (send_phase_run cfg w s peers st2 data Henc)
        as (st3 & evs3 & Hrun & _ & _ & _ & Htr3 & Hall3 & _).
      exists st3, evs3. split; [done|]. split; [done|].
      by apply (sleeps_none (delivers cfg s data peers)); [intros ? []|]. }
  destruct H3 as (st3 & evs3 & Hrun & Htr3 & Hs3).
  exists (emit (Sleep (PERIOD cfg)) st3), (evs1 ++ evs2 ++ evs3).
  split; [done|]. split.
  - cbn. rewrite Htr3, Htr2, Htr1, <- !app_assoc. reflexivity.
  - rewrite !sleeps_app, Hs3.
    rewrite (sleeps_none lookup_or_print evs1), (sleeps_none lookup_or_print evs2);
      try done; intros ? [].
Qed.

Lemma sender_loop_sleeps s rounds :
  sleep_outcome (PERIOD cfg) = Returned tt ->
  ∀ st, ∃ st' evs,
    while_true rounds (sender_cycle cfg w s) st = (Running, st')
    ∧ trace st' = trace st ++ evs
    ∧ sleeps evs = replicate rounds (PERIOD cfg).
Proof.
  intros Hperiod. induction rounds as [|rounds IH]; intros st.
  - exists st, []. by rewrite app_nil_r.
  - destruct (sender_cycle_ends_with_sleep s st) as (st1 & evs1 & Hrun1 & Htr1 & Hs1).
    destruct (IH st1) as (st2 & evs2 & Hrun2 & Htr2 & Hs2).
    exists st2, ((evs1 ++ [Sleep (PERIOD cfg)]) ++ evs2). split.
    + cbn [while_true]. unfold bind. rewrite Hrun1. by rewrite Hperiod.
    + split; [rewrite Htr2, Htr1, <- !app_assoc; done|].
      rewrite !sleeps_app, Hs1, Hs2. reflexivity.
Qed.

(** A round of the receive loop calls [recvfrom] once, first of all, and
    returns. *)
Lemma receiver_step_receives_once s st :
  ∃ st' evs,
    receiver_step w s st = (Returned tt, st')
    ∧ trace st' = trace st ++ Recvfrom s 1024 :: evs
    ∧ receptions evs = [].
Proof.
  set (st1 := call (Recvfrom s 1024) st).
  destruct (recvfrom_result w (net_calls st) s) as [e|[data addr]] eqn:H.
  - rewrite (receiver_step_transport_error w s st e H).
    exists (after_receive_error w e st1),
      [Stdout (log_line (clock w (clock_reads st1)) (error_receiving e)); Sleep 1].
    split; [reflexivity|]. split; [|reflexivity].
    cbn. rewrite <- !app_assoc. reflexivity.
  - destruct (decode_utf8 (take 1024 data)) as [e|msg] eqn:Hd.
    + rewrite (receiver_step_decode_error w s st data addr e H Hd).
      exists (after_receive_error w e st1),
        [Stdout (log_line (clock w (clock_reads st1)) (error_receiving e)); Sleep 1].
      split; [reflexivity|]. split; [|reflexivity].
      cbn. rewrite <- !app_assoc. reflexivity.
    + rewrite (receiver_step_message w s st data addr msg H Hd).
      exists (after_log w (received_from addr msg) st1),
        [Stdout (log_line (clock w (clock_reads st1)) (received_from addr msg))].
      split; [reflexivity|]. split; [|reflexivity].
      cbn. rewrite <- !app_assoc. reflexivity.
Qed.

Lemma receiver_loop_receptions s rounds :
  ∀ st, ∃ st' evs,
    while_true rounds (receiver_step w s) st = (Running, st')
    ∧ trace st' = trace st ++ evs
    ∧ receptions evs = replicate rounds (s, 1024).
Proof.
  induction rounds as [|rounds IH]; intros st.
  - exists st, []. by rewrite app_nil_r.
  - destruct (receiver_step_receives_once s st) as (st1 & evs1 & Hrun1 & Htr1 & Hs1).
    destruct (IH st1) as (st2 & evs2 & Hrun2 & Htr2 & Hs2).
    exists st2, ((Recvfrom s 1024 :: evs1) ++ evs2). split.
    + cbn [while_true]. unfold bind. by rewrite Hrun1.
    + split; [rewrite Htr2, Htr1, <- !app_assoc; done|].
      rewrite receptions_app, Hs2. unfold receptions in *. cbn. by rewrite Hs1.
Qed.

End LongRun.

(** Once [sender] has its socket and the period is one [time.sleep] takes,
    it is still running after any number of rounds, with one sleep per
    round. *)
Lemma sender_keeps_sleeping
    (cfg : config) (w : world) (float_str : Q -> str) (st : state) :
  socket_result w (net_calls st) = None ->
  setsockopt_result w (S (net_calls st)) (net_calls st) SO_BROADCAST = None ->
  sleep_outcome (PERIOD cfg) = Returned tt ->
  ∀ rounds, ∃ st' evs,
    sender cfg w float_str rounds st = (Running, st')
    ∧ trace st' = trace st ++ evs
    ∧ sleeps evs = replicate rounds (PERIOD cfg).
Proof.
  intros Hsock Hopt Hperiod rounds.
  unfold sender, log, socket, setsockopt, net_call, or_raise, now, print, bind.
  cbn [net_calls clock_reads trace call tick emit]. rewrite Hsock, Hopt.
  match goal with |- context [while_true rounds ?body ?st0] =>
    destruct (sender_loop_sleeps cfg w (net_calls st) rounds Hperiod st0)
      as (st' & evs & Hrun & Htr & Hs)
  end.
  rewrite Hrun. cbn in Htr. exists st'. eexists (_ :: _ :: _ :: evs).
  split; [reflexivity|]. split; [rewrite Htr, <- !app_assoc; reflexivity|].
  exact Hs.
Qed.

(** With a period that [time.sleep] refuses, the first round is the last:
    the error of [time.sleep] leaves [sender]. *)
Lemma sender_ends_with_sleep
    (cfg : config) (w : world) (float_str : Q -> str) (st : state) (e : exn) :
  socket_result w (net_calls st) = None ->
  setsockopt_result w (S (net_calls st)) (net_calls st) SO_BROADCAST = None ->
  sleep_outcome (PERIOD cfg) = Raised e ->
  ∀ rounds, ∃ st' evs,
    sender cfg w float_str (S rounds) st = (Raised e, st')
    ∧ trace st' = trace st ++ evs
    ∧ sleeps evs = [PERIOD cfg].
Proof.
  intros Hsock Hopt Hperiod rounds.
  unfold sender, log, socket, setsockopt, net_call, or_raise, now, print.
  cbn [while_true]. unfold bind.
  cbn [net_calls clock_reads trace call tick emit]. rewrite Hsock, Hopt.
  match goal with |- context [sender_cycle cfg w ?s ?st0] =>
    destruct (sender_cycle_ends_with_sleep cfg w s st0)
      as (st' & evs & Hrun & Htr & Hs)
  end.
  rewrite Hrun, Hperiod. cbn in Htr.
  exists st'. eexists (_ :: _ :: _ :: evs ++ [Sleep (PERIOD cfg)]).
  split; [reflexivity|]. split; [rewrite Htr, <- !app_assoc; reflexivity|].
  change (sleeps (evs ++ [Sleep (PERIOD cfg)]) = [PERIOD cfg]).
  by rewrite sleeps_app, Hs.
Qed.

(** X8.  Once [receiver] has bound its socket it prints the port it listens
    on and never ends, whatever arrives and whatever fails: after any number
    of rounds it is still running, and it has called [recvfrom] exactly once
    per round, for 1024 bytes on its own socket. *)
Theorem receiver_listens_forever (cfg : config) (w : world) (st : state) :
  socket_result w (net_calls st) = None ->
  setsockopt_result w (S (net_calls st)) (net_calls st) SO_REUSEADDR = None ->
  setsockopt_result w (S (S (net_calls st))) (net_calls st) SO_BROADCAST = None ->
  bind_result w (S (S (S (net_calls st)))) (net_calls st) (lit "0.0.0.0", PORT cfg) = None ->
  ∀ rounds, ∃ st' evs,
    receiver cfg w rounds st = (Running, st')
    ∧ trace st'
      = trace st
        ++ [Socket;
            Setsockopt (net_calls st) SO_REUSEADDR 1;
            Setsockopt (net_calls st) SO_BROADCAST 1;
            Bind (net_calls st) (lit "0.0.0.0", PORT cfg);
            Stdout (log_line (clock w (clock_reads st))
                      (lit "Listening for UDP messages on port " ++ str_of_Z (PORT cfg)
                       ++ lit "..."))]
        ++ evs
    ∧ receptions evs = replicate rounds (net_calls st, 1024).
Proof.
  intros Hsock Hopt1 Hopt2 Hbind rounds.
  unfold receiver, log, try_except, bind_socket, socket, setsockopt, net_call, or_raise,
    now, print, bind.
  cbn [net_calls clock_reads trace call tick emit].
  rewrite Hsock, Hopt1, Hopt2, Hbind. cbn [ret].
  match goal with |- context [while_true rounds ?body ?st0] =>
    destruct (receiver_loop_receptions w (net_calls st) rounds st0)
      as (st' & evs & Hrun & Htr & Hs)
  end.
  rewrite Hrun. cbn in Htr. exists st', evs.
  split; [reflexivity|]. split; [rewrite Htr, <- !app_assoc; reflexivity|].
  exact Hs.
Qed.

(** ** Failures before the loops *)

(** X9.  The receiver guards [bind] only.  When creating its socket or
    setting one of the two options fails with [e], [receiver] raises [e]
    after those calls and prints nothing.  That ends the receiver thread
    alone: [main] goes on as [sender] does from there. *)
Theorem receiver_setup_failure_is_uncaught
    (cfg : config) (w : world) (st : state) (e : exn) :
  socket_result w (net_calls st) = Some e
  ∨ (socket_result w (net_calls st) = None
     ∧ setsockopt_result w (S (net_calls st)) (net_calls st) SO_REUSEADDR = Some e)
  ∨ (socket_result w (net_calls st) = None
     ∧ setsockopt_result w (S (net_calls st)) (net_calls st) SO_REUSEADDR = None
     ∧ setsockopt_result w (S (S (net_calls st))) (net_calls st) SO_BROADCAST = Some e) ->
  ∃ st' evs,
    (∀ rounds, receiver cfg w rounds st = (Raised e, st'))
    ∧ trace st' = trace st ++ evs
    ∧ (∀ line, Stdout line ∉ evs)
    ∧ ∀ float_str receiver_rounds sender_rounds,
        main cfg w float_str receiver_rounds sender_rounds st
        = sender cfg w float_str sender_rounds st'.
Proof.
  intros H.
  assert (Hrun : ∃ st' evs,
             (∀ rounds, receiver cfg w rounds st = (Raised e, st'))
             ∧ trace st' = trace st ++ evs ∧ (∀ line, Stdout line ∉ evs)).
  { destruct H as [H1|[[H1 H2]|(H1 & H2 & H3)]].
    - exists (call Socket st), [Socket]. split.
      + intros rounds. unfold receiver, socket, net_call. unfold bind at 1. by rewrite H1.
      + split; [done|]. intros line Hin.
        apply list_elem_of_singleton in Hin. discriminate.
    - exists (call (Setsockopt (net_calls st) SO_REUSEADDR 1) (call Socket st)),
        [Socket; Setsockopt (net_calls st) SO_REUSEADDR 1]. split.
      + intros rounds. unfold receiver, socket, setsockopt, net_call, or_raise.
        unfold bind at 1. rewrite H1. unfold bind at 1.
        cbn [net_calls clock_reads trace call]. by rewrite H2.
      + split; [cbn; by rewrite <- app_assoc|]. intros line Hin.
        repeat (apply elem_of_cons in Hin as [Hin|Hin]; [discriminate|]).
        by apply elem_of_nil in Hin.
    - exists (call (Setsockopt (net_calls st) SO_BROADCAST 1)
                (call (Setsockopt (net_calls st) SO_REUSEADDR 1) (call Socket st))),
        [Socket; Setsockopt (net_calls st) SO_REUSEADDR 1;
         Setsockopt (net_calls st) SO_BROADCAST 1]. split.
      + intros rounds. unfold receiver, socket, setsockopt, net_call, or_raise.
        unfold bind at 1. rewrite H1. unfold bind at 1.
        cbn [net_calls clock_reads trace call]. rewrite H2. unfold bind at 1.
        cbn [net_calls clock_reads trace call]. by rewrite H3.
      + split; [cbn; by rewrite <- !app_assoc|]. intros line Hin.
        repeat (apply elem_of_cons in Hin as [Hin|Hin]; [discriminate|]).
        by apply elem_of_nil in Hin. }
  destruct Hrun as (st' & evs & Hrun & Htr & Hout).
  exists st', evs. split; [done|]. split; [done|]. split; [done|].
  intros float_str receiver_rounds sender_rounds.
  unfold main, start_thread. unfold bind at 1. by rewrite Hrun.
Qed.

(** X10.  The sender guards nothing before its loop.  When creating its
    socket or setting [SO_BROADCAST] fails with [e], [sender] raises [e]
    without a line printed, a name looked up or a datagram sent; and as the
    sender is the main thread, [main] ends the same way, however the receiver
    thread fared. *)
Theorem sender_setup_failure_is_fatal
    (cfg : config) (w : world) (float_str : Q -> str) (st : state) (e : exn) :
  socket_result w (net_calls st) = Some e
  ∨ (socket_result w (net_calls st) = None
     ∧ setsockopt_result w (S (net_calls st)) (net_calls st) SO_BROADCAST = Some e) ->
  ∃ st' evs,
    (∀ rounds, sender cfg w float_str rounds st = (Raised e, st'))
    ∧ trace st' = trace st ++ evs
    ∧ Forall (fun ev => ev = Socket ∨ ev = Setsockopt (net_calls st) SO_BROADCAST 1) evs
    ∧ ∀ receiver_rounds sender_rounds st0,
        snd (receiver cfg w receiver_rounds st0) = st ->
        main cfg w float_str receiver_rounds sender_rounds st0 = (Raised e, st').
Proof.
  intros H.
  assert (Hrun : ∃ st' evs,
             (∀ rounds, sender cfg w float_str rounds st = (Raised e, st'))
             ∧ trace st' = trace st ++ evs
             ∧ Forall (fun ev => ev = Socket
                                 ∨ ev = Setsockopt (net_calls st) SO_BROADCAST 1) evs).
  { destruct H as [H1|[H1 H2]].
    - exists (call Socket st), [Socket]. split.
      + intros rounds. unfold sender, socket, net_call. unfold bind at 1. by rewrite H1.
      + split; [done|]. repeat constructor.
    - exists (call (Setsockopt (net_calls st) SO_BROADCAST 1) (call Socket st)),
        [Socket; Setsockopt (net_calls st) SO_BROADCAST 1]. split.
      + intros rounds. unfold sender, socket, setsockopt, net_call, or_raise.
        unfold bind at 1. rewrite H1. unfold bind at 1.
        cbn [net_calls clock_reads trace call]. by rewrite H2.
      + split; [cbn; by rewrite <- app_assoc|].
        constructor; [by left|]. constructor; [by right|]. constructor. }
  destruct Hrun as (st' & evs & Hrun & Htr & Hall).
  exists st', evs. split; [done|]. split; [done|]. split; [done|].
  intros receiver_rounds sender_rounds st0 Hst0. unfold main, start_thread.
  unfold bind at 1. rewrite Hst0. apply Hrun.
Qed.

(** ** The datagrams of a round *)

Lemma transmissions_none (P : event -> Prop) evs :
  (∀ s data addr, ¬ P (Sendto s data addr)) -> Forall P evs -> transmissions evs = [].
Proof.
  intros HP. induction 1 as [|ev evs Hev _ IH]; [done|].
  unfold transmissions in *. cbn. rewrite IH. destruct ev; try done. by apply HP in Hev.
Qed.

Lemma encode_from_surrogate obj pos (s : str) (c : N) :
  c ∈ s -> is_surrogate c = true ->
  ∃ start stop,
    encode_from obj pos s
    = inl (UnicodeEncodeError (lit "utf-8") obj start stop (lit "surrogates not allowed")).
Proof.
  intros Hin Hc. revert pos. induction s as [|c' s IH]; intros pos.
  - by apply elem_of_nil in Hin.
  - cbn [encode_from]. destruct (is_surrogate c') eqn:Hc'; [by eauto|].
    apply elem_of_cons in Hin as [->|Hin]; [congruence|].
    destruct (IH Hin (S pos)) as (start & stop & ->). eauto.
Qed.

Section RoundFacts.

Variable cfg : config.
Variable w : world.

Lemma send_all_transmissions s msg data (peers : list str) :
  encode_utf8 msg = inr data ->
  ∀ st, ∃ st' evs,
    for_each peers (send_to cfg w s msg) st = (Returned tt, st')
    ∧ trace st' = trace st ++ evs
    ∧ transmissions evs = map (fun ip => (s, data, (ip, PORT cfg))) peers
    ∧ sleeps evs = [].
Proof.
  intros Henc. induction peers as [|ip peers IH]; intros st.
  - exists st, []. by rewrite app_nil_r.
  - cbn [for_each]. unfold bind at 1. rewrite (send_to_run cfg w s msg data) by done.
    set (sent := call (Sendto s data (ip, PORT cfg)) st).
    destruct (sendto_result w (net_calls st) s data (ip, PORT cfg)) as [e|].
    + destruct (IH (after_log w (error_sending ip e) sent))
        as (st' & evs & Hrun & Htr & Htx & Hsl).
      exists st', (Sendto s data (ip, PORT cfg)
                   :: Stdout (log_line (clock w (clock_reads sent)) (error_sending ip e))
                   :: evs).
      split; [done|]. split.
      { rewrite Htr. cbn. rewrite <- !app_assoc. reflexivity. }
      split.
      * unfold transmissions in *. cbn. by rewrite Htx.
      * unfold sleeps in *. cbn. by rewrite Hsl.
    + destruct (IH sent) as (st' & evs & Hrun & Htr & Htx & Hsl).
      exists st', (Sendto s data (ip, PORT cfg) :: evs).
      split; [done|]. split.
      { rewrite Htr. cbn. rewrite <- !app_assoc. reflexivity. }
      split.
      * unfold transmissions in *. cbn. by rewrite Htx.
      * unfold sleeps in *. cbn. by rewrite Hsl.
Qed.

Lemma send_all_errors s msg e (peers : list str) :
  encode_utf8 msg = inl e ->
  ∀ st, ∃ st' evs,
    for_each peers (send_to cfg w s msg) st = (Returned tt, st')
    ∧ trace st' = trace st ++ evs
    ∧ Forall is_stdout evs
    ∧ ∀ ip, ip ∈ peers -> ∃ t, Stdout (log_line t (error_sending ip e)) ∈ evs.
Proof.
  intros Henc. induction peers as [|ip peers IH]; intros st.
  - exists st, []. rewrite app_nil_r. repeat split; try done.
    intros ip Hip. by apply elem_of_nil in Hip.
  - cbn [for_each]. unfold bind at 1. rewrite (send_to_unencodable cfg w s msg e) by done.
    destruct (IH (after_log w (error_sending ip e) st)) as (st' & evs & Hrun & Htr & Hall & Hin).
    exists st', (Stdout (log_line (clock w (clock_reads st)) (error_sending ip e)) :: evs).
    split; [done|]. split.
    { rewrite Htr. cbn. rewrite <- !app_assoc. reflexivity. }
    split; [by constructor|].
    intros ip' Hip'. apply elem_of_cons in Hip' as [->|Hip'].
    + exists (clock w (clock_reads st)). by left.
    + destruct (Hin ip' Hip') as (t & Ht). exists t. by right.
Qed.

(** The state in which a round reads the clock for its message: after the
    resolution, and after the line [No peers found.] if there is one. *)
Definition resolved (peers : list str) (st1 : state) : state :=
  match peers with
  | [] => after_log w (lit "No peers found.") st1
  | _ => st1
  end.

End RoundFacts.

(** The calls of [sendto] of a round, with an identity that is text: one
    for each peer, in the order of the list, all with the same bytes. *)
Lemma cycle_transmissions
    (cfg : config) (w : world) (s : sock) (st st1 : state) (peers : list str) :
  valid_text (MESSAGE_ID cfg) = true ->
  get_peer_ips cfg w st = (Returned peers, st1) ->
  ∃ st' new,
    sender_cycle cfg w s st = (sleep_outcome (PERIOD cfg), st')
    ∧ trace st' = trace st1 ++ new
    ∧ transmissions new
      = map (fun ip =>
               (s,
                utf8 (presence_text cfg (clock w (clock_reads (resolved w peers st1)))),
                (ip, PORT cfg)))
            peers.
Proof.
  intros Hvalid Hget.
  rewrite (sender_cycle_split cfg w s st peers st1 Hget). fold (resolved w peers st1).
  set (st2 := resolved w peers st1).
  assert (H2 : ∃ evs2, trace st2 = trace st1 ++ evs2 ∧ transmissions evs2 = []).
  { unfold st2, resolved. destruct peers.
    - eexists [_]. split; reflexivity.
    - exists []. by rewrite app_nil_r. }
  destruct H2 as (evs2 & Htr2 & Htx2).
  set (data := utf8 (presence_text cfg (clock w (clock_reads st2)))).
  assert (Henc : encode_utf8 (message cfg (timestamp (clock w (clock_reads st2)))) = inr data).
  { rewrite encode_utf8_valid by by apply valid_text_message.
    unfold data. by rewrite message_presence_text. }
  destruct (send_all_transmissions cfg w s _ data peers Henc (tick st2))
    as (st3 & evs3 & Hrun & Htr3 & Htx3 & _).
  exists (emit (Sleep (PERIOD cfg)) st3), (evs2 ++ evs3 ++ [Sleep (PERIOD cfg)]).
  split.
  - unfold send_phase, bind, now. rewrite Hrun. reflexivity.
  - split.
    + cbn. rewrite Htr3. cbn. rewrite Htr2, <- !app_assoc. reflexivity.
    + rewrite !transmissions_app, Htx2, Htx3. cbn. by rewrite app_nil_r.
Qed.



(** X11.  With an identity that is text, a round sends exactly one datagram
    per resolved peer, in the order of the list, each to that peer on the
    configured port, all with the same bytes: the encoding of the message
    for the one reading of the clock the round takes after resolving.  A
    failing transmission changes nothing in that. *)
Theorem one_datagram_per_peer
    (cfg : config) (w : world) (s : sock) (st st1 : state) (peers : list str) :
  valid_text (MESSAGE_ID cfg) = true ->
  get_peer_ips cfg w st = (Returned peers, st1) ->
  ∃ st' new,
    sender_cycle cfg w s st = (sleep_outcome (PERIOD cfg), st')
    ∧ trace st' = trace st1 ++ new
    ∧ transmissions new
      = map (fun ip =>
               (s,
                utf8 (presence_text cfg (clock w (clock_reads (resolved w peers st1)))),
                (ip, PORT cfg)))
            peers.
Proof. apply cycle_transmissions. Qed.

(** X12.  With an identity that holds a lone surrogate (an environment value
    that is not UTF-8 reads as one), no round sends anything: for every
    resolved peer the encoding fails before [sendto] is reached, and the
    round prints one line per peer with that peer and the same
    [UnicodeEncodeError], then sleeps as usual. *)
Theorem unencodable_identity_sends_nothing
    (cfg : config) (w : world) (s : sock) (st st1 : state) (peers : list str) (c : N) :
  c ∈ MESSAGE_ID cfg ->
  is_surrogate c = true ->
  get_peer_ips cfg w st = (Returned peers, st1) ->
  ∃ start stop st' new,
    sender_cycle cfg w s st = (sleep_outcome (PERIOD cfg), st')
    ∧ trace st' = trace st1 ++ new
    ∧ transmissions new = []
    ∧ sleeps new = [PERIOD cfg]
    ∧ ∀ ip, ip ∈ peers ->
        ∃ t, Stdout
               (log_line t
                  (lit "Error sending to " ++ ip ++ lit ": "
                   ++ exn_str
                        (UnicodeEncodeError (lit "utf-8")
                           (message cfg (timestamp (clock w (clock_reads (resolved w peers st1)))))
                           start stop (lit "surrogates not allowed")))) ∈ new.
Proof.
  intros Hc Hsur Hget.
  rewrite (sender_cycle_split cfg w s st peers st1 Hget). fold (resolved w peers st1).
  set (st2 := resolved w peers st1).
  assert (H2 : ∃ evs2, trace st2 = trace st1 ++ evs2 ∧ Forall is_stdout evs2).
  { unfold st2, resolved. destruct peers.
    - eexists [_]. split; [reflexivity|]. by repeat constructor.
    - exists []. by rewrite app_nil_r. }
  destruct H2 as (evs2 & Htr2 & Hall2).
  set (msg := message cfg (timestamp (clock w (clock_reads st2)))).
  destruct (encode_from_surrogate msg 0 msg c) as (start & stop & Henc); [|done|].
  { unfold msg, message. rewrite !elem_of_app. right. by left. }
  fold (encode_utf8 msg) in Henc.
  destruct (send_all_errors cfg w s msg _ peers Henc (tick st2))
    as (st3 & evs3 & Hrun & Htr3 & Hall3 & Hin3).
  exists start, stop, (emit (Sleep (PERIOD cfg)) st3), (evs2 ++ evs3 ++ [Sleep (PERIOD cfg)]).
  split.
  { unfold send_phase, bind, now. fold msg. rewrite Hrun. reflexivity. }
  split.
  { cbn. rewrite Htr3. cbn. rewrite Htr2, <- !app_assoc. reflexivity. }
  split.
  { rewrite !transmissions_app.
    rewrite (transmissions_none is_stdout evs2), (transmissions_none is_stdout evs3);
      try done; intros ? ? ? []. }
  split.
  { rewrite !sleeps_app.
    rewrite (sleeps_none is_stdout evs2), (sleeps_none is_stdout evs3);
      try done; intros ? []. }
  intros ip Hip. destruct (Hin3 ip Hip) as (t & Ht). exists t.
  rewrite !elem_of_app. right. by left.
Qed.

(** ** Encoding, then decoding *)

Section RoundTrip.

Local Open Scope N_scope.

Lemma to_N_byte_of_N n : n < 256 -> Byte.to_N (byte_of_N n) = n.
Proof.
  intros Hn. unfold byte_of_N. rewrite N.mod_small by done.
  destruct (Byte.of_N n) as [b|] eqn:E.
  - by apply Byte.to_of_N in E.
  - apply Byte.of_N_None_iff in E. lia.
Qed.

Ltac decide_comparisons :=
  repeat match goal with
    | |- context [N.ltb ?a ?b] =>
        first [ rewrite (proj2 (N.ltb_lt a b)) by lia
              | rewrite (proj2 (N.ltb_ge a b)) by lia ]
    | |- context [N.leb ?a ?b] =>
        first [ rewrite (proj2 (N.leb_le a b)) by lia
              | rewrite (proj2 (N.leb_gt a b)) by lia ]
    | |- context [N.eqb ?a ?b] =>
        first [ rewrite (proj2 (N.eqb_eq a b)) by lia
              | rewrite (proj2 (N.eqb_neq a b)) by lia ]
    end.

Lemma decode_from_1 obj pos c rest :
  c < 0x80 ->
  decode_from obj pos (byte_of_N c :: rest) = decoded c (decode_from obj (pos + 1) rest).
Proof.
  intros Hc. cbn [decode_from]. rewrite to_N_byte_of_N by lia.
  cbv zeta. by decide_comparisons.
Qed.

Lemma decode_from_2 obj pos q r rest :
  2 <= q < 32 -> r < 64 ->
  decode_from obj pos (byte_of_N (0xC0 + q) :: byte_of_N (0x80 + r) :: rest)
  = decoded (64 * q + r) (decode_from obj (pos + 2) rest).
Proof.
  intros Hq Hr. cbn [decode_from]. rewrite !to_N_byte_of_N by lia.
  cbv zeta. unfold is_continuation. decide_comparisons. cbn [negb andb].
  f_equal. lia.
Qed.

Lemma decode_from_3 obj pos q1 q2 r rest :
  q1 < 16 -> q2 < 64 -> r < 64 ->
  (q1 = 0 -> 32 <= q2) -> (q1 = 13 -> q2 < 32) ->
  decode_from obj pos
    (byte_of_N (0xE0 + q1) :: byte_of_N (0x80 + q2) :: byte_of_N (0x80 + r) :: rest)
  = decoded (4096 * q1 + 64 * q2 + r) (decode_from obj (pos + 3) rest).
Proof.
  intros H1 H2 Hr Hlow Hsur. cbn [decode_from]. rewrite !to_N_byte_of_N by lia.
  cbv zeta. unfold is_continuation.
  destruct (N.ltb_spec (0x80 + q2) 0xA0);
    decide_comparisons; cbn [negb andb orb]; f_equal; lia.
Qed.

Lemma decode_from_4 obj pos q0 q1 q2 r rest :
  q0 <= 4 -> q1 < 64 -> q2 < 64 -> r < 64 ->
  (q0 = 0 -> 16 <= q1) -> (q0 = 4 -> q1 < 16) ->
  decode_from obj pos
    (byte_of_N (0xF0 + q0) :: byte_of_N (0x80 + q1) :: byte_of_N (0x80 + q2)
     :: byte_of_N (0x80 + r) :: rest)
  = decoded (262144 * q0 + 4096 * q1 + 64 * q2 + r) (decode_from obj (pos + 4) rest).
Proof.
  intros H0 H1 H2 Hr Hlow Hhigh. cbn [decode_from]. rewrite !to_N_byte_of_N by lia.
  cbv zeta. unfold is_continuation.
  destruct (N.ltb_spec (0x80 + q1) 0x90);
    decide_comparisons; cbn [negb andb orb]; f_equal; lia.
Qed.

End RoundTrip.

Lemma decode_encode_char obj pos (c : N) rest :
  is_scalar c = true ->
  decode_from obj pos (encode_char c ++ rest)
  = decoded c (decode_from obj (pos + length (encode_char c)) rest).
Proof.
  intros Hc. unfold is_scalar, is_surrogate in Hc.
  apply andb_prop in Hc as [Hmax Hsur]. apply N.leb_le in Hmax.
  apply negb_true_iff, andb_false_iff in Hsur.
  assert (Hns : (c < 0xD800 ∨ 0xDFFF < c)%N).
  { destruct Hsur as [H|H]; apply N.leb_gt in H; lia. }
  clear Hsur.
  pose proof (N.div_mod c 64 ltac:(done)) as Hc0.
  pose proof (N.mod_upper_bound c 64 ltac:(done)) as Hr0.
  pose proof (N.div_mod (c / 64) 64 ltac:(done)) as Hc1.
  pose proof (N.mod_upper_bound (c / 64) 64 ltac:(done)) as Hr1.
  pose proof (N.div_mod (c / 4096) 64 ltac:(done)) as Hc2.
  pose proof (N.mod_upper_bound (c / 4096) 64 ltac:(done)) as Hr2.
  pose proof (N.mod_small (c / 262144) 8) as Hd.
  replace (c / 64 / 64)%N with (c / 4096)%N in Hc1 by by rewrite N.Div0.div_div.
  replace (c / 4096 / 64)%N with (c / 262144)%N in Hc2 by by rewrite N.Div0.div_div.
  unfold encode_char.
  remember ((c / 262144) mod 8)%N as r3 eqn:E3. clear E3.
  remember ((c / 4096) mod 64)%N as r2 eqn:E2. clear E2.
  remember ((c / 64) mod 64)%N as r1 eqn:E1. clear E1.
  remember (c mod 64)%N as r0 eqn:E0. clear E0.
  remember (c / 262144)%N as d eqn:Ed. clear Ed.
  remember (c / 4096)%N as b eqn:Eb. clear Eb.
  remember (c / 64)%N as a eqn:Ea. clear Ea.
  destruct (N.ltb_spec c 0x80) as [H1|H1].
  { cbn [app length]. rewrite decode_from_1 by done. reflexivity. }
  destruct (N.ltb_spec c 0x800) as [H2|H2].
  { cbn [app length]. rewrite decode_from_2 by lia. f_equal. lia. }
  destruct (N.ltb_spec c 0x10000) as [H3|H3].
  { cbn [app length]. rewrite decode_from_3 by lia. f_equal. lia. }
  cbn [app length]. rewrite Hd by lia.
  rewrite decode_from_4 by lia. f_equal. lia.
Qed.

Lemma decode_from_utf8 obj pos (s : str) :
  valid_text s = true -> decode_from obj pos (utf8 s) = inr s.
Proof.
  revert pos. induction s as [|c s IH]; intros pos Hs; [done|].
  cbn in Hs. apply andb_prop in Hs as [Hc Hs].
  change (utf8 (c :: s)) with (encode_char c ++ utf8 s).
  rewrite decode_encode_char by done. by rewrite IH.
Qed.

(** Text that was encoded decodes to itself. *)
Lemma decode_utf8_utf8 (s : str) : valid_text s = true -> decode_utf8 (utf8 s) = inr s.
Proof. apply decode_from_utf8. Qed.

(** ** From the sender to the receiver *)

(** X13.  When the first 1024 bytes of the datagram that arrives are the
    UTF-8 encoding of a text, the round of the receive loop prints one line
    with the source address, the source port and that text unchanged, and
    does not pause.  So a text of at most 1024 bytes is reported whole, and a
    longer one that is cut between two characters is reported up to the
    cut. *)
Theorem receiver_reports_text_verbatim
    (w : world) (s : sock) (st : state) (data : bytes) (addr : endpoint) (text : str) :
  valid_text text = true ->
  take 1024 data = utf8 text ->
  recvfrom_result w (net_calls st) s = inr (data, addr) ->
  ∃ st',
    receiver_step w s st = (Returned tt, st')
    ∧ trace st'
      = trace st
        ++ [Recvfrom s 1024;
            Stdout (log_line (clock w (clock_reads st))
                      (lit "Received from " ++ fst addr ++ lit ":" ++ str_of_Z (snd addr)
                       ++ lit " -> " ++ text))].
Proof.
  intros Hvalid Htake Hrecv.
  assert (Hdec : decode_utf8 (take 1024 data) = inr text).
  { rewrite Htake. by apply decode_utf8_utf8. }
  rewrite (receiver_step_message w s st data addr text Hrecv Hdec).
  eexists. split; [reflexivity|].
  unfold after_log, emit, tick, call. cbn [trace clock_reads net_calls].
  rewrite <- !app_assoc. reflexivity.
Qed.

(** X14.  Sender and receiver agree on the wire format.  With an identity
    that is text, take any datagram of at most 1024 bytes that a round of the
    send loop sends; a receive loop anywhere that gets this datagram prints
    [Received from <ip>:<port> -> hola desde <identity> sent at <HH:MM:SS.mmm>]
    with the sender's time of that round. *)
Theorem sent_datagram_is_reported
    (cfg : config) (w : world) (s : sock) (st : state) :
  valid_text (MESSAGE_ID cfg) = true ->
  ∃ r st' k new,
    sender_cycle cfg w s st = (r, st')
    ∧ trace st' = trace st ++ new
    ∧ ∀ s' data dest (w2 : world) (s2 : sock) (st2 : state) (addr : endpoint),
        Sendto s' data dest ∈ new ->
        length data ≤ 1024 ->
        recvfrom_result w2 (net_calls st2) s2 = inr (data, addr) ->
        ∃ st2',
          receiver_step w2 s2 st2 = (Returned tt, st2')
          ∧ trace st2'
            = trace st2
              ++ [Recvfrom s2 1024;
                  Stdout (log_line (clock w2 (clock_reads st2))
                            (lit "Received from " ++ fst addr ++ lit ":"
                             ++ str_of_Z (snd addr) ++ lit " -> "
                             ++ presence_text cfg (clock w k)))].
Proof.
  intros Hvalid.
  destruct (sender_cycle_trace cfg w s st) as (r & st' & k & new & Hrun & _ & Htr & Hsend).
  exists r, st', k, new. split; [done|]. split; [done|].
  intros s' data dest w2 s2 st2 addr Hin Hlen Hrecv.
  assert (Hv : valid_text (presence_text cfg (clock w k)) = true).
  { rewrite <- message_presence_text. by apply valid_text_message. }
  pose proof (Hsend _ _ _ Hin) as Henc. rewrite encode_utf8_valid in Henc by done.
  assert (Hdata : data = utf8 (presence_text cfg (clock w k))) by congruence.
  assert (Hdec : decode_utf8 (take 1024 data) = inr (presence_text cfg (clock w k))).
  { rewrite take_ge by done. rewrite Hdata. by apply decode_utf8_utf8. }
  rewrite (receiver_step_message w2 s2 st2 data addr _ Hrecv Hdec).
  eexists. split; [reflexivity|].
  unfold after_log, emit, tick, call. cbn [trace clock_reads net_calls].
  rewrite <- !app_assoc. reflexivity.
Qed.

(** * Standard output that may refuse text *)

(** ** Text that every handler lets through *)

Lemma valid_text_lit (s : string) : valid_text (lit s) = true.
Proof.
  unfold valid_text, lit. apply forallb_forall. intros c Hc.
  apply in_map_iff in Hc as (a & <- & _).
  apply is_scalar_below. pose proof (N_ascii_bounded a). lia.
Qed.

Lemma valid_text_hex_padded width n : valid_text (hex_padded width n) = true.
Proof.
  unfold valid_text, hex_padded. apply forallb_forall. intros c Hc.
  apply in_map_iff in Hc as (k & <- & _).
  apply is_scalar_below. unfold hex_char.
  pose proof (N.mod_upper_bound (n / 16 ^ N.of_nat k) 16 ltac:(done)) as Hd.
  remember ((n / 16 ^ N.of_nat k) mod 16)%N as d eqn:E. clear E.
  destruct (N.ltb_spec d 10); lia.
Qed.

Lemma valid_text_escaped_char c : valid_text (escaped_char c) = true.
Proof.
  unfold escaped_char.
  destruct (c <=? 255)%N; [|destruct (c <=? 65535)%N];
    by rewrite valid_text_app, valid_text_lit, valid_text_hex_padded.
Qed.

(** The text of a codec error names the codec, the position and the reason,
    and the character by its escape: it has no lone surrogate even when the
    text that could not be encoded has. *)
Lemma valid_text_encode_error (enc reason : string) obj start stop :
  valid_text (exn_str (UnicodeEncodeError (lit enc) obj start stop (lit reason))) = true.
Proof.
  unfold exn_str, str_of_nat, str_of_Z.
  destruct (obj !! start) as [c|]; [destruct (decide (stop = S start))|];
    by rewrite !valid_text_app, ?valid_text_escaped_char, !valid_text_lit.
Qed.

Lemma encode_from_error obj pos s e :
  encode_from obj pos s = inl e ->
  ∃ start stop,
    e = UnicodeEncodeError (lit "utf-8") obj start stop (lit "surrogates not allowed").
Proof.
  revert pos. induction s as [|c s IH]; intros pos; cbn [encode_from]; [done|].
  destruct (is_surrogate c).
  - intros [= <-]. eauto.
  - destruct (encode_from obj (S pos) s) as [e'|data] eqn:E; [|done].
    intros [= <-]. by apply (IH (S pos)).
Qed.

Section WritableFacts.

Variable errors : Output.error_handler.

Lemma writable_app s1 s2 :
  Output.writable errors (s1 ++ s2)
  = Output.writable errors s1 && Output.writable errors s2.
Proof. apply forallb_app. Qed.

Lemma writable_valid_text s : valid_text s = true -> Output.writable errors s = true.
Proof.
  unfold valid_text, Output.writable. rewrite !forallb_forall.
  intros H c Hc. specialize (H c Hc). unfold is_scalar in H.
  apply andb_prop in H as [_ H]. by rewrite H.
Qed.

Lemma writable_lit (s : string) : Output.writable errors (lit s) = true.
Proof. apply writable_valid_text, valid_text_lit. Qed.

Lemma writable_str_of_Z z : Output.writable errors (str_of_Z z) = true.
Proof. apply writable_lit. Qed.

Lemma writable_log_line t msg :
  Output.writable errors (log_line t msg) = Output.writable errors msg.
Proof.
  unfold log_line.
  by rewrite !writable_app, !writable_lit, (writable_valid_text _ (valid_text_timestamp t)).
Qed.

Lemma writable_encode_error msg e :
  encode_utf8 msg = inl e -> Output.writable errors (exn_str e) = true.
Proof.
  intros H. apply encode_from_error in H as (start & stop & ->).
  apply writable_valid_text, valid_text_encode_error.
Qed.

Lemma refused_from_writable s :
  Output.writable errors s = true -> ∀ pos, Output.refused_from errors pos s = None.
Proof.
  induction s as [|c s IH]; intros H pos; [done|].
  cbn in H. apply andb_prop in H as [Hc Hs]. cbn [Output.refused_from].
  destruct (is_surrogate c), (Output.handles errors c); try done; by apply IH.
Qed.

Lemma refused_from_unwritable s :
  Output.writable errors s = false ->
  ∀ pos, ∃ start stop,
    Output.refused_from errors pos s = Some (start, stop)
    ∧ pos ≤ start < stop.
Proof.
  induction s as [|c s IH]; intros H pos; [done|].
  cbn in H. cbn [Output.refused_from surrogate_run].
  destruct (is_surrogate c) eqn:Hc, (Output.handles errors c) eqn:Hh; cbn in *.
  - destruct (IH H (S pos)) as (start & stop & -> & Hpos). exists start, stop. split; [done|lia].
  - exists pos, (pos + S (surrogate_run s)). split; [done|lia].
  - destruct (IH H (S pos)) as (start & stop & -> & Hpos). exists start, stop. split; [done|lia].
  - destruct (IH H (S pos)) as (start & stop & -> & Hpos). exists start, stop. split; [done|lia].
Qed.

Lemma refused_from_app s1 s2 pos :
  Output.writable errors s1 = true ->
  Output.refused_from errors pos (s1 ++ s2)
  = Output.refused_from errors (pos + length s1) s2.
Proof.
  revert pos. induction s1 as [|c s1 IH]; intros pos H; cbn [app length].
  - by rewrite Nat.add_0_r.
  - cbn in H. apply andb_prop in H as [Hc Hs]. cbn [Output.refused_from].
    replace (pos + S (length s1)) with (S pos + length s1) by lia.
    destruct (is_surrogate c), (Output.handles errors c); try done; by apply IH.
Qed.

(** A line that is let through is printed; one that is not raises, and
    nothing is written. *)
Lemma print_writable line st :
  Output.writable errors line = true -> Output.print errors line st = print line st.
Proof.
  intros H. unfold Output.print, Output.refused.
  by rewrite (refused_from_writable line H 0).
Qed.

Lemma print_unwritable line st :
  Output.writable errors line = false ->
  ∃ start stop,
    Output.print errors line st
    = (Raised (UnicodeEncodeError (lit "utf-8") line start stop
                 (lit "surrogates not allowed")), st)
    ∧ start < stop.
Proof.
  intros H. unfold Output.print, Output.refused.
  destruct (refused_from_unwritable line H 0) as (start & stop & -> & Hpos).
  exists start, stop. split; [done|lia].
Qed.

End WritableFacts.

(** The handlers that never refuse. *)
Definition lenient (errors : Output.error_handler) : bool :=
  match errors with
  | Output.Strict | Output.Surrogateescape => false
  | _ => true
  end.

Lemma writable_lenient errors s : lenient errors = true -> Output.writable errors s = true.
Proof.
  intros H. unfold Output.writable. apply forallb_forall. intros c _.
  destruct errors; try done; cbn; apply orb_true_r.
Qed.

(** ** The logger *)

Section LogFacts.

Variable errors : Output.error_handler.
Variable w : world.

Lemma log_writable msg st :
  Output.writable errors msg = true -> Output.log errors w msg st = log w msg st.
Proof.
  intros H. unfold Output.log, log, bind, now. apply print_writable.
  change (Output.writable errors (log_line (clock w (clock_reads st)) msg) = true).
  by rewrite writable_log_line.
Qed.

Lemma log_unwritable msg st :
  Output.writable errors msg = false ->
  ∃ start stop,
    Output.log errors w msg st
    = (Raised (UnicodeEncodeError (lit "utf-8") (log_line (clock w (clock_reads st)) msg)
                 start stop (lit "surrogates not allowed")),
       tick st)
    ∧ start < stop.
Proof.
  intros H. unfold Output.log, bind, now.
  apply (print_unwritable errors (log_line (clock w (clock_reads st)) msg)).
  by rewrite writable_log_line.
Qed.

End LogFacts.

(** X1.  [log msg] reads the clock once and calls nothing else.  Its line
    is the time of day of that reading cut to milliseconds, in brackets, a
    space, and [msg] unchanged from column 15 on.  When standard output lets
    [msg] through, the line is printed, once, and [log] returns.  When it
    does not, [log] raises the [UnicodeEncodeError] of [print] for a place in
    [msg], and nothing is printed. *)
Theorem log_prints_one_timestamped_line
    (errors : Output.error_handler) (w : world) (msg : str) (st : state) :
  ∃ line,
    line = lit "[" ++ hms_millis (clock w (clock_reads st)) ++ lit "] " ++ msg
    ∧ length line = 15 + length msg
    ∧ drop 15 line = msg
    ∧ if Output.writable errors msg
      then Output.log errors w msg st = (Returned tt, emit (Stdout line) (tick st))
      else ∃ start stop,
             15 ≤ start < stop
             ∧ Output.log errors w msg st
               = (Raised (UnicodeEncodeError (lit "utf-8") line start stop
                            (lit "surrogates not allowed")),
                  tick st).
Proof.
  set (prefix := lit "[" ++ hms_millis (clock w (clock_reads st)) ++ lit "] ").
  assert (Hlen : length prefix = 15).
  { unfold prefix. rewrite <- timestamp_hms_millis, !length_app, length_timestamp.
    reflexivity. }
  assert (Hline : log_line (clock w (clock_reads st)) msg = prefix ++ msg).
  { unfold log_line, prefix. by rewrite timestamp_hms_millis, <- !app_assoc. }
  assert (Hprefix : Output.writable errors prefix = true).
  { unfold prefix. rewrite <- timestamp_hms_millis, !writable_app, !writable_lit.
    by rewrite (writable_valid_text _ _ (valid_text_timestamp _)). }
  exists (prefix ++ msg). split; [unfold prefix; by rewrite <- !app_assoc|].
  split; [by rewrite length_app, Hlen|].
  split; [rewrite <- Hlen; apply drop_app_length|].
  destruct (Output.writable errors msg) eqn:Hmsg.
  - rewrite log_writable by done. unfold log, bind, now, print. by rewrite <- Hline.
  - destruct (refused_from_unwritable errors msg Hmsg 15) as (start & stop & Href & Hpos).
    exists start, stop. split; [done|].
    unfold Output.log, bind, now, Output.print, Output.refused.
    fold (log_line (clock w (clock_reads st)) msg). rewrite Hline.
    rewrite (refused_from_app errors prefix msg 0 Hprefix), Hlen. cbn [Nat.add].
    by rewrite Href.
Qed.

Lemma for_each_ext {A} (l : list A) (f g : A -> M unit) :
  (∀ x, x ∈ l -> ∀ st, f x st = g x st) -> ∀ st, for_each l f st = for_each l g st.
Proof.
  induction l as [|x l IH]; intros H st; [done|].
  cbn [for_each]. unfold bind. rewrite (H x) by by left.
  destruct (g x st) as [[[]|e|] st1]; [|done..].
  apply IH. intros y Hy. apply H. by right.
Qed.

Lemma bind_ext {A B} (m1 m2 : M A) (k1 k2 : A -> M B) :
  (∀ st, m1 st = m2 st) -> (∀ a st, k1 a st = k2 a st) ->
  ∀ st, bind m1 k1 st = bind m2 k2 st.
Proof.
  intros Hm Hk st. unfold bind. rewrite Hm.
  destruct (m2 st) as [[a|e|] st1]; [apply Hk|done..].
Qed.

Lemma try_except_ext {A} (body1 body2 : M A) (handler1 handler2 : exn -> M A) :
  (∀ st, body1 st = body2 st) -> (∀ e st, handler1 e st = handler2 e st) ->
  ∀ st, try_except body1 handler1 st = try_except body2 handler2 st.
Proof.
  intros Hb Hh st. unfold try_except. rewrite Hb.
  destruct (body2 st) as [[a|e|] st1]; [done|apply Hh|done].
Qed.

Lemma while_true_ext (rounds : nat) (f g : M unit) :
  (∀ st, f st = g st) -> ∀ st, while_true rounds f st = while_true rounds g st.
Proof.
  intros H. induction rounds as [|rounds IH]; intros st; [done|].
  cbn [while_true]. unfold bind. rewrite H.
  destruct (g st) as [[[]|e|] st1]; [|done..]. apply IH.
Qed.

(** ** When the sender's lines are all let through *)

(** Everything [sender] may put into a line is text the handler lets
    through: the identity, the identifier and the period of the
    configuration, the text of every error that a lookup or a transmission
    raises, and every address that is resolved. *)
Record printable (errors : Output.error_handler) (cfg : config) (w : world)
    (float_str : Q -> str) : Prop := {
  printable_identity : Output.writable errors (MESSAGE_ID cfg) = true;
  printable_identifier : Output.writable errors (PEER_SERVICE_DNS cfg) = true;
  printable_period : Output.writable errors (float_str (PERIOD cfg)) = true;
  printable_gethostname : ∀ n e,
    gethostname_result w n = inl e -> Output.writable errors (exn_str e) = true;
  printable_gethostbyname : ∀ n host e,
    gethostbyname_result w n host = inl e -> Output.writable errors (exn_str e) = true;
  printable_getaddrinfo : ∀ n e,
    getaddrinfo_result w n (PEER_SERVICE_DNS cfg) = inl e ->
    Output.writable errors (exn_str e) = true;
  printable_peers : ∀ n results r,
    getaddrinfo_result w n (PEER_SERVICE_DNS cfg) = inr results ->
    r ∈ results ->
    Output.writable errors (fst (ai_sockaddr r)) = true;
  printable_sendto : ∀ n s data addr e,
    sendto_result w n s data addr = Some e -> Output.writable errors (exn_str e) = true
}.

Lemma printable_lenient errors cfg w float_str :
  lenient errors = true -> printable errors cfg w float_str.
Proof. intros H. split; intros; by apply writable_lenient. Qed.

Lemma elem_of_resolved_ips ip (results : list addrinfo) :
  ip ∈ resolved_ips results ↔ ∃ r, r ∈ results ∧ ip = fst (ai_sockaddr r).
Proof.
  unfold resolved_ips. induction results as [|r results IH]; cbn.
  - rewrite elem_of_empty. split; [done|]. intros (r & Hr & _). by apply elem_of_nil in Hr.
  - rewrite elem_of_union, elem_of_singleton, IH. split.
    + intros [->|(r' & Hr' & ->)].
      * exists r. split; [by left|done].
      * exists r'. split; [by right|done].
    + intros (r' & Hr' & ->). apply elem_of_cons in Hr' as [->|Hr']; [by left|].
      right. by exists r'.
Qed.

Section ResolverOrigins.

Variable cfg : config.
Variable w : world.

(** What the [try] of [get_peer_ips] raises is what one of its three
    lookups raised. *)
Lemma resolve_peers_raises st e st1 :
  resolve_peers cfg w st = (Raised e, st1) ->
  gethostname_result w (net_calls st) = inl e
  ∨ (∃ host, gethostbyname_result w (S (net_calls st)) host = inl e)
  ∨ getaddrinfo_result w (S (S (net_calls st))) (PEER_SERVICE_DNS cfg) = inl e.
Proof.
  unfold resolve_peers, bind, gethostname, gethostbyname, getaddrinfo, net_call, ret.
  cbn [net_calls clock_reads trace call].
  destruct (gethostname_result w (net_calls st)) as [e1|host]; [intros [= <- _]; by left|].
  destruct (gethostbyname_result w (S (net_calls st)) host) as [e2|my_ip] eqn:H2;
    [intros [= <- _]; right; left; by exists host|].
  destruct (getaddrinfo_result w (S (S (net_calls st))) (PEER_SERVICE_DNS cfg)) as [e3|results];
    [intros [= <- _]; by right; right|done].
Qed.

(** The peers [get_peer_ips] returns are the broadcast destination or
    addresses of the lookup result. *)
Lemma get_peer_ips_origin st peers st1 ip :
  get_peer_ips cfg w st = (Returned peers, st1) ->
  ip ∈ peers ->
  ip = lit "<broadcast>"
  ∨ ∃ results r,
      getaddrinfo_result w (S (S (net_calls st))) (PEER_SERVICE_DNS cfg) = inr results
      ∧ r ∈ results ∧ ip = fst (ai_sockaddr r).
Proof.
  unfold get_peer_ips. destruct (PEER_SERVICE_DNS cfg) as [|c dns] eqn:Hdns.
  - intros [= <- _] Hin. left. by apply list_elem_of_singleton in Hin.
  - rewrite <- Hdns.
    unfold try_except, resolve_peers, bind, gethostname, gethostbyname, getaddrinfo,
      net_call, ret, log, now, print.
    cbn [net_calls clock_reads trace call tick emit].
    destruct (gethostname_result w (net_calls st)) as [e1|host];
      [intros [= <- _] Hin; by apply elem_of_nil in Hin|].
    destruct (gethostbyname_result w (S (net_calls st)) host) as [e2|my_ip];
      [intros [= <- _] Hin; by apply elem_of_nil in Hin|].
    destruct (getaddrinfo_result w (S (S (net_calls st))) (PEER_SERVICE_DNS cfg))
      as [e3|results];
      [intros [= <- _] Hin; by apply elem_of_nil in Hin|].
    intros [= <- _] Hin. right. exists results.
    rewrite foldl_add_peer in Hin.
    apply elem_of_elements, elem_of_union in Hin as [Hin|Hin]; [by apply elem_of_empty in Hin|].
    apply elem_of_difference in Hin as [Hin _].
    apply elem_of_resolved_ips in Hin as (r & Hr & ->). by exists r.
Qed.

End ResolverOrigins.

Section Transfer.

Variable errors : Output.error_handler.
Variable cfg : config.
Variable w : world.
Variable float_str : Q -> str.
Hypothesis Hp : printable errors cfg w float_str.

(** Every line is then printed, and the sender does what it does on an
    output that takes every text. *)
Lemma get_peer_ips_same st :
  Output.get_peer_ips errors cfg w st = get_peer_ips cfg w st.
Proof.
  unfold Output.get_peer_ips, get_peer_ips.
  destruct (PEER_SERVICE_DNS cfg) as [|c dns] eqn:Hdns; [done|].
  rewrite <- Hdns. unfold try_except.
  destruct (resolve_peers cfg w st) as [[peers|e|] st1] eqn:Hr; [done| |done].
  unfold bind. rewrite log_writable; [done|].
  rewrite !writable_app, !writable_lit, (printable_identifier _ _ _ _ Hp).
  apply resolve_peers_raises in Hr as [H|[[host H]|H]].
  - by rewrite (printable_gethostname _ _ _ _ Hp _ _ H).
  - by rewrite (printable_gethostbyname _ _ _ _ Hp _ _ _ H).
  - by rewrite (printable_getaddrinfo _ _ _ _ Hp _ _ H).
Qed.

Lemma peers_writable st peers st1 ip :
  get_peer_ips cfg w st = (Returned peers, st1) ->
  ip ∈ peers ->
  Output.writable errors ip = true.
Proof.
  intros Hget Hin.
  destruct (get_peer_ips_origin cfg w st peers st1 ip Hget Hin)
    as [->|(results & r & Hres & Hr & ->)].
  - apply writable_lit.
  - exact (printable_peers _ _ _ _ Hp _ _ _ Hres Hr).
Qed.

Lemma send_to_same s msg ip st :
  Output.writable errors ip = true ->
  Output.send_to errors cfg w s msg ip st = send_to cfg w s msg ip st.
Proof.
  intros Hip. unfold Output.send_to, send_to, try_except, bind, lift.
  destruct (encode_utf8 msg) as [e|data] eqn:Henc; cbn [raise ret].
  - apply log_writable.
    by rewrite !writable_app, !writable_lit, Hip, (writable_encode_error _ _ _ Henc).
  - unfold sendto, net_call.
    destruct (sendto_result w (net_calls st) s data (ip, PORT cfg)) as [e|] eqn:Hsend;
      cbn [or_raise]; [|done].
    apply log_writable.
    by rewrite !writable_app, !writable_lit, Hip, (printable_sendto _ _ _ _ Hp _ _ _ _ _ Hsend).
Qed.

Lemma sender_cycle_same s st :
  Output.sender_cycle errors cfg w s st = sender_cycle cfg w s st.
Proof.
  unfold Output.sender_cycle, sender_cycle. unfold bind at 1 5.
  rewrite get_peer_ips_same.
  destruct (get_peer_ips cfg w st) as [[peers|e|] st1] eqn:Hget; [|done..].
  unfold bind at 1 4.
  assert (Hlog : (match peers with
                  | [] => Output.log errors w (lit "No peers found.")
                  | _ => ret tt
                  end) st1
                 = (match peers with
                    | [] => log w (lit "No peers found.")
                    | _ => ret tt
                    end) st1).
  { destruct peers; [|done]. apply log_writable, writable_lit. }
  rewrite Hlog.
  destruct ((match peers with [] => log w (lit "No peers found.") | _ => ret tt end) st1)
    as [[[]|e|] st2]; [|done..].
  unfold bind, now.
  rewrite (for_each_ext peers
             (Output.send_to errors cfg w s (message cfg (timestamp (clock w (clock_reads st2)))))
             (send_to cfg w s (message cfg (timestamp (clock w (clock_reads st2)))))); [done|].
  intros ip Hip st3. apply send_to_same. by apply (peers_writable st peers st1).
Qed.

Lemma sender_same rounds st :
  Output.sender errors cfg w float_str rounds st = sender cfg w float_str rounds st.
Proof.
  unfold Output.sender, sender. unfold bind at 1 4.
  destruct (socket w st) as [[s|e|] st1]; [|done..].
  unfold bind at 1 3.
  destruct (setsockopt w s SO_BROADCAST 1 st1) as [[[]|e|] st2]; [|done..].
  unfold bind. rewrite log_writable.
  - match goal with |- context [log w ?msg st2] =>
      destruct (log w msg st2) as [[[]|e|] st3]
    end; [|done..].
    apply while_true_ext. intros st4. apply sender_cycle_same.
  - by rewrite !writable_app, !writable_lit, writable_str_of_Z,
      (printable_identity _ _ _ _ Hp), (printable_period _ _ _ _ Hp).
Qed.

End Transfer.

(** ** The program of [Node] is the program of [Output] on a lenient output *)

Section Lenient.

Variable errors : Output.error_handler.
Variable cfg : config.
Variable w : world.
Hypothesis Hlenient : lenient errors = true.

Lemma log_lenient msg st : Output.log errors w msg st = log w msg st.
Proof. apply log_writable. by apply writable_lenient. Qed.

Lemma sender_lenient float_str rounds st :
  Output.sender errors cfg w float_str rounds st = sender cfg w float_str rounds st.
Proof. apply sender_same. by apply printable_lenient. Qed.

Lemma receiver_step_lenient s st :
  Output.receiver_step errors w s st = receiver_step w s st.
Proof.
  unfold Output.receiver_step, receiver_step.
  apply try_except_ext.
  - intros st1. apply bind_ext; [done|]. intros [data addr] st2.
    apply bind_ext; [done|]. intros msg st3. apply log_lenient.
  - intros e st1. apply bind_ext; [|done]. intros st2. apply log_lenient.
Qed.

Lemma receiver_lenient rounds st :
  Output.receiver errors cfg w rounds st = receiver cfg w rounds st.
Proof.
  unfold Output.receiver, receiver.
  apply bind_ext; [done|]. intros s st1.
  apply bind_ext; [done|]. intros _ st2.
  apply bind_ext; [done|]. intros _ st3.
  apply bind_ext.
  - intros st4. apply try_except_ext; [done|]. intros e st5.
    apply bind_ext; [|done]. intros st6. apply log_lenient.
  - intros [|] st4; [|done].
    apply bind_ext; [intros st5; apply log_lenient|]. intros _ st5.
    apply while_true_ext. intros st6. apply receiver_step_lenient.
Qed.

Lemma main_lenient float_str receiver_rounds sender_rounds st :
  Output.main errors cfg w float_str receiver_rounds sender_rounds st
  = main cfg w float_str receiver_rounds sender_rounds st.
Proof.
  unfold Output.main, main, start_thread, bind.
  by rewrite receiver_lenient, sender_lenient.
Qed.

End Lenient.

(** ** The resolver when a lookup fails: claim C2 *)

(** The message of the handler of [get_peer_ips], line 43. *)
Definition error_resolving (cfg : config) (e : exn) : str :=
  lit "Error resolving peers from " ++ PEER_SERVICE_DNS cfg ++ lit ": " ++ exn_str e.


Lemma get_peer_ips_guarded errors cfg w st :
  PEER_SERVICE_DNS cfg ≠ [] ->
  Output.get_peer_ips errors cfg w st
  = try_except (resolve_peers cfg w)
      (fun e => Output.log errors w (error_resolving cfg e);; ret []) st.
Proof.
  intros Hdns. unfold Output.get_peer_ips, error_resolving.
  by destruct (PEER_SERVICE_DNS cfg).
Qed.



(** ** The sender in the long run *)


(** X6.  Once [sender] has its socket, with a period from zero to [2^62]
    nanoseconds and lines that standard output lets through, nothing the
    network does ends it: after any number of rounds it is still running,
    neither returned nor raised, and it has slept exactly once per round,
    each time for the configured period. *)
Theorem sender_never_stops
    (errors : Output.error_handler) (cfg : config) (w : world) (float_str : Q -> str)
    (st : state) :
  socket_result w (net_calls st) = None ->
  setsockopt_result w (S (net_calls st)) (net_calls st) SO_BROADCAST = None ->
  sleepable (PERIOD cfg) = true ->
  printable errors cfg w float_str ->
  ∀ rounds, ∃ st' evs,
    Output.sender errors cfg w float_str rounds st = (Running, st')
    ∧ trace st' = trace st ++ evs
    ∧ sleeps evs = replicate rounds (PERIOD cfg).
Proof.
  intros Hsock Hopt Hperiod Hp rounds. rewrite (sender_same errors cfg w float_str Hp).
  apply sender_keeps_sleeping; [done..|]. by apply sleepable_returns.
Qed.

(** X7.  With a period that [time.sleep] refuses, a negative one or one
    beyond the 64-bit range of nanoseconds, [sender] does not loop: once it
    has its socket and its lines are let through, the first round does its
    resolving and sending, then [time.sleep] raises, [ValueError] for a
    negative period within the range and [OverflowError] for a period out of
    it, and the error leaves [sender], however many rounds were to
    follow. *)
Theorem refused_period_stops_sender
    (errors : Output.error_handler) (cfg : config) (w : world) (float_str : Q -> str)
    (st : state) :
  socket_result w (net_calls st) = None ->
  setsockopt_result w (S (net_calls st)) (net_calls st) SO_BROADCAST = None ->
  Qle_bool 0 (PERIOD cfg) = false ∨ in_time_range (nanoseconds (PERIOD cfg)) = false ->
  printable errors cfg w float_str ->
  ∀ rounds, ∃ st' evs,
    Output.sender errors cfg w float_str (S rounds) st
    = (Raised (if in_time_range (nanoseconds (PERIOD cfg))
               then ValueError (lit "sleep length must be non-negative")
               else PyError "OverflowError"
                      (lit "timestamp too large to convert to C _PyTime_t")),
       st')
    ∧ trace st' = trace st ++ evs
    ∧ sleeps evs = [PERIOD cfg].
Proof.
  intros Hsock Hopt Hperiod Hp rounds. rewrite (sender_same errors cfg w float_str Hp).
  apply sender_ends_with_sleep; [done..|].
  destruct Hperiod as [Hneg|Hout].
  - rewrite (sleep_outcome_negative _ Hneg).
    by destruct (in_time_range (nanoseconds (PERIOD cfg))).
  - by rewrite (sleep_outcome_out_of_range _ Hout), Hout.
Qed.

(** ** The receiver when its port is taken: claim C7 *)




(** ** A round without peers: claim C6 *)

(** When [get_peer_ips] returns, its lines were let through, and it did what
    it does on an output that takes every text. *)
Lemma get_peer_ips_returned errors cfg w st peers st1 :
  Output.get_peer_ips errors cfg w st = (Returned peers, st1) ->
  get_peer_ips cfg w st = (Returned peers, st1).
Proof.
  destruct (decide (PEER_SERVICE_DNS cfg = [])) as [Hdns|Hne].
  { unfold Output.get_peer_ips, get_peer_ips. by rewrite Hdns. }
  rewrite get_peer_ips_guarded by done.
  unfold get_peer_ips. destruct (PEER_SERVICE_DNS cfg) as [|c dns] eqn:E; [done|].
  rewrite <- E. unfold try_except.
  destruct (resolve_peers cfg w st) as [[peers'|e|] st2]; [done| |done].
  unfold bind. destruct (Output.writable errors (error_resolving cfg e)) eqn:Hw.
  - by rewrite log_writable.
  - destruct (log_unwritable errors w _ st2 Hw) as (start & stop & -> & _). done.
Qed.

Lemma empty_cycle_run errors cfg w s st st1 :
  Output.get_peer_ips errors cfg w st = (Returned [], st1) ->
  Output.sender_cycle errors cfg w s st
  = (sleep_outcome (PERIOD cfg),
     emit (Sleep (PERIOD cfg)) (tick (after_log w (lit "No peers found.") st1))).
Proof.
  intros Hget. unfold Output.sender_cycle. unfold bind at 1. rewrite Hget.
  unfold bind at 1. rewrite log_writable by apply writable_lit. reflexivity.
Qed.

(** C6.  Take a round in which [get_peer_ips] returns the empty list.  The
    round calls [sendto] not once, neither while resolving nor after; it
    prints the line [No peers found.], and then calls [time.sleep] with the
    configured period, no more and no less, and ends as that call ends.
    When the period is a length [time.sleep] takes, the sleep returns and
    the next round starts from there.  When it is one [time.sleep] refuses,
    the error leaves the loop and no round follows. *)
Theorem empty_cycle_sends_nothing
    (errors : Output.error_handler) (cfg : config) (w : world) (s : sock)
    (st st1 : state) :
  Output.get_peer_ips errors cfg w st = (Returned [], st1) ->
  ∃ st' resolving,
    Output.sender_cycle errors cfg w s st = (sleep_outcome (PERIOD cfg), st')
    ∧ trace st1 = trace st ++ resolving
    ∧ trace st'
      = trace st1
        ++ [Stdout (log_line (clock w (clock_reads st1)) (lit "No peers found."));
            Sleep (PERIOD cfg)]
    ∧ transmissions
        (resolving
         ++ [Stdout (log_line (clock w (clock_reads st1)) (lit "No peers found."));
             Sleep (PERIOD cfg)]) = []
    ∧ net_calls st' = net_calls st1
    ∧ (sleepable (PERIOD cfg) = true ->
       ∀ rounds,
         while_true (S rounds) (Output.sender_cycle errors cfg w s) st
         = while_true rounds (Output.sender_cycle errors cfg w s) st')
    ∧ (∀ e, sleep_outcome (PERIOD cfg) = Raised e ->
       ∀ rounds,
         while_true (S rounds) (Output.sender_cycle errors cfg w s) st = (Raised e, st')).
Proof.
  intros Hget. pose proof (empty_cycle_run errors cfg w s st st1 Hget) as Hrun.
  apply get_peer_ips_returned in Hget.
  destruct (get_peer_ips_trace cfg w st) as (peers & st1' & evs1 & Hget' & _ & Htr1 & Hall1).
  rewrite Hget in Hget'. injection Hget' as <- <-.
  exists (emit (Sleep (PERIOD cfg)) (tick (after_log w (lit "No peers found.") st1))), evs1.
  split; [done|]. split; [done|]. split.
  { cbn. rewrite <- app_assoc. reflexivity. }
  split.
  { rewrite transmissions_app, transmissions_lookup_or_print by done. reflexivity. }
  split; [reflexivity|]. split.
  - intros Hperiod rounds. cbn [while_true]. unfold bind at 1. rewrite Hrun.
    by rewrite (sleepable_returns _ Hperiod).
  - intros e Hperiod rounds. cbn [while_true]. unfold bind at 1. rewrite Hrun.
    by rewrite Hperiod.
Qed.

(** ** More concrete runs *)

Module Scenario2.

(** The node of [cluster] when its port is free. *)
Definition free_port : world := {|
  clock := clock cluster;
  gethostname_result := gethostname_result cluster;
  gethostbyname_result := gethostbyname_result cluster;
  getaddrinfo_result := getaddrinfo_result cluster;
  socket_result := socket_result cluster;
  setsockopt_result := setsockopt_result cluster;
  bind_result := fun _ _ _ => None;
  sendto_result := sendto_result cluster;
  recvfrom_result := recvfrom_result cluster
|}.

(** The node of [cluster] when the process has no file descriptor left. *)
Definition no_descriptors : world := {|
  clock := clock cluster;
  gethostname_result := gethostname_result cluster;
  gethostbyname_result := gethostbyname_result cluster;
  getaddrinfo_result := getaddrinfo_result cluster;
  socket_result := fun _ => Some (OSError 24 (lit "Too many open files"));
  setsockopt_result := setsockopt_result cluster;
  bind_result := bind_result cluster;
  sendto_result := sendto_result cluster;
  recvfrom_result := recvfrom_result cluster
|}.

(** [PERIOD=-1] *)
Definition hasty : config :=
  {| MESSAGE_ID := lit "python-node"; PERIOD := -1; PORT := 37020;
     PEER_SERVICE_DNS := lit "peers.svc" |}.

(** [MESSAGE] set to the single byte [0xff], which [os.getenv] reads as the
    lone surrogate [U+DCFF]. *)
Definition garbled : config :=
  {| MESSAGE_ID := [0xDCFF%N]; PERIOD := 2; PORT := 37020;
     PEER_SERVICE_DNS := lit "peers.svc" |}.

(** A state in which one call into the [socket] module has been made. *)
Definition later : state := {| clock_reads := 0; net_calls := 1; trace := [] |}.

Example garbled_peers :
  get_peer_ips garbled cluster initial
  = (Returned [node_c; node_b], after_lookups garbled (lit "node-a") initial).
Proof. vm_compute. reflexivity. Qed.

(** [PERIOD=1e10] *)
Definition patient : config :=
  {| MESSAGE_ID := lit "python-node"; PERIOD := 10000000000; PORT := 37020;
     PEER_SERVICE_DNS := lit "peers.svc" |}.

(** [PEER_SERVICE_DNS] set to [caf] and the byte [0xe9], which [os.getenv]
    reads as [caf] and the lone surrogate [U+DCE9]. *)
Definition misnamed : config :=
  {| MESSAGE_ID := lit "python-node"; PERIOD := 2; PORT := 37020;
     PEER_SERVICE_DNS := lit "caf" ++ [0xDCE9%N] |}.

(** What [getaddrinfo] raises for a name with the lone surrogate [c], which
    has no IDNA form. *)
Definition idna_error (c : N) : exn :=
  UnicodeError
    (lit "encoding with 'idna' codec failed (UnicodeError: Invalid character '"
     ++ [c] ++ lit "')").

(** The node of [cluster], with a resolver that refuses such names. *)
Definition fussy : world := {|
  clock := clock cluster;
  gethostname_result := gethostname_result cluster;
  gethostbyname_result := gethostbyname_result cluster;
  getaddrinfo_result := fun n host =>
    match find is_surrogate host with
    | Some c => inl (idna_error c)
    | None => getaddrinfo_result cluster n host
    end;
  socket_result := socket_result cluster;
  setsockopt_result := setsockopt_result cluster;
  bind_result := bind_result cluster;
  sendto_result := sendto_result cluster;
  recvfrom_result := recvfrom_result cluster
|}.

Example misnamed_lookup :
  resolve_peers misnamed fussy initial
  = (Raised (idna_error 0xDCE9), after_lookups misnamed (lit "node-a") initial).
Proof. reflexivity. Qed.

Example misnamed_line_refused :
  Output.refused Output.Strict
    (log_line nine_o_five (error_resolving misnamed (idna_error 0xDCE9)))
  = Some (45, 46).
Proof. reflexivity. Qed.

Example misnamed_line_escaped :
  Output.refused Output.Surrogateescape
    (log_line nine_o_five (error_resolving misnamed (idna_error 0xDCE9)))
  = None.
Proof. reflexivity. Qed.

(** Runs of surrogates: the strict handler reports the whole run,
    [surrogateescape] what is left of it from the first surrogate it does
    not write. *)
Example refused_run_strict :
  Output.refused Output.Strict [0x61; 0xDC80; 0xD800; 0x62]%N = Some (1, 3).
Proof. reflexivity. Qed.

Example refused_run_surrogateescape :
  Output.refused Output.Surrogateescape [0x61; 0xDC80; 0xD800; 0x62]%N = Some (2, 3).
Proof. reflexivity. Qed.

Example refused_run_replace :
  Output.refused Output.Replace [0x61; 0xDC80; 0xD800; 0x62]%N = None.
Proof. reflexivity. Qed.

End Scenario2.

Import Scenario2.

(** The node of [cluster] hands the program nothing but text. *)
Lemma cluster_printable errors cfg float_str :
  Output.writable errors (MESSAGE_ID cfg) = true ->
  Output.writable errors (PEER_SERVICE_DNS cfg) = true ->
  Output.writable errors (float_str (PERIOD cfg)) = true ->
  printable errors cfg cluster float_str.
Proof.
  intros H1 H2 H3. split; try done.
  - intros n results r [= <-] Hr. apply writable_valid_text.
    repeat (apply elem_of_cons in Hr as [->|Hr]; [reflexivity|]).
    by apply elem_of_nil in Hr.
  - intros n s data addr e H. cbn in H.
    destruct (decide (n = 3)); [|done]. injection H as <-.
    by apply writable_valid_text.
Qed.

Lemma log_prints_one_timestamped_line_witness :
  ∃ start stop,
    15 ≤ start < stop
    ∧ Output.log Output.Strict cluster (lit "caf" ++ [0xDCE9%N]) initial
      = (Raised (UnicodeEncodeError (lit "utf-8")
                   (lit "[09:05:59.123] caf" ++ [0xDCE9%N]) start stop
                   (lit "surrogates not allowed")),
         tick initial).
Proof.
  destruct (log_prints_one_timestamped_line Output.Strict cluster
              (lit "caf" ++ [0xDCE9%N]) initial)
    as (line & Hline & _ & _ & Hrun).
  change (Output.writable Output.Strict (lit "caf" ++ [0xDCE9%N])) with false in Hrun.
  destruct Hrun as (start & stop & Hpos & Hrun).
  exists start, stop. split; [exact Hpos|].
  rewrite Hrun, Hline. reflexivity.
Defined.




Lemma empty_cycle_sends_nothing_witness :
  ∃ st' resolving,
    Output.sender_cycle Output.Strict with_peers alone 0 initial = (Returned tt, st')
    ∧ trace (after_lookups with_peers (lit "node-a") initial) = [] ++ resolving
    ∧ trace st'
      = [Gethostname; Gethostbyname (lit "node-a"); Getaddrinfo (lit "peers.svc")]
        ++ [Stdout (lit "[09:05:59.123] No peers found."); Sleep 2]
    ∧ transmissions
        (resolving ++ [Stdout (lit "[09:05:59.123] No peers found."); Sleep 2]) = []
    ∧ net_calls st' = 3
    ∧ (sleepable 2 = true ->
       ∀ rounds,
         while_true (S rounds) (Output.sender_cycle Output.Strict with_peers alone 0) initial
         = while_true rounds (Output.sender_cycle Output.Strict with_peers alone 0) st')
    ∧ (∀ e, sleep_outcome 2 = Raised e ->
       ∀ rounds,
         while_true (S rounds) (Output.sender_cycle Output.Strict with_peers alone 0) initial
         = (Raised e, st')).
Proof.
  apply (empty_cycle_sends_nothing Output.Strict with_peers alone 0 initial
           (after_lookups with_peers (lit "node-a") initial)).
  vm_compute. reflexivity.
Defined.

(** With [PERIOD=-1] a round without peers sends nothing and prints its
    line, but it does not sleep and no round follows it: [time.sleep]
    raises. *)
Lemma empty_cycle_negative_period_raises :
  Output.get_peer_ips Output.Strict hasty alone initial
  = (Returned [], after_lookups hasty (lit "node-a") initial)
  ∧ ∃ st',
      Output.sender_cycle Output.Strict hasty alone 0 initial
      = (Raised (ValueError (lit "sleep length must be non-negative")), st')
      ∧ trace st'
        = [Gethostname; Gethostbyname (lit "node-a"); Getaddrinfo (lit "peers.svc");
           Stdout (lit "[09:05:59.123] No peers found."); Sleep (-1)]
      ∧ ∀ rounds,
          while_true (S rounds) (Output.sender_cycle Output.Strict hasty alone 0) initial
          = (Raised (ValueError (lit "sleep length must be non-negative")), st').
Proof.
  split; [vm_compute; reflexivity|].
  eexists. split; [vm_compute; reflexivity|]. split; [reflexivity|].
  intros rounds. vm_compute. reflexivity.
Qed.


Lemma sender_never_stops_witness :
  ∃ st' evs,
    Output.sender Output.Strict with_peers cluster (fun _ => lit "2.0") 3 initial
    = (Running, st')
    ∧ trace st' = [] ++ evs
    ∧ sleeps evs = [2; 2; 2]%Q.
Proof.
  apply (sender_never_stops Output.Strict with_peers cluster (fun _ => lit "2.0") initial);
    try reflexivity.
  by apply cluster_printable.
Defined.

Lemma refused_period_stops_sender_witness :
  ∃ st' evs,
    Output.sender Output.Strict hasty cluster (fun _ => lit "-1.0") 3 initial
    = (Raised (ValueError (lit "sleep length must be non-negative")), st')
    ∧ trace st' = [] ++ evs
    ∧ sleeps evs = [-1]%Q.
Proof.
  apply (refused_period_stops_sender Output.Strict hasty cluster (fun _ => lit "-1.0") initial);
    try reflexivity.
  - left. reflexivity.
  - by apply cluster_printable.
Defined.

(** A run with [PERIOD=1e10], which is beyond the range. *)
Example sender_with_period_out_of_range :
  ∃ st',
    Output.sender Output.Strict patient cluster (fun _ => lit "10000000000.0") 3 initial
    = (Raised (PyError "OverflowError"
                 (lit "timestamp too large to convert to C _PyTime_t")), st')
    ∧ sleeps (trace st') = [10000000000]%Q
    ∧ length (transmissions (trace st')) = 2.
Proof.
  eexists. split; [vm_compute; reflexivity|]. split; vm_compute; reflexivity.
Qed.

Lemma receiver_listens_forever_witness :
  ∃ st' evs,
    receiver with_peers free_port 2 initial = (Running, st')
    ∧ trace st'
      = [] ++ [Socket; Setsockopt 0 SO_REUSEADDR 1; Setsockopt 0 SO_BROADCAST 1;
               Bind 0 (lit "0.0.0.0", 37020%Z);
               Stdout (lit "[09:05:59.123] Listening for UDP messages on port 37020...")]
        ++ evs
    ∧ receptions evs = [(0, 1024); (0, 1024)].
Proof.
  apply (receiver_listens_forever with_peers free_port initial); reflexivity.
Defined.

Lemma receiver_setup_failure_is_uncaught_witness :
  ∃ st' evs,
    (∀ rounds, receiver with_peers no_descriptors rounds initial
               = (Raised (OSError 24 (lit "Too many open files")), st'))
    ∧ trace st' = [] ++ evs
    ∧ (∀ line, Stdout line ∉ evs)
    ∧ ∀ float_str receiver_rounds sender_rounds,
        main with_peers no_descriptors float_str receiver_rounds sender_rounds initial
        = sender with_peers no_descriptors float_str sender_rounds st'.
Proof.
  apply (receiver_setup_failure_is_uncaught with_peers no_descriptors initial).
  left. reflexivity.
Defined.

Lemma sender_setup_failure_is_fatal_witness :
  snd (receiver with_peers no_descriptors 3 initial) = call Socket initial
  ∧ ∃ st' evs,
      (∀ rounds, sender with_peers no_descriptors (fun _ => lit "2.0") rounds
                   (call Socket initial)
                 = (Raised (OSError 24 (lit "Too many open files")), st'))
      ∧ trace st' = [Socket] ++ evs
      ∧ Forall (fun ev => ev = Socket ∨ ev = Setsockopt 1 SO_BROADCAST 1) evs
      ∧ main with_peers no_descriptors (fun _ => lit "2.0") 3 5 initial
        = (Raised (OSError 24 (lit "Too many open files")), st').
Proof.
  split; [reflexivity|].
  destruct (sender_setup_failure_is_fatal with_peers no_descriptors (fun _ => lit "2.0")
              (call Socket initial) (OSError 24 (lit "Too many open files")))
    as (st' & evs & Hsend & Htr & Hall & Hmain).
  { left. reflexivity. }
  exists st', evs. split; [exact Hsend|]. split; [exact Htr|]. split; [exact Hall|].
  apply (Hmain 3 5 initial). reflexivity.
Defined.

Lemma one_datagram_per_peer_witness :
  ∃ st' new,
    sender_cycle with_peers cluster 0 initial = (Returned tt, st')
    ∧ trace st' = [Gethostname; Gethostbyname (lit "node-a"); Getaddrinfo (lit "peers.svc")]
                  ++ new
    ∧ transmissions new
      = [(0, utf8 (lit "hola desde python-node sent at 09:05:59.123"), (node_c, 37020%Z));
         (0, utf8 (lit "hola desde python-node sent at 09:05:59.123"), (node_b, 37020%Z))].
Proof.
  apply (one_datagram_per_peer with_peers cluster 0 initial
           (after_lookups with_peers (lit "node-a") initial) [node_c; node_b]).
  - reflexivity.
  - exact cluster_peers.
Defined.

Lemma unencodable_identity_sends_nothing_witness :
  ∃ start stop st' new,
    sender_cycle garbled cluster 0 initial = (Returned tt, st')
    ∧ trace st' = [Gethostname; Gethostbyname (lit "node-a"); Getaddrinfo (lit "peers.svc")]
                  ++ new
    ∧ transmissions new = []
    ∧ sleeps new = [2]%Q
    ∧ ∀ ip, ip ∈ [node_c; node_b] ->
        ∃ t, Stdout
               (log_line t
                  (lit "Error sending to " ++ ip ++ lit ": "
                   ++ exn_str
                        (UnicodeEncodeError (lit "utf-8")
                           (lit "hola desde " ++ [0xDCFF%N] ++ lit " sent at 09:05:59.123")
                           start stop (lit "surrogates not allowed")))) ∈ new.
Proof.
  apply (unencodable_identity_sends_nothing garbled cluster 0 initial
           (after_lookups garbled (lit "node-a") initial) [node_c; node_b] 0xDCFF%N).
  - by left.
  - reflexivity.
  - exact garbled_peers.
Defined.

Lemma receiver_reports_text_verbatim_witness :
  ∃ st',
    receiver_step cluster 0 later = (Returned tt, st')
    ∧ trace st'
      = [] ++ [Recvfrom 0 1024; Stdout (lit "[09:05:59.123] Received from 10.0.0.3:37020 -> hi")].
Proof.
  apply (receiver_reports_text_verbatim cluster 0 later ["h"; "i"]%byte
           (node_c, 37020%Z) (lit "hi")); reflexivity.
Defined.

Lemma sent_datagram_is_reported_witness :
  ∃ r st' k new,
    sender_cycle with_peers cluster 0 initial = (r, st')
    ∧ trace st' = [] ++ new
    ∧ ∀ s' data dest (w2 : world) (s2 : sock) (st2 : state) (addr : endpoint),
        Sendto s' data dest ∈ new ->
        length data ≤ 1024 ->
        recvfrom_result w2 (net_calls st2) s2 = inr (data, addr) ->
        ∃ st2',
          receiver_step w2 s2 st2 = (Returned tt, st2')
          ∧ trace st2'
            = trace st2
              ++ [Recvfrom s2 1024;
                  Stdout (log_line (clock w2 (clock_reads st2))
                            (lit "Received from " ++ fst addr ++ lit ":"
                             ++ str_of_Z (snd addr) ++ lit " -> "
                             ++ presence_text with_peers (clock cluster k)))].
Proof.
  apply (sent_datagram_is_reported with_peers cluster 0 initial). reflexivity.
Defined.

(** ** One socket for each loop *)

(** [advances m]: the count of calls into the [socket] module never goes
    back while [m] runs. *)
Definition advances {A} (m : M A) : Prop :=
  ∀ st, net_calls st ≤ net_calls (snd (m st)).

Lemma advances_ret {A} (a : A) : advances (ret a).
Proof. by intros st. Qed.

Lemma advances_lift {A} (r : exn + A) : advances (lift r).
Proof. intros st. by destruct r. Qed.

Lemma advances_bind {A B} (m : M A) (k : A -> M B) :
  advances m -> (∀ a, advances (k a)) -> advances (bind m k).
Proof.
  intros Hm Hk st. unfold bind. pose proof (Hm st) as H1.
  destruct (m st) as [[a|e|] st1]; cbn [snd] in *; [|done..].
  pose proof (Hk a st1). lia.
Qed.

Lemma advances_try_except {A} (body : M A) (handler : exn -> M A) :
  advances body -> (∀ e, advances (handler e)) -> advances (try_except body handler).
Proof.
  intros Hm Hk st. unfold try_except. pose proof (Hm st) as H1.
  destruct (body st) as [[a|e|] st1]; cbn [snd] in *; [done| |done].
  pose proof (Hk e st1). lia.
Qed.

Lemma advances_net_call {A} ev (answer : nat -> exn + A) : advances (net_call ev answer).
Proof. intros st. cbn. lia. Qed.

Lemma advances_log w msg : advances (log w msg).
Proof. by intros st. Qed.

Lemma advances_sleep secs : advances (sleep secs).
Proof. by intros st. Qed.

Lemma advances_while_true rounds (body : M unit) :
  advances body -> advances (while_true rounds body).
Proof.
  intros H. induction rounds as [|rounds IH]; cbn [while_true]; [by intros st|].
  apply advances_bind; [done|]. by intros _.
Qed.

Lemma advances_receiver_step w s : advances (receiver_step w s).
Proof.
  unfold receiver_step. apply advances_try_except.
  - apply advances_bind; [apply advances_net_call|]. intros [data addr].
    apply advances_bind; [apply advances_lift|]. intros msg. apply advances_log.
  - intros e. apply advances_bind; [apply advances_log|]. intros _. apply advances_sleep.
Qed.

(** The receiver has made a call, its [socket()], whenever it stops or is
    looked at. *)
Lemma receiver_makes_calls cfg w rounds st :
  net_calls st < net_calls (snd (receiver cfg w rounds st)).
Proof.
  unfold receiver. unfold bind at 1. unfold socket at 1, net_call at 1.
  destruct (socket_result w (net_calls st)) as [e|]; [cbn; lia|].
  match goal with |- _ < net_calls (snd (?k ?st1)) =>
    assert (H : advances k); [|pose proof (H st1) as H1; cbn in H1]
  end; [|cbn; lia].
  apply advances_bind; [apply advances_net_call|]. intros _.
  apply advances_bind; [apply advances_net_call|]. intros _.
  apply advances_bind.
  { apply advances_try_except.
    - apply advances_bind; [apply advances_net_call|]. intros _. apply advances_ret.
    - intros e. apply advances_bind; [apply advances_log|]. intros _. apply advances_ret. }
  intros [|]; [|apply advances_ret].
  apply advances_bind; [apply advances_log|]. intros _.
  apply advances_while_true, advances_receiver_step.
Qed.

(** X15.  The two loops never share a socket: in a run of [main] there are
    two different sockets, every [bind] and [recvfrom] is on the first, the
    receiver's, and every [sendto] is on the second, the sender's. *)
Theorem main_keeps_sockets_apart
    (cfg : config) (w : world) (float_str : Q -> str)
    (receiver_rounds sender_rounds : nat) (st : state) :
  ∃ (receiving sending : sock) evs,
    receiving ≠ sending
    ∧ trace (snd (main cfg w float_str receiver_rounds sender_rounds st)) = trace st ++ evs
    ∧ Forall (fun ev =>
                match ev with
                | Bind s _ | Recvfrom s _ => s = receiving
                | Sendto s _ _ => s = sending
                | _ => True
                end) evs.
Proof.
  set (st1 := snd (receiver cfg w receiver_rounds st)).
  destruct (receiver_events cfg w receiver_rounds st) as (evs1 & Htr1 & Hall1).
  destruct (sender_events cfg w float_str sender_rounds st1) as (evs2 & Htr2 & Hall2).
  pose proof (receiver_makes_calls cfg w receiver_rounds st) as Hlt. fold st1 in Hlt, Htr1.
  exists (net_calls st), (net_calls st1), (evs1 ++ evs2).
  split; [lia|]. split.
  - unfold main, start_thread. unfold bind at 1. cbn [snd]. fold st1.
    by rewrite Htr2, Htr1, app_assoc.
  - apply Forall_app. split.
    + eapply Forall_impl; [exact Hall1|]. intros ev Hev.
      destruct ev; try done; cbn in Hev; by destruct Hev.
    + eapply Forall_impl; [exact Hall2|]. intros ev Hev.
      destruct ev; try done; cbn in Hev; by destruct Hev.
Qed.

(** * The route coverage tool, [backend/tools/generate_route_doc_map.py] *)

Module RouteMap.

(** A route as the first two loops collect it: path and handler. *)
Definition route : Type := str * str.

(** Lines 28-35, started with the set [seen] and the list [uniq]. *)
Fixpoint dedup_loop (seen : gset route) (uniq : list route) (routes : list route)
  : list route :=
  match routes with
  | [] => uniq
  | (p, h) :: rest =>
      let key := (p, h) in
      if decide (key ∈ seen) then dedup_loop seen uniq rest
      else dedup_loop (seen ∪ {[ key ]}) (uniq ++ [(p, h)]) rest
  end.

(** Lines 27-36: [routes] after the deduplication. *)
Definition deduplicate (routes : list route) : list route := dedup_loop ∅ [] routes.

End RouteMap.

Export RouteMap.

Section DedupFacts.

Implicit Types (seen : gset route) (uniq routes : list route) (r : route).

Lemma dedup_loop_uniq seen uniq routes :
  dedup_loop seen uniq routes = uniq ++ dedup_loop seen [] routes.
Proof.
  revert seen uniq. induction routes as [|[p h] routes IH]; intros seen uniq; cbn.
  - by rewrite app_nil_r.
  - case_decide; [apply IH|].
    rewrite (IH _ (uniq ++ [(p, h)])), (IH _ [(p, h)]), <- app_assoc. reflexivity.
Qed.

Lemma dedup_loop_cons seen r routes :
  dedup_loop seen [] (r :: routes)
  = if decide (r ∈ seen) then dedup_loop seen [] routes
    else r :: dedup_loop (seen ∪ {[ r ]}) [] routes.
Proof.
  destruct r as [p h]. cbn [dedup_loop app].
  destruct (decide ((p, h) ∈ seen)) as [Hin|Hin].
  - by rewrite decide_True.
  - rewrite decide_False by done. by rewrite dedup_loop_uniq.
Qed.

Lemma elem_of_dedup_loop seen routes r :
  r ∈ dedup_loop seen [] routes ↔ r ∈ routes ∧ r ∉ seen.
Proof.
  revert seen. induction routes as [|r' routes IH]; intros seen.
  - cbn. rewrite elem_of_nil. tauto.
  - rewrite dedup_loop_cons. case_decide as Hin.
    + rewrite IH, elem_of_cons. split; [tauto|].
      intros [[->|H] Hs]; [done|tauto].
    + rewrite !elem_of_cons, IH, elem_of_union, elem_of_singleton.
      split.
      * intros [->|[H1 H2]]; [tauto|]. tauto.
      * intros [[->|H] Hs]; [tauto|].
        destruct (decide (r = r')) as [->|Hne]; [tauto|]. right. tauto.
Qed.

Lemma NoDup_dedup_loop seen routes : NoDup (dedup_loop seen [] routes).
Proof.
  revert seen. induction routes as [|r routes IH]; intros seen.
  - constructor.
  - rewrite dedup_loop_cons. case_decide; [apply IH|].
    constructor; [|apply IH].
    rewrite elem_of_dedup_loop, elem_of_union, elem_of_singleton. tauto.
Qed.

Lemma sublist_dedup_loop seen routes : sublist (dedup_loop seen [] routes) routes.
Proof.
  revert seen. induction routes as [|r routes IH]; intros seen.
  - constructor.
  - rewrite dedup_loop_cons. case_decide.
    + by apply sublist_cons.
    + by apply sublist_skip.
Qed.

Lemma dedup_loop_filter seen r routes :
  dedup_loop (seen ∪ {[ r ]}) [] routes
  = filter (fun r' => r' ≠ r) (dedup_loop seen [] routes).
Proof.
  revert seen. induction routes as [|r' routes IH]; intros seen; [done|].
  rewrite !dedup_loop_cons.
  destruct (decide (r' ∈ seen)) as [Hin|Hin].
  - rewrite decide_True by set_solver. apply IH.
  - destruct (decide (r' = r)) as [->|Hne].
    + rewrite decide_True by set_solver.
      rewrite filter_cons_False by (intros H; by apply H).
      rewrite <- IH. f_equal. set_solver.
    + rewrite decide_False by set_solver.
      rewrite filter_cons_True by done. f_equal.
      rewrite <- IH. f_equal. set_solver.
Qed.

End DedupFacts.

Lemma deduplicate_cons (r : route) (routes : list route) :
  deduplicate (r :: routes) = r :: filter (fun r' => r' ≠ r) (deduplicate routes).
Proof.
  unfold deduplicate. rewrite dedup_loop_cons, decide_False by set_solver.
  by rewrite dedup_loop_filter.
Qed.

Lemma filter_all {A} (P : A -> Prop) `{!∀ x, Decision (P x)} (l : list A) :
  (∀ x, x ∈ l -> P x) -> filter P l = l.
Proof.
  induction l as [|x l IH]; intros Hall; [done|].
  rewrite filter_cons_True by (apply Hall; by left).
  f_equal. apply IH. intros y Hy. apply Hall. by right.
Qed.

Lemma deduplicate_NoDup_id (routes : list route) :
  NoDup routes -> deduplicate routes = routes.
Proof.
  induction 1 as [|r routes Hr _ IH]; [done|].
  rewrite deduplicate_cons, IH. f_equal.
  apply filter_all. by intros r' Hr' ->.
Qed.

Lemma deduplicate_app (routes1 routes2 : list route) :
  deduplicate (routes1 ++ routes2)
  = deduplicate routes1 ++ filter (fun r => r ∉ routes1) (deduplicate routes2).
Proof.
  induction routes1 as [|r routes1 IH]; cbn [app].
  - symmetry. apply filter_all. intros r _. apply not_elem_of_nil.
  - rewrite !deduplicate_cons, IH, filter_app. cbn [app]. do 2 f_equal.
    rewrite list_filter_filter. apply list_filter_iff.
    intros r'. rewrite not_elem_of_cons. tauto.
Qed.

(** X16.  The deduplication of the collected routes keeps every route, each
    pair of path and handler exactly once, drops nothing else and reorders
    nothing; a list without repetitions passes unchanged, so deduplicating
    twice is deduplicating once. *)
Theorem deduplicate_keeps_each_route_once (routes : list route) :
  NoDup (deduplicate routes)
  ∧ (∀ r, r ∈ deduplicate routes ↔ r ∈ routes)
  ∧ sublist (deduplicate routes) routes
  ∧ (NoDup routes -> deduplicate routes = routes)
  ∧ deduplicate (deduplicate routes) = deduplicate routes.
Proof.
  split; [apply NoDup_dedup_loop|]. split.
  { intros r. unfold deduplicate. rewrite elem_of_dedup_loop. set_solver. }
  split; [apply sublist_dedup_loop|]. split; [apply deduplicate_NoDup_id|].
  apply deduplicate_NoDup_id, NoDup_dedup_loop.
Qed.

(** X17.  Of a route that was collected several times the first occurrence
    is the one kept.  So the first route collected always heads the result,
    and when the routes of the second pattern are appended to those of the
    first, the result is the deduplicated routes of the first pattern
    followed by those routes of the second that the first did not give. *)
Theorem deduplicate_keeps_first_occurrence (routes1 routes2 : list route) (r : route) :
  deduplicate (r :: routes2) = r :: filter (fun r' => r' ≠ r) (deduplicate routes2)
  ∧ deduplicate (routes1 ++ routes2)
    = deduplicate routes1 ++ filter (fun r => r ∉ routes1) (deduplicate routes2).
Proof. split; [apply deduplicate_cons|apply deduplicate_app]. Qed.

(** ** The scan of the router functions, lines 82-99 *)

Module RouterScan.

(** One row of [results]: the dictionary built at lines 73-80 and 99. *)
Record entry := {
  e_path : str;
  e_handler : str;
  e_module : option str;
  e_function : str;
  e_file : option str;
  e_documented : bool
}.

(** [hay.startswith(needle)] *)
Fixpoint starts_with (needle hay : str) : bool :=
  match needle, hay with
  | [], _ => true
  | _ :: _, [] => false
  | c :: needle', d :: hay' => (c =? d)%N && starts_with needle' hay'
  end.

(** [needle in hay] *)
Fixpoint contains (needle hay : str) : bool :=
  starts_with needle hay
  || match hay with
     | [] => false
     | _ :: hay' => contains needle hay'
     end.

(** [s.split(sep)] for a separator that is not empty, reading [s] from the
    left: [cur] is the piece being read, and [skip] counts the characters of
    a separator just found that are still to be passed over. *)
Fixpoint split_loop (sep : str) (skip : nat) (cur : str) (s : str) : list str :=
  match s with
  | [] => [cur]
  | c :: rest =>
      match skip with
      | S k => split_loop sep k cur rest
      | O =>
          if starts_with sep s then cur :: split_loop sep (length sep - 1) [] rest
          else split_loop sep 0 (cur ++ [c]) rest
      end
  end.

Definition split (sep : str) (s : str) : list str := split_loop sep 0 [] s.

(** [parts[-1]], [parts[-2]] and [parts[0]] of a list that has them. *)
Definition last_part (parts : list str) : str := default [] (last parts).
Definition last_but_one (parts : list str) : str :=
  default [] (parts !! (length parts - 2)).
Definition first_part (parts : list str) : str := default [] (head parts).

(** Lines 89-95: module and function named by a handler found in the file
    with stem [stem]. *)
Definition module_and_function (stem handler : str) : str * str :=
  let parts := split (lit "::") handler in
  if decide (length parts = 1) then (stem, first_part parts)
  else (last_but_one parts, last_part parts).

(** [any(r['path'] == path for r in results)] *)
Definition has_path (path : str) (results : list entry) : bool :=
  existsb (fun r => bool_decide (e_path r = path)) results.

(** Lines 87-99: what one match [(path, handler)] in the file [rel] with
    text [txt] does to [results]. *)
Definition scan_match (stem rel txt : str) (results : list entry) (m : str * str)
  : list entry :=
  let '(path, handler) := m in
  let '(modname, func) := module_and_function stem handler in
  if negb (has_path path results) then
    let candidate := rel in
    let documented :=
      contains (lit "#[utoipa::path") txt && contains (lit "fn " ++ func) txt in
    results
    ++ [{| e_path := path; e_handler := handler; e_module := Some modname;
           e_function := func; e_file := Some candidate;
           e_documented := documented |}]
  else results.

(** A file of [api_dir.glob('*.rs')]: its stem, its path from the
    repository root, its text, and the matches of the route pattern in the
    text, each with its path and its stripped handler. *)
Record api_file := {
  f_stem : str;
  f_rel : str;
  f_txt : str;
  f_matches : list (str * str)
}.

(** Line 85. *)
Definition has_router (f : api_file) : bool :=
  contains (lit "fn router") (f_txt f) || contains (lit "pub fn router") (f_txt f).

(** Lines 84-99 for one file. *)
Definition scan_file (results : list entry) (f : api_file) : list entry :=
  if has_router f then
    foldl (scan_match (f_stem f) (f_rel f) (f_txt f)) results (f_matches f)
  else results.

(** Lines 83-99. *)
Definition scan_files (results : list entry) (files : list api_file) : list entry :=
  foldl scan_file results files.

End RouterScan.

Export RouterScan.

Example split_handler :
  split (lit "::") (lit "crate::api::nodes::list") = [lit "crate"; lit "api"; lit "nodes"; lit "list"]
  ∧ split (lit "::") (lit "list") = [lit "list"]
  ∧ split (lit "::") (lit "a:::b::") = [lit "a"; lit ":b"; lit ""]
  ∧ module_and_function (lit "nodes") (lit "list") = (lit "nodes", lit "list")
  ∧ module_and_function (lit "mod") (lit "api::nodes::list") = (lit "nodes", lit "list").
Proof. repeat split; reflexivity. Qed.

Section ScanFacts.

Implicit Types (results added : list entry) (path : str).

Lemma has_path_true path results :
  has_path path results = true ↔ path ∈ map e_path results.
Proof.
  unfold has_path. rewrite existsb_exists, list_elem_of_fmap.
  split.
  - intros (r & Hin & Heq). apply bool_decide_eq_true in Heq.
    exists r. split; [done|]. by apply list_elem_of_In.
  - intros (r & -> & Hin). exists r. split; [by apply list_elem_of_In|].
    by apply bool_decide_eq_true.
Qed.

(** [out] is [results] with new rows behind it, each with a module and a
    file, for paths that are new and differ from one another. *)
Definition grown (results out : list entry) : Prop :=
  ∃ added,
    out = results ++ added
    ∧ NoDup (map e_path added)
    ∧ ∀ e, e ∈ added ->
        (e_path e ∉ map e_path results) ∧ is_Some (e_module e) ∧ is_Some (e_file e).

Lemma grown_refl results : grown results results.
Proof.
  exists []. rewrite app_nil_r. split; [done|]. split; [constructor|].
  intros e He. by apply elem_of_nil in He.
Qed.

Lemma grown_scan_match stem rel txt results mid m :
  grown results mid -> grown results (scan_match stem rel txt mid m).
Proof.
  intros (added & -> & Hnd & Hnew). destruct m as [path handler].
  unfold scan_match. destruct (module_and_function stem handler) as [modname func].
  destruct (has_path path (results ++ added)) eqn:Hp; cbn [negb].
  { by exists added. }
  assert (Hnot : path ∉ map e_path (results ++ added)).
  { intros Hin. apply has_path_true in Hin. congruence. }
  rewrite map_app, elem_of_app in Hnot.
  eexists (added ++ [_]). split; [by rewrite app_assoc|]. split.
  - rewrite map_app. apply NoDup_app. split; [done|]. split.
    + intros p Hp1 Hp2. apply list_elem_of_singleton in Hp2. cbn in Hp2. subst p. tauto.
    + apply NoDup_singleton.
  - intros e He. apply elem_of_app in He as [He|He]; [by apply Hnew|].
    apply list_elem_of_singleton in He. subst e. cbn. split; [tauto|]. by split.
Qed.

Lemma grown_scan_file results mid f :
  grown results mid -> grown results (scan_file mid f).
Proof.
  intros H. unfold scan_file. destruct (has_router f); [|done].
  revert mid H. induction (f_matches f) as [|m ms IH]; intros mid H; [done|].
  cbn [foldl]. by apply IH, grown_scan_match.
Qed.

Lemma grown_foldl_scan_file results files mid :
  grown results mid -> grown results (foldl scan_file mid files).
Proof.
  revert mid. induction files as [|f files IH]; intros mid H; [done|].
  cbn [foldl]. by apply IH, grown_scan_file.
Qed.

Lemma grown_scan_files results files : grown results (scan_files results files).
Proof. apply grown_foldl_scan_file, grown_refl. Qed.

(** The paths reported only grow, and a match leaves its path reported. *)
Lemma scan_match_paths stem rel txt results m path :
  path ∈ map e_path results ∨ path = fst m ->
  path ∈ map e_path (scan_match stem rel txt results m).
Proof.
  destruct m as [p handler]. unfold scan_match.
  destruct (module_and_function stem handler) as [modname func]. cbn [fst].
  destruct (has_path p results) eqn:Hp; cbn [negb].
  - intros [H| ->]; [done|]. by apply has_path_true.
  - rewrite map_app, elem_of_app. intros [H| ->]; [by left|]. right. by left.
Qed.

Lemma scan_matches_paths stem rel txt ms results path :
  path ∈ map e_path results ∨ path ∈ map fst ms ->
  path ∈ map e_path (foldl (scan_match stem rel txt) results ms).
Proof.
  revert results. induction ms as [|m ms IH]; intros results; cbn [foldl map].
  - intros [H|H]; [done|]. by apply elem_of_nil in H.
  - rewrite elem_of_cons. intros H. apply IH.
    destruct H as [H|[H|H]]; [| |by right]; left; apply scan_match_paths; tauto.
Qed.

Lemma scan_file_paths results f path :
  path ∈ map e_path results ∨ (has_router f = true ∧ path ∈ map fst (f_matches f)) ->
  path ∈ map e_path (scan_file results f).
Proof.
  unfold scan_file. destruct (has_router f).
  - intros H. apply scan_matches_paths. tauto.
  - intros [H|[H _]]; [done|discriminate].
Qed.

Lemma scan_files_paths files results path :
  path ∈ map e_path results
  ∨ (∃ f, f ∈ files ∧ has_router f = true ∧ path ∈ map fst (f_matches f)) ->
  path ∈ map e_path (scan_files results files).
Proof.
  unfold scan_files. revert results.
  induction files as [|f files IH]; intros results; cbn [foldl].
  - intros [H|(f & Hf & _)]; [done|]. by apply elem_of_nil in Hf.
  - intros H. apply IH. destruct H as [H|(f' & Hf & Hr & Hp)].
    + left. apply scan_file_paths. by left.
    + apply elem_of_cons in Hf as [->|Hf].
      * left. apply scan_file_paths. by right.
      * right. by exists f'.
Qed.

Lemma starts_with_app_contains (a b hay : str) :
  starts_with (a ++ b) hay = true -> contains b hay = true.
Proof.
  revert hay. induction a as [|c a IH]; intros hay H; cbn [app] in H.
  - destruct hay; cbn [contains]; by rewrite H.
  - destruct hay as [|d hay]; [done|]. cbn [starts_with] in H.
    apply andb_prop in H as [_ H]. cbn [contains].
    rewrite (IH hay H). apply orb_true_r.
Qed.

Lemma contains_app (a b hay : str) :
  contains (a ++ b) hay = true -> contains b hay = true.
Proof.
  induction hay as [|d hay IH]; cbn [contains]; intros H.
  - rewrite orb_false_r in H. apply (starts_with_app_contains a b [] H).
  - apply orb_prop in H as [H|H].
    + apply (starts_with_app_contains a b (d :: hay) H).
    + cbn [contains] in IH. rewrite (IH H). apply orb_true_r.
Qed.

End ScanFacts.

(** X18.  The scan of the router functions never changes or removes a row
    that [results] already has: it only appends rows, every one with a
    module and a file, for paths that were not reported before, and no two
    for the same path. *)
Theorem scan_only_appends_new_paths (results : list entry) (files : list api_file) :
  ∃ added,
    scan_files results files = results ++ added
    ∧ NoDup (map e_path added)
    ∧ ∀ e, e ∈ added ->
        (e_path e ∉ map e_path results) ∧ is_Some (e_module e) ∧ is_Some (e_file e).
Proof. apply grown_scan_files. Qed.

(** X19.  The scan loses no path it finds: a path matched in a file whose
    text has a router function is among the paths reported afterwards,
    whether it was reported before or is reported by the scan. *)
Theorem scan_reports_every_matched_path
    (results : list entry) (files : list api_file) (f : api_file)
    (path handler : str) :
  f ∈ files ->
  has_router f = true ->
  (path, handler) ∈ f_matches f ->
  path ∈ map e_path (scan_files results files).
Proof.
  intros Hf Hr Hm. apply scan_files_paths. right. exists f.
  split; [done|]. split; [done|].
  apply list_elem_of_fmap. by exists (path, handler).
Qed.

(** X20.  The second test of line 85 decides nothing: a text that contains
    [pub fn router] contains [fn router], so a file is scanned exactly when
    its text contains [fn router]. *)
Theorem router_test_is_fn_router (f : api_file) :
  has_router f = contains (lit "fn router") (f_txt f).
Proof.
  unfold has_router.
  destruct (contains (lit "fn router") (f_txt f)) eqn:H1; [done|].
  destruct (contains (lit "pub fn router") (f_txt f)) eqn:H2; [|done].
  apply (contains_app (lit "pub ") (lit "fn router")) in H2. congruence.
Qed.

(** ** Module and function of a handler, lines 89-95 *)

(** [sep.join(parts)] *)
Fixpoint join (sep : str) (parts : list str) : str :=
  match parts with
  | [] => []
  | [part] => part
  | part :: parts' => part ++ sep ++ join sep parts'
  end.

(** A name without a colon, as the names of Rust modules and functions are. *)
Definition colon_free (name : str) : Prop := 58%N ∉ name.

Section SplitFacts.

Let sep : str := lit "::".

Lemma split_loop_name (name cur rest : str) :
  colon_free name ->
  split_loop sep 0 cur (name ++ rest) = split_loop sep 0 (cur ++ name) rest.
Proof.
  revert cur. induction name as [|c name IH]; intros cur Hfree; cbn [app].
  - by rewrite app_nil_r.
  - apply not_elem_of_cons in Hfree as [Hc Hfree].
    cbn [split_loop]. replace (starts_with sep (c :: name ++ rest)) with false.
    + rewrite IH by done. by rewrite <- app_assoc.
    + symmetry. change sep with [58%N; 58%N]. cbn [starts_with].
      by rewrite (proj2 (N.eqb_neq 58 c)).
Qed.

Lemma split_loop_separator (cur rest : str) :
  split_loop sep 0 cur (sep ++ rest) = cur :: split_loop sep 0 [] rest.
Proof. reflexivity. Qed.

Lemma split_join_names (names : list str) (name cur : str) :
  Forall colon_free (name :: names) ->
  split_loop sep 0 cur (join sep (name :: names)) = (cur ++ name) :: names.
Proof.
  revert name cur. induction names as [|name' names IH]; intros name cur Hall.
  - apply Forall_cons in Hall as [Hname _]. cbn [join].
    rewrite <- (app_nil_r name) at 1. rewrite split_loop_name by done. reflexivity.
  - apply Forall_cons in Hall as [Hname Hall].
    change (join sep (name :: name' :: names))
      with (name ++ sep ++ join sep (name' :: names)).
    rewrite split_loop_name by done. rewrite split_loop_separator.
    by rewrite IH.
Qed.

End SplitFacts.

(** X21.  For a handler written as names joined by [::], none with a colon
    in it, the split finds those names again.  So a bare function name gets
    the stem of the file as its module, and a qualified one gets its last
    name as function and the name before it as module, whatever comes
    further left. *)
Theorem module_and_function_of_names (stem : str) (qualifier : list str) (m f : str) :
  Forall colon_free (qualifier ++ [m; f]) ->
  split (lit "::") (join (lit "::") (qualifier ++ [m; f])) = qualifier ++ [m; f]
  ∧ module_and_function stem f = (stem, f)
  ∧ module_and_function stem (join (lit "::") (qualifier ++ [m; f])) = (m, f).
Proof.
  intros Hall.
  assert (Hf : colon_free f).
  { rewrite Forall_app in Hall. destruct Hall as [_ Hall].
    by inversion Hall as [|? ? _ [|? ? Hf _]]. }
  assert (Hsplit : ∀ names, names ≠ [] -> Forall colon_free names ->
                    split (lit "::") (join (lit "::") names) = names).
  { intros [|name names] Hne Hnames; [done|].
    unfold split. by rewrite split_join_names. }
  split; [apply Hsplit; [by destruct qualifier|done]|].
  split.
  - unfold module_and_function.
    pose proof (Hsplit [f] ltac:(done) ltac:(by repeat constructor)) as H1.
    cbn [join] in H1. rewrite H1. reflexivity.
  - unfold module_and_function. rewrite Hsplit; [|by destruct qualifier|done].
    rewrite decide_False by (rewrite length_app; cbn; lia).
    unfold last_but_one, last_part. rewrite last_app. cbn [last default].
    rewrite length_app. cbn [length].
    replace (length qualifier + 2 - 2) with (length qualifier) by lia.
    by rewrite list_lookup_middle.
Qed.

Module Scenario3.

(** A row already reported for [/api/nodes]. *)
Definition nodes_row : entry :=
  {| e_path := lit "/api/nodes"; e_handler := lit "api::nodes::list";
     e_module := Some (lit "nodes"); e_function := lit "list";
     e_file := Some (lit "src/api/nodes.rs"); e_documented := true |}.

(** [src/api/links.rs], with a router function and three matched routes. *)
Definition links_file : api_file :=
  {| f_stem := lit "links";
     f_rel := lit "src/api/links.rs";
     f_txt := lit "#[utoipa::path(get)] async fn create() {} pub fn router() {}";
     f_matches := [(lit "/api/nodes", lit "nodes::list");
                   (lit "/api/links", lit "create");
                   (lit "/api/links", lit "links::remove")] |}.

Example scan_links :
  scan_files [nodes_row] [links_file]
  = [nodes_row;
     {| e_path := lit "/api/links"; e_handler := lit "create";
        e_module := Some (lit "links"); e_function := lit "create";
        e_file := Some (lit "src/api/links.rs"); e_documented := true |}].
Proof. vm_compute. reflexivity. Qed.

End Scenario3.

Import Scenario3.

Lemma scan_reports_every_matched_path_witness :
  lit "/api/links" ∈ map e_path (scan_files [nodes_row] [links_file]).
Proof.
  apply (scan_reports_every_matched_path [nodes_row] [links_file] links_file
           (lit "/api/links") (lit "links::remove")).
  - by left.
  - reflexivity.
  - right. right. by left.
Defined.

Lemma module_and_function_of_names_witness :
  split (lit "::") (lit "crate::api::nodes::list")
  = [lit "crate"; lit "api"; lit "nodes"; lit "list"]
  ∧ module_and_function (lit "links") (lit "list") = (lit "links", lit "list")
  ∧ module_and_function (lit "links") (lit "crate::api::nodes::list")
    = (lit "nodes", lit "list").
Proof.
  apply (module_and_function_of_names (lit "links") [lit "crate"; lit "api"]
           (lit "nodes") (lit "list")).
  apply (bool_decide_unpack _). vm_compute. exact I.
Defined.
